(** * Branching-chat: the conversation tree and its algorithms

    A shallow embedding of [src/lib/types.ts] (the data model and the store's
    reducer) and [src/lib/tree-utils.ts] (import parser, root-path walker,
    chat-history builder, branch creator, layout engine), followed by the
    properties the specification states about them.

    Modelling conventions.
    - A JS object used as a dictionary ([Record<string, ChatNode>], [Map]) is
      a [gmap string _] holding its own properties; [nodes[k]] is
      [nodes !! k], with [None] for a [k] the object does not own.  For such
      a [k] the code reads [undefined], unless [k] names a property that
      every object inherits ([inheritedName]).  Where the code then takes
      another path than for [undefined], in [buildChatHistory] and in the
      reducer's [UPDATE_NODE], the model tests [inheritedName].  The walks
      ([?.parentId] of such a value is [undefined]) and the path view
      (nothing is pushed for it) do the same as for [undefined].
      [createBranchNode] and [layoutNode] are modelled for ids that are
      keys or name nothing: for the name of an inherited property the code
      raises a TypeError in both.
    - [string | null] is [option string]; JS truthiness of such a value
      ([while (current)], [if (prevId)]) is [truthy]: neither [null] nor the
      empty string.
    - A thrown exception is the [Throw] constructor of [result].
    - A [while] loop that may run forever takes a fuel argument and returns
      [None] when the fuel runs out before the loop exits.
    - [Date.now()] and [Math.random().toString(36).slice(2, 6)] are inputs,
      and so is the exception that [localStorage.setItem] raises, if any.
    - JS numbers in the layout are exact rationals extended with the two
      infinities and NaN; the layout is called with integer pixel sizes, on
      which double arithmetic is exact. *)

From stdpp Require Import gmap strings list fin_maps pretty.
From Equations Require Import Equations.
From Stdlib Require Import Ascii QArith Qminmax Lqa.
Close Scope Q_scope.
Set Warnings "-register-all".


(* ================================================================== *)
(** * Part I: the program *)
(* ================================================================== *)

(** ** Exceptions *)

Inductive JsError :=
| Error (message : string)       (* [throw new Error(message)] *)
| TypeError (message : string)   (* raised by the runtime *)
| DOMException (name : string).  (* raised by the browser's storage *)

Inductive result (A : Type) :=
| Ok (a : A)
| Throw (e : JsError).
Arguments Ok {A} a.
Arguments Throw {A} e.

#[global] Instance result_bind : MBind result := λ A B k r,
  match r with
  | Ok a => k a
  | Throw e => Throw e
  end.

(** JS truthiness of a string (the empty string is falsy) and of a
    [string | null]. *)
Definition nonEmpty (s : string) : bool := negb (String.eqb s "").

Definition truthy (v : option string) : bool :=
  match v with
  | Some s => nonEmpty s
  | None => false
  end.

(** ** Property names every object inherits

    The [nodes] objects are plain objects (an object literal, or a spread
    into one), so for a [k] that is not an own key, [nodes[k]] finds the
    properties of [Object.prototype]: a function, or for ["__proto__"] the
    prototype itself.  Such a value is truthy, has none of the fields of a
    [ChatNode], and spreads to nothing. *)
Definition inheritedNames : list string :=
  [ "constructor"; "toString"; "toLocaleString"; "valueOf";
    "hasOwnProperty"; "isPrototypeOf"; "propertyIsEnumerable"; "__proto__";
    "__defineGetter__"; "__defineSetter__";
    "__lookupGetter__"; "__lookupSetter__" ].

Definition inheritedName (k : string) : bool :=
  bool_decide (k ∈ inheritedNames).

(** ** types.ts: the data model *)

Inductive Source := imported | generated.

Record ChatNode := {
  id : string;
  prompt : string;
  response : string;
  parentId : option string;
  childIds : list string;
  source : Source
}.

Record UserInfo := { name : string; email : string }.
Record Dates := { created : string; updated : string; exported : string }.

Record ConversationMetadata := {
  title : string;
  user : UserInfo;
  dates : Dates
}.

Record ConversationTree := {
  metadata : ConversationMetadata;
  nodes : gmap string ChatNode;
  rootId : string
}.

Inductive ApiProvider := gateway | gemini.

Record Settings := {
  apiProvider : ApiProvider;
  geminiApiKey : string;
  geminiModel : string
}.

Inductive ViewMode := TreeView | PathView.

(** ** tree-utils.ts: JSON import *)

Record ExportedMessage := { role : string; say : string }.

(** The parsed JSON value as [parseImportedJson] looks at it:
    [json_metadata] is [None] when [json?.metadata] is falsy,
    [json_messages] is [None] when [json.messages] is not an array, and a
    metadata sub-field is [None] when it is falsy.  The value is taken to
    match the type it is cast to, [ExportedJson]: every element of
    [messages] is a record with a [role] and a [say].  [UnknownJson] and
    [parseImportedUnknown] below drop this for [null] elements, the one
    case in which the function raises an exception of the runtime. *)
Record RawMetadata := {
  raw_title : option string;
  raw_user : option UserInfo;
  raw_dates : option Dates
}.

Record ExportedJson := {
  json_metadata : option RawMetadata;
  json_messages : option (list ExportedMessage)
}.

Record Pair := { pair_prompt : string; pair_response : string }.

(** [next?.role === r] *)
Definition roleIs (next : option ExportedMessage) (r : string) : bool :=
  match next with
  | Some m => bool_decide (role m = r)
  | None => false
  end.

Definition inspect {A} (a : A) : {b : A | a = b} := exist _ a eq_refl.

(** The pairing loop, lines 30-38: [i] is the loop index, [pairs] the array
    built so far.  [messages !! i] is [None] exactly when the loop condition
    [i < json.messages.length] fails. *)
Equations? pairLoop (messages : list ExportedMessage) (i : nat)
    (pairs : list Pair) : list Pair by wf (length messages - i) lt :=
  pairLoop messages i pairs with inspect (messages !! i) := {
    | exist _ None _ := pairs
    | exist _ (Some msg) Hmsg with bool_decide (role msg = "Prompt") := {
        | false := pairLoop messages (i + 1) pairs
        | true with inspect (messages !! (i + 1)) := {
            | exist _ next _ with roleIs next "Response" := {
                | true :=
                    pairLoop messages (i + 1 + 1)
                      (pairs ++ [ {| pair_prompt := say msg;
                                     pair_response := default "" (say <$> next) |} ])
                | false :=
                    pairLoop messages (i + 1)
                      (pairs ++ [ {| pair_prompt := say msg;
                                     pair_response := "" |} ])
              } } } }.
Proof.
  all: apply lookup_lt_Some in Hmsg; lia.
Qed.

(** The state of the [pairs.forEach] callback, lines 45-67: the [nodes]
    object and the two captured variables. *)
Record ChainState := {
  cs_nodes : gmap string ChatNode;
  cs_prevId : option string;
  cs_rootId : string
}.

Definition nodeIdOfIndex (index : nat) : string := "node-" +:+ pretty index.

Definition pushChild (child : string) (n : ChatNode) : ChatNode :=
  {| id := id n; prompt := prompt n; response := response n;
     parentId := parentId n; childIds := childIds n ++ [child];
     source := source n |}.

Definition chainStep (st : ChainState) (pr : Pair) (index : nat)
    : result ChainState :=
  let i := nodeIdOfIndex index in
  let rootId' := if Nat.eqb index 0 then i else cs_rootId st in
  let nodes1 :=
    <[ i := {| id := i; prompt := pair_prompt pr;
               response := pair_response pr; parentId := cs_prevId st;
               childIds := []; source := imported |} ]> (cs_nodes st) in
  nodes2 ←
    match cs_prevId st with
    | Some p =>
        if nonEmpty p then
          match nodes1 !! p with
          | Some n => Ok (<[ p := pushChild i n ]> nodes1)
          | None => Throw (TypeError "Cannot read properties of undefined (reading 'childIds')")
          end
        else Ok nodes1
    | None => Ok nodes1
    end;
  Ok {| cs_nodes := nodes2; cs_prevId := Some i; cs_rootId := rootId' |}.

(** [pairs.forEach((pair, index) => ...)] from index [index] on. *)
Fixpoint forEachPair (pairs : list Pair) (index : nat) (st : ChainState)
    : result ChainState :=
  match pairs with
  | [] => Ok st
  | pr :: rest =>
      st' ← chainStep st pr index;
      forEachPair rest (index + 1) st'
  end.

Definition defaultUser : UserInfo := {| name := "Unknown"; email := "" |}.
Definition defaultDates : Dates :=
  {| created := ""; updated := ""; exported := "" |}.

Definition parseImportedJson (json : ExportedJson) : result ConversationTree :=
  match json_metadata json, json_messages json with
  | Some meta, Some messages =>
      let pairs := pairLoop messages 0 [] in
      if Nat.eqb (length pairs) 0 then
        Throw (Error "No prompt/response pairs found in the JSON")
      else
        st ← forEachPair pairs 0
                {| cs_nodes := ∅; cs_prevId := None; cs_rootId := "" |};
        Ok {| metadata :=
                {| title := match raw_title meta with
                            | Some t => if nonEmpty t then t
                                        else "Imported Conversation"
                            | None => "Imported Conversation"
                            end;
                   user := default defaultUser (raw_user meta);
                   dates := default defaultDates (raw_dates meta) |};
              nodes := cs_nodes st;
              rootId := cs_rootId st |}
  | _, _ => Throw (Error "Invalid ChatGPT Exporter JSON format")
  end.

(** *** The import on a value of unknown shape

    [parseImportedJson] takes [raw: unknown] and only casts it to
    [ExportedJson].  In a value that [JSON.parse] returns, an element of
    [messages] can be [null], and reading [msg.role] of [null] raises a
    TypeError.  (Any other element that is no record with the role Prompt or
    Response, a number or a record without [role], is passed over like a
    record with another role.)  [None] is a [null] element. *)
Record UnknownJson := {
  unknown_metadata : option RawMetadata;
  unknown_messages : option (list (option ExportedMessage))
}.

(** The pairing loop, lines 30-38, on such elements.  [next?.role] of a
    [null] or absent [next] is [undefined]. *)
Equations? pairLoopUnknown (messages : list (option ExportedMessage))
    (i : nat) (pairs : list Pair) : result (list Pair)
    by wf (length messages - i) lt :=
  pairLoopUnknown messages i pairs with inspect (messages !! i) := {
    | exist _ None _ := Ok pairs
    | exist _ (Some None) _ :=
        Throw (TypeError "Cannot read properties of null (reading 'role')")
    | exist _ (Some (Some msg)) Hmsg with bool_decide (role msg = "Prompt") := {
        | false := pairLoopUnknown messages (i + 1) pairs
        | true with inspect (default None (messages !! (i + 1))) := {
            | exist _ next _ with roleIs next "Response" := {
                | true :=
                    pairLoopUnknown messages (i + 1 + 1)
                      (pairs ++ [ {| pair_prompt := say msg;
                                     pair_response := default "" (say <$> next) |} ])
                | false :=
                    pairLoopUnknown messages (i + 1)
                      (pairs ++ [ {| pair_prompt := say msg;
                                     pair_response := "" |} ])
              } } } }.
Proof.
  all: apply lookup_lt_Some in Hmsg; lia.
Qed.

Definition parseImportedUnknown (raw : UnknownJson) : result ConversationTree :=
  match unknown_metadata raw, unknown_messages raw with
  | Some meta, Some messages =>
      pairs ← pairLoopUnknown messages 0 [];
      if Nat.eqb (length pairs) 0 then
        Throw (Error "No prompt/response pairs found in the JSON")
      else
        st ← forEachPair pairs 0
                {| cs_nodes := ∅; cs_prevId := None; cs_rootId := "" |};
        Ok {| metadata :=
                {| title := match raw_title meta with
                            | Some t => if nonEmpty t then t
                                        else "Imported Conversation"
                            | None => "Imported Conversation"
                            end;
                   user := default defaultUser (raw_user meta);
                   dates := default defaultDates (raw_dates meta) |};
              nodes := cs_nodes st;
              rootId := cs_rootId st |}
  | _, _ => Throw (Error "Invalid ChatGPT Exporter JSON format")
  end.

(** ** tree-utils.ts: traversal *)

(** The [while (current)] loop of [getPathToRoot], lines 93-96.  One unit of
    fuel is spent per iteration; [None] means the loop was still running
    when the fuel ran out.  [nodes[current]?.parentId ?? null] is [null]
    for an id that is no key, also when it names an inherited property. *)
Fixpoint walkUp (fuel : nat) (nodes : gmap string ChatNode)
    (current : option string) (path : list string) : option (list string) :=
  if truthy current then
    match fuel with
    | 0 => None
    | S fuel' =>
        match current with
        | Some c => walkUp fuel' nodes (nodes !! c ≫= parentId) (c :: path)
        | None => Some path
        end
    end
  else Some path.

Definition getPathToRoot (fuel : nat) (nodeId : string)
    (nodes : gmap string ChatNode) : option (list string) :=
  walkUp fuel nodes (Some nodeId) [].

Inductive Role := role_user | role_assistant.
Record ChatMessage := { msg_role : Role; content : string }.

(** The [for (const id of path)] loop of [buildChatHistory].  For an id
    that is no key, [nodes[id]] is [undefined] and reading [node.prompt]
    raises a TypeError; unless the id names an inherited property: then
    [node] is that property, its [prompt] and [response] are [undefined],
    and nothing is pushed. *)
Fixpoint historyLoop (nodes : gmap string ChatNode) (path : list string)
    (messages : list ChatMessage) : result (list ChatMessage) :=
  match path with
  | [] => Ok messages
  | i :: rest =>
      match nodes !! i with
      | None =>
          if inheritedName i
          then historyLoop nodes rest messages
          else Throw (TypeError "Cannot read properties of undefined (reading 'prompt')")
      | Some node =>
          let messages1 :=
            if nonEmpty (prompt node)
            then messages ++ [ {| msg_role := role_user; content := prompt node |} ]
            else messages in
          let messages2 :=
            if nonEmpty (response node)
            then messages1 ++ [ {| msg_role := role_assistant; content := response node |} ]
            else messages1 in
          historyLoop nodes rest messages2
      end
  end.

Definition buildChatHistory (fuel : nat) (nodeId : string)
    (nodes : gmap string ChatNode) : option (result (list ChatMessage)) :=
  path ← getPathToRoot fuel nodeId nodes;
  Some (historyLoop nodes path []).

(** ** tree-utils.ts: mutation *)

Definition newNodeId (now : N) (rnd : string) : string :=
  "node-" +:+ pretty now +:+ "-" +:+ rnd.

Definition setChildIds (cs : list string) (n : ChatNode) : ChatNode :=
  {| id := id n; prompt := prompt n; response := response n;
     parentId := parentId n; childIds := cs; source := source n |}.

(** [now] is the value of [Date.now()] and [rnd] the value of
    [Math.random().toString(36).slice(2, 6)] at the call. *)
Definition createBranchNode (now : N) (rnd : string) (parent : string)
    (nodes : gmap string ChatNode) : result (gmap string ChatNode * string) :=
  let newId := newNodeId now rnd in
  let updated := nodes in
  let updated :=
    <[ newId := {| id := newId; prompt := ""; response := "";
                   parentId := Some parent; childIds := [];
                   source := generated |} ]> updated in
  match updated !! parent with
  | None => Throw (TypeError "Cannot read properties of undefined (reading 'childIds')")
  | Some p =>
      Ok (<[ parent := setChildIds (childIds p ++ [newId]) p ]> updated, newId)
  end.

(** ** createBranchNode on the object heap

    [createBranchNode] receives a reference to the [nodes] object and
    returns a reference to a new one.  To speak of what it leaves untouched,
    the same code is modelled once more over a heap of objects: a record
    object maps keys to references to node objects, and a node object holds
    a reference to its [childIds] array. *)

Definition loc := nat.

Inductive object :=
| ObjRecord (entries : gmap string loc)
| ObjNode (i prompt0 response0 : string) (parent : option string)
          (children : loc) (src : Source)
| ObjArray (items : list string).

Abbreviation heap := (gmap loc object).

(** A new object, at a reference that is not in use. *)
Definition alloc (h : heap) (o : object) : loc * heap :=
  let l := fresh (dom h) in (l, <[ l := o ]> h).

Definition createBranchNodeH (now : N) (rnd : string) (parent : string)
    (nodesRef : loc) (h : heap) : heap * result (loc * string) :=
  let newId := newNodeId now rnd in
  match h !! nodesRef with
  | Some (ObjRecord entries) =>
      (* const updated = { ...nodes } *)
      let '(updated, h) := alloc h (ObjRecord entries) in
      (* updated[newId] = { id: newId, ..., childIds: [], ... } *)
      let '(arr, h) := alloc h (ObjArray []) in
      let '(node, h) :=
        alloc h (ObjNode newId "" "" (Some parent) arr generated) in
      let entries1 := <[ newId := node ]> entries in
      let h := <[ updated := ObjRecord entries1 ]> h in
      (* updated[parentId] = { ...updated[parentId],
                               childIds: [...updated[parentId].childIds, newId] } *)
      match entries1 !! parent with
      | None =>
          (h, Throw (TypeError "Cannot read properties of undefined (reading 'childIds')"))
      | Some pref =>
          match h !! pref with
          | Some (ObjNode i pr rs par children src) =>
              match h !! children with
              | Some (ObjArray items) =>
                  let '(arr2, h) := alloc h (ObjArray (items ++ [newId])) in
                  let '(pnode, h) := alloc h (ObjNode i pr rs par arr2 src) in
                  let h :=
                    <[ updated := ObjRecord (<[ parent := pnode ]> entries1) ]> h in
                  (h, Ok (updated, newId))
              | _ => (h, Throw (TypeError "childIds is not iterable"))
              end
          | _ => (h, Throw (TypeError "childIds is not iterable"))
          end
      end
  | _ => (h, Throw (TypeError "nodes is not an object"))
  end.

(** ** tree-utils.ts: layout *)

(** A JS number: a rational, an infinity or NaN.  The arithmetic below is
    exact; it is the arithmetic of the code's doubles as long as the sizes
    are integers and the values stay below 2^53. *)
Inductive number := Num (q : Q) | PosInf | NegInf | NaN.

Definition num_min (a b : number) : number :=
  match a, b with
  | NaN, _ | _, NaN => NaN
  | NegInf, _ | _, NegInf => NegInf
  | PosInf, c | c, PosInf => c
  | Num p, Num q => Num (Qmin p q)
  end.

Definition num_max (a b : number) : number :=
  match a, b with
  | NaN, _ | _, NaN => NaN
  | PosInf, _ | _, PosInf => PosInf
  | NegInf, c | c, NegInf => c
  | Num p, Num q => Num (Qmax p q)
  end.

Definition num_add (a b : number) : number :=
  match a, b with
  | NaN, _ | _, NaN => NaN
  | PosInf, NegInf | NegInf, PosInf => NaN
  | PosInf, _ | _, PosInf => PosInf
  | NegInf, _ | _, NegInf => NegInf
  | Num p, Num q => Num (p + q)
  end.

(** [a / 2] *)
Definition num_half (a : number) : number :=
  match a with
  | Num p => Num (p / 2)
  | other => other
  end.

Definition ofNat (n : nat) : Q := inject_Z (Z.of_nat n).

Record LayoutPosition := { x : number; y : number }.
Record Extent := { minX : number; maxX : number }.

(** The two variables [layoutNode] closes over. *)
Record LayoutState := {
  positions : gmap string LayoutPosition;
  leafCounter : nat
}.

(** The [for (const childId of node.childIds)] loop of [layoutNode], with
    the recursive call abstracted as [rec]. *)
Fixpoint layoutChildren
    (rec : string → nat → LayoutState → option (Extent * LayoutState))
    (children : list string) (depth : nat) (acc : Extent) (st : LayoutState)
    : option (Extent * LayoutState) :=
  match children with
  | [] => Some (acc, st)
  | childId :: rest =>
      '(e, st') ← rec childId (depth + 1) st;
      layoutChildren rec rest depth
        {| minX := num_min (minX acc) (minX e);
           maxX := num_max (maxX acc) (maxX e) |} st'
  end.

Section Layout.
Variable nodes : gmap string ChatNode.
Variables nodeWidth nodeHeight hGap vGap : Q.

(** [fuel] bounds the recursion depth; [None] means it was exceeded. *)
Fixpoint layoutNode (fuel : nat) (i : string) (depth : nat)
    (st : LayoutState) : option (Extent * LayoutState) :=
  match fuel with
  | 0 => None
  | S fuel' =>
      match nodes !! i with
      | None => Some ({| minX := Num 0; maxX := Num 0 |}, st)
      | Some node =>
          let y := Num (ofNat depth * (nodeHeight + vGap)) in
          if Nat.eqb (length (childIds node)) 0 then
            let x := Num (ofNat (leafCounter st) * (nodeWidth + hGap)) in
            Some ({| minX := x; maxX := x |},
                  {| positions := <[ i := {| x := x; y := y |} ]> (positions st);
                     leafCounter := leafCounter st + 1 |})
          else
            '(e, st') ← layoutChildren (layoutNode fuel') (childIds node) depth
                          {| minX := PosInf; maxX := NegInf |} st;
            let x := num_half (num_add (minX e) (maxX e)) in
            Some (e,
                  {| positions := <[ i := {| x := x; y := y |} ]> (positions st');
                     leafCounter := leafCounter st' |})
      end
  end.

Definition computeTreeLayout (fuel : nat) (rootId : string)
    : option (gmap string LayoutPosition) :=
  '(_, st) ← layoutNode fuel rootId 0 {| positions := ∅; leafCounter := 0 |};
  Some (positions st).
End Layout.

(** The default sizes of the optional parameters. *)
Definition computeTreeLayout_default (fuel : nat) (rootId : string)
    (nodes : gmap string ChatNode) : option (gmap string LayoutPosition) :=
  computeTreeLayout nodes 240 120 40 60 fuel rootId.

(** ** types.ts: the store *)

Record AppState := {
  tree : option ConversationTree;
  selectedNodeId : option string;
  activeView : ViewMode;
  settings : Settings
}.

Definition defaultSettings : Settings :=
  {| apiProvider := gemini; geminiApiKey := "";
     geminiModel := "google/gemini-2.5-pro" |}.

Definition initialState : AppState :=
  {| tree := None; selectedNodeId := None; activeView := TreeView;
     settings := defaultSettings |}.

(** [Partial<Settings>] and [Partial<ChatNode>]: [None] is an absent field. *)
Record PartialSettings := {
  patch_apiProvider : option ApiProvider;
  patch_geminiApiKey : option string;
  patch_geminiModel : option string
}.

Record PartialChatNode := {
  patch_id : option string;
  patch_prompt : option string;
  patch_response : option string;
  patch_parentId : option (option string);
  patch_childIds : option (list string);
  patch_source : option Source
}.

(** [{ ...s, ...p }] *)
Definition mergeSettings (s : Settings) (p : PartialSettings) : Settings :=
  {| apiProvider := default (apiProvider s) (patch_apiProvider p);
     geminiApiKey := default (geminiApiKey s) (patch_geminiApiKey p);
     geminiModel := default (geminiModel s) (patch_geminiModel p) |}.

Definition mergeNode (n : ChatNode) (p : PartialChatNode) : ChatNode :=
  {| id := default (id n) (patch_id p);
     prompt := default (prompt n) (patch_prompt p);
     response := default (response n) (patch_response p);
     parentId := default (parentId n) (patch_parentId p);
     childIds := default (childIds n) (patch_childIds p);
     source := default (source n) (patch_source p) |}.

(** What the reducer reads from and writes to outside its arguments:
    the clock and the random source used by [createBranchNode], whether a
    [window] exists, and the settings object stored under the key
    ["branching-chats-settings"] ([None] when the key is absent, does not
    parse, or reading it raises: [loadSettings] catches all of these), and
    the exception that [localStorage.setItem] raises when it is called
    ([None] when the write goes through). *)
Record World := {
  dateNow : N;
  random36 : string;
  hasWindow : bool;
  localStorage : option PartialSettings;
  setItemThrows : option JsError
}.

Definition allOf (s : Settings) : PartialSettings :=
  {| patch_apiProvider := Some (apiProvider s);
     patch_geminiApiKey := Some (geminiApiKey s);
     patch_geminiModel := Some (geminiModel s) |}.

Definition loadSettings (w : World) : Settings :=
  if hasWindow w then
    match localStorage w with
    | Some saved => mergeSettings defaultSettings saved
    | None => defaultSettings
    end
  else defaultSettings.

Inductive Action :=
| IMPORT_TREE (t : ConversationTree)
| SELECT_NODE (nodeId : option string)
| SET_VIEW (view : ViewMode)
| UPDATE_SETTINGS (patch : PartialSettings)
| BRANCH_FROM_NODE (nodeId : string)
| UPDATE_NODE (nodeId : string) (patch : PartialChatNode)
| INIT_SETTINGS.

Definition withNodes (t : ConversationTree) (ns : gmap string ChatNode)
    : ConversationTree :=
  {| metadata := metadata t; nodes := ns; rootId := rootId t |}.

(** [{ ...node, ...patch }] when [node] is an inherited property: the
    object has the fields of [patch] and no others.  It is a [ChatNode]
    only when [patch] has all six fields. *)
Definition completeNode (p : PartialChatNode) : option ChatNode :=
  match patch_id p, patch_prompt p, patch_response p,
        patch_parentId p, patch_childIds p, patch_source p with
  | Some i, Some pr, Some rs, Some par, Some cs, Some src =>
      Some {| id := i; prompt := pr; response := rs; parentId := par;
              childIds := cs; source := src |}
  | _, _, _, _, _, _ => None
  end.

(** What the reducer returns: a state of type [AppState], or, when
    [UPDATE_NODE] names an inherited property and not a node, the state
    [state] whose [nodes] object holds in addition, under [nodeId], the
    object [{ ...patch }], which lacks fields of a [ChatNode] and so is no
    value of that type. *)
Inductive Store :=
| Typed (state : AppState)
| Untyped (state : AppState) (nodeId : string) (object : PartialChatNode).

Definition reducer (w : World) (state : AppState) (action : Action)
    : result (Store * World) :=
  match action with
  | IMPORT_TREE t =>
      Ok (Typed {| tree := Some t; selectedNodeId := Some (rootId t);
                   activeView := TreeView; settings := settings state |}, w)
  | SELECT_NODE nodeId =>
      Ok (Typed {| tree := tree state; selectedNodeId := nodeId;
                   activeView := activeView state;
                   settings := settings state |}, w)
  | SET_VIEW view =>
      Ok (Typed {| tree := tree state; selectedNodeId := selectedNodeId state;
                   activeView := view; settings := settings state |}, w)
  | UPDATE_SETTINGS patch =>
      let newSettings := mergeSettings (settings state) patch in
      let newState :=
        {| tree := tree state; selectedNodeId := selectedNodeId state;
           activeView := activeView state; settings := newSettings |} in
      if hasWindow w then
        match setItemThrows w with
        | Some e => Throw e
        | None =>
            Ok (Typed newState,
                {| dateNow := dateNow w; random36 := random36 w;
                   hasWindow := hasWindow w;
                   localStorage := Some (allOf newSettings);
                   setItemThrows := setItemThrows w |})
        end
      else Ok (Typed newState, w)
  | BRANCH_FROM_NODE nodeId =>
      match tree state with
      | None => Ok (Typed state, w)
      | Some t =>
          '(ns, newNodeId) ←
            createBranchNode (dateNow w) (random36 w) nodeId (nodes t);
          Ok (Typed {| tree := Some (withNodes t ns);
                       selectedNodeId := Some newNodeId;
                       activeView := PathView;
                       settings := settings state |}, w)
      end
  | UPDATE_NODE nodeId patch =>
      match tree state with
      | None => Ok (Typed state, w)
      | Some t =>
          let stored (n : ChatNode) :=
            {| tree := Some (withNodes t (<[ nodeId := n ]> (nodes t)));
               selectedNodeId := selectedNodeId state;
               activeView := activeView state;
               settings := settings state |} in
          match nodes t !! nodeId with
          | Some node => Ok (Typed (stored (mergeNode node patch)), w)
          | None =>
              if inheritedName nodeId then
                match completeNode patch with
                | Some n => Ok (Typed (stored n), w)
                | None => Ok (Untyped state nodeId patch, w)
                end
              else Ok (Typed state, w)
          end
      end
  | INIT_SETTINGS =>
      Ok (Typed {| tree := tree state; selectedNodeId := selectedNodeId state;
                   activeView := activeView state;
                   settings := loadSettings w |}, w)
  end.

(** ** tree-utils.ts: depth *)

(** [nodes[current]?.parentId] *)
Definition parentOf (nodes : gmap string ChatNode) (current : option string)
    : option string :=
  current ≫= (λ c, nodes !! c ≫= parentId).

(** The [while (current && nodes[current]?.parentId)] loop of
    [getNodeDepth], lines 219-222, with fuel as in [walkUp]. *)
Fixpoint depthLoop (fuel : nat) (nodes : gmap string ChatNode)
    (current : option string) (depth : nat) : option nat :=
  if truthy current && truthy (parentOf nodes current) then
    match fuel with
    | 0 => None
    | S fuel' => depthLoop fuel' nodes (parentOf nodes current) (depth + 1)
    end
  else Some depth.

Definition getNodeDepth (fuel : nat) (nodeId : string)
    (nodes : gmap string ChatNode) : option nat :=
  depthLoop fuel nodes (Some nodeId) 0.

(** ** The path view (the [PathView] component): what it reads from the store

    Only the computations on the tree are modelled: the path and the message
    list it renders, the choice between filling a branch and creating one,
    and the history it builds for the completion request. *)

(** [pathNodeIds], the first [useMemo]. *)
Definition pathNodeIds (fuel : nat) (state : AppState) : option (list string) :=
  match tree state with
  | Some t =>
      if truthy (selectedNodeId state) then
        match selectedNodeId state with
        | Some sel => getPathToRoot fuel sel (nodes t)
        | None => Some []
        end
      else Some []
  | None => Some []
  end.

Record PathMessage := {
  pm_id : string;
  pm_role : Role;
  pm_content : string;
  pm_nodeId : string;
  pm_source : Source
}.

(** The loop of the [messages] memo; a missing node is skipped
    ([if (!node) continue]), and for an id that names an inherited property
    [node.prompt] and [node.response] are [undefined], so nothing is pushed
    either. *)
Fixpoint pathMessagesLoop (nodes : gmap string ChatNode) (path : list string)
    (msgs : list PathMessage) : list PathMessage :=
  match path with
  | [] => msgs
  | nodeId :: rest =>
      match nodes !! nodeId with
      | None => pathMessagesLoop nodes rest msgs
      | Some node =>
          let msgs1 :=
            if nonEmpty (prompt node)
            then msgs ++ [ {| pm_id := nodeId +:+ "-prompt"; pm_role := role_user;
                              pm_content := prompt node; pm_nodeId := nodeId;
                              pm_source := source node |} ]
            else msgs in
          let msgs2 :=
            if nonEmpty (response node)
            then msgs1 ++ [ {| pm_id := nodeId +:+ "-response";
                               pm_role := role_assistant;
                               pm_content := response node; pm_nodeId := nodeId;
                               pm_source := source node |} ]
            else msgs1 in
          pathMessagesLoop nodes rest msgs2
      end
  end.

Definition pathMessages (state : AppState) (path : list string)
    : list PathMessage :=
  match tree state with
  | Some t => pathMessagesLoop (nodes t) path []
  | None => []
  end.

(** [tree && selectedNodeId ? tree.nodes[selectedNodeId] : null], as far as
    it is a node: an inherited property found under the selected id fails
    the tests [prompt === ""] and [response === ""] that follow every use of
    [currentNode], as [null] does. *)
Definition currentNode (state : AppState) : option ChatNode :=
  match tree state with
  | Some t =>
      if truthy (selectedNodeId state)
      then selectedNodeId state ≫= (λ sel, nodes t !! sel)
      else None
  | None => None
  end.

(** The test, used twice, for a branch that has not been filled in. *)
Definition isBlankBranch (n : ChatNode) : bool :=
  String.eqb (prompt n) "" && String.eqb (response n) "" &&
  match source n with generated => true | imported => false end.

(** What [handleChatSend] does with a message: nothing, send it into the
    selected node, or remember it and dispatch a branch creation. *)
Inductive ChatSend :=
| Ignored
| SendToNode (text : string) (nodeId : string)
| BranchFirst (pending : string) (action : Action).

Definition handleChatSend (state : AppState) (text : string) : ChatSend :=
  match tree state with
  | Some t =>
      if truthy (selectedNodeId state) then
        match selectedNodeId state with
        | Some sel =>
            match currentNode state with
            | Some n =>
                if isBlankBranch n then SendToNode text sel
                else BranchFirst text (BRANCH_FROM_NODE sel)
            | None => BranchFirst text (BRANCH_FROM_NODE sel)
            end
        | None => Ignored
        end
      else Ignored
  | None => Ignored
  end.

(** The effect that runs after a render: a pending message is sent into the
    selected node once that node is a blank branch. *)
Definition pendingEffect (state : AppState) (pending : option string)
    : option (string * string) :=
  if truthy pending then
    match pending, currentNode state, selectedNodeId state with
    | Some msg, Some n, Some sel =>
        if isBlankBranch n then Some (msg, sel) else None
    | _, _, _ => None
    end
  else None.

(** The synchronous start of [handleSendToNode]: the [UPDATE_NODE] it
    dispatches and the history it puts in the request.  [tree] is the tree
    of the render the callback closes over, so the history is read from the
    tree as it was before the update. *)
Definition handleSendToNode (fuel : nat) (state : AppState) (text : string)
    (nodeId : option string)
    : option (result (option (Action * list ChatMessage))) :=
  match tree state with
  | None => Some (Ok None)
  | Some t =>
      let target := if truthy nodeId then nodeId else selectedNodeId state in
      if truthy target then
        match target with
        | Some targetId =>
            let update :=
              UPDATE_NODE targetId
                {| patch_id := None; patch_prompt := Some text;
                   patch_response := None; patch_parentId := None;
                   patch_childIds := None; patch_source := None |} in
            let parent := nodes t !! targetId ≫= parentId in
            history ←
              (if truthy parent then
                 match parent with
                 | Some p => buildChatHistory fuel p (nodes t)
                 | None => Some (Ok [])
                 end
               else Some (Ok []));
            Some (h ← history;
                  Ok (Some (update,
                            h ++ [ {| msg_role := role_user; content := text |} ])))
        | None => Some (Ok None)
        end
      else Some (Ok None)
  end.

(** ** The tree view (the [TreeView] component): its layout call *)

Definition treeViewLayout (fuel : nat) (state : AppState)
    : option (gmap string LayoutPosition) :=
  match tree state with
  | Some t => computeTreeLayout (nodes t) 220 140 40 80 fuel (rootId t)
  | None => Some ∅
  end.

(** ** app/api/chat/route.ts: the choice of provider and model *)

(** [s.replace(/^google\//, "")] *)
Definition stripGoogle (s : string) : string :=
  match s with
  | String "g" (String "o" (String "o" (String "g" (String "l" (String "e"
      (String "/" rest)))))) => rest
  | _ => s
  end.

Inductive ModelProvider :=
| ViaGateway
| ViaGoogle (apiKey : string).

(** The branch of [POST] that fixes [model], for the request's
    [apiProvider] and [model] fields and its [x-gemini-api-key] header
    ([None] for a field or header that is absent). *)
Definition selectModel (apiProvider : option string)
    (geminiApiKey : option string) (modelName : option string)
    : ModelProvider * string :=
  if bool_decide (apiProvider = Some "gemini") && truthy geminiApiKey then
    let cleanModel := stripGoogle <$> modelName in
    (ViaGoogle (default "" geminiApiKey),
     if truthy cleanModel then default "" cleanModel else "gemini-2.5-flash")
  else
    (ViaGateway,
     if truthy modelName then default "" modelName
     else "google/gemini-2.5-flash").

(* ================================================================== *)
(** * Part II: the vocabulary of the specification *)
(* ================================================================== *)

(** ** Import pairing as section 4.1 words it *)

(** A [Prompt] followed by a [Response] is paired with it and both are
    consumed; a [Prompt] followed by anything else, or by nothing, is paired
    with the empty response; any other message at the scan position is
    dropped. *)
Fixpoint pairScan (messages : list ExportedMessage) : list Pair :=
  match messages with
  | [] => []
  | msg :: rest =>
      if bool_decide (role msg = "Prompt") then
        match rest with
        | next :: rest' =>
            if bool_decide (role next = "Response")
            then {| pair_prompt := say msg; pair_response := say next |}
                   :: pairScan rest'
            else {| pair_prompt := say msg; pair_response := "" |}
                   :: pairScan rest
        | [] => [ {| pair_prompt := say msg; pair_response := "" |} ]
        end
      else pairScan rest
  end.

(** ** The linear chain an import builds *)

(** The node that the import creates for the pair [p] at position [i] of
    the pair sequence [ps]. *)
Definition chainNode (ps : list Pair) (i : nat) (p : Pair) : ChatNode :=
  {| id := nodeIdOfIndex i;
     prompt := pair_prompt p;
     response := pair_response p;
     parentId := match i with
                 | 0 => None
                 | S j => Some (nodeIdOfIndex j)
                 end;
     childIds := if decide (S i < length ps) then [nodeIdOfIndex (S i)] else [];
     source := imported |}.

(** What holds of the [forEach] state once the pairs [ps] are processed. *)
Record ChainInv (ps : list Pair) (st : ChainState) : Prop := {
  chain_prev :
    cs_prevId st = match length ps with
                   | 0 => None
                   | S j => Some (nodeIdOfIndex j)
                   end;
  chain_root :
    cs_rootId st = match length ps with
                   | 0 => ""
                   | S _ => nodeIdOfIndex 0
                   end;
  chain_lookup :
    ∀ i p, ps !! i = Some p →
      cs_nodes st !! nodeIdOfIndex i = Some (chainNode ps i p);
  chain_keys :
    ∀ k n, cs_nodes st !! k = Some n →
      ∃ i, i < length ps ∧ k = nodeIdOfIndex i;
  chain_size : size (cs_nodes st) = length ps
}.

(** ** Parent chains and the tree invariant of section 3 *)

(** [ancestorAt nodes k current]: the value of [current] after [k] rounds of
    [current = nodes[current]?.parentId ?? null]. *)
Fixpoint ancestorAt (nodes : gmap string ChatNode) (k : nat)
    (current : option string) : option string :=
  match k with
  | 0 => current
  | S k' =>
      match current with
      | Some c => ancestorAt nodes k' (nodes !! c ≫= parentId)
      | None => None
      end
  end.

(** The structural invariant: [root] is the one node without parent; the
    parent of any other node exists and lists it among its children; the
    parent chain of every node reaches [root] in at most as many steps as
    there are nodes. *)
Record TreeInvariant (nodes : gmap string ChatNode) (root : string) : Prop := {
  inv_root : ∃ n, nodes !! root = Some n ∧ parentId n = None;
  inv_root_unique :
    ∀ i n, nodes !! i = Some n → parentId n = None → i = root;
  inv_parent :
    ∀ i n p, nodes !! i = Some n → parentId n = Some p →
      ∃ pn, nodes !! p = Some pn ∧ i ∈ childIds pn;
  inv_chain :
    ∀ i n, nodes !! i = Some n →
      ∃ k, k ≤ size nodes ∧ ancestorAt nodes k (Some i) = Some root
}.

(** No key is the empty string, which the code reads as "no id". *)
Definition NonEmptyIds (nodes : gmap string ChatNode) : Prop :=
  ∀ i n, nodes !! i = Some n → nonEmpty i = true.

(** A mapping whose only node is its own parent. *)
Definition selfLoop : gmap string ChatNode :=
  {[ "a" := {| id := "a"; prompt := ""; response := "";
               parentId := Some "a"; childIds := ["a"];
               source := generated |} ]}.

(** A patch that touches only [prompt] and [response]. *)
Definition textOnly (patch : PartialChatNode) : Prop :=
  patch_id patch = None ∧ patch_parentId patch = None ∧
  patch_childIds patch = None ∧ patch_source patch = None.

(** The node a branch starts as. *)
Definition blankNode (newId parent : string) : ChatNode :=
  {| id := newId; prompt := ""; response := ""; parentId := Some parent;
     childIds := []; source := generated |}.

(** A tree the program can build: an imported root, a branch created from it
    and a branch created from that branch, both within millisecond 5. *)
Definition root0 : gmap string ChatNode :=
  {[ "node-0" := {| id := "node-0"; prompt := "hi"; response := "hello";
                    parentId := None; childIds := []; source := imported |} ]}.

Definition threeNodes : gmap string ChatNode :=
  <[ "node-0" := {| id := "node-0"; prompt := "hi"; response := "hello";
                    parentId := None; childIds := ["node-5-ab"];
                    source := imported |} ]>
  (<[ "node-5-ab" := {| id := "node-5-ab"; prompt := ""; response := "";
                        parentId := Some "node-0"; childIds := ["node-5-cd"];
                        source := generated |} ]>
  (<[ "node-5-cd" := {| id := "node-5-cd"; prompt := ""; response := "";
                        parentId := Some "node-5-ab"; childIds := [];
                        source := generated |} ]> ∅)).

(** ** Heap objects and the values they stand for *)

(** The node object at [l] holds the fields of [n]. *)
Definition reprNode (h : heap) (l : loc) (n : ChatNode) : Prop :=
  ∃ arr,
    h !! l = Some (ObjNode (id n) (prompt n) (response n) (parentId n) arr
                           (source n)) ∧
    h !! arr = Some (ObjArray (childIds n)).

(** The record object at [l] holds the mapping [m]. *)
Definition reprNodes (h : heap) (l : loc)
    (m : gmap string ChatNode) : Prop :=
  ∃ entries,
    h !! l = Some (ObjRecord entries) ∧
    ∀ k, option_Forall2 (reprNode h) (entries !! k) (m !! k).

(** [h'] has every object of [h], unchanged. *)
Definition preserves (h h' : heap) : Prop :=
  ∀ l o, h !! l = Some o → h' !! l = Some o.

(** A heap with the one-node tree [root0] at reference 0. *)
Definition heap0 : heap :=
  {[ 0 := ObjRecord {[ "node-0" := 1 ]};
     1 := ObjNode "node-0" "hi" "hello" None 2 imported;
     2 := ObjArray [] ]}.

(** A store state that holds the one-node tree. *)
Definition tree0 : ConversationTree :=
  {| metadata := {| title := "t"; user := defaultUser; dates := defaultDates |};
     nodes := root0; rootId := "node-0" |}.

Definition state0 : AppState :=
  {| tree := Some tree0; selectedNodeId := Some "node-0";
     activeView := TreeView; settings := defaultSettings |}.

Definition world0 : World :=
  {| dateNow := 5; random36 := "ab"; hasWindow := true; localStorage := None;
     setItemThrows := None |}.

(** ** Root paths and chat histories *)

(** [RootPath nodes root i path]: [path] lists the ids from [root] down to
    [i], each the parent of the next. *)
Inductive RootPath (nodes : gmap string ChatNode) (root : string)
    : string → list string → Prop :=
| RootPath_root : RootPath nodes root root [root]
| RootPath_step i n p path :
    nodes !! i = Some n → parentId n = Some p →
    RootPath nodes root p path →
    RootPath nodes root i (path ++ [i]).

(** The messages one node contributes: its prompt as [user] if not empty,
    then its response as [assistant] if not empty. *)
Definition exchange (n : ChatNode) : list ChatMessage :=
  (if nonEmpty (prompt n)
   then [ {| msg_role := role_user; content := prompt n |} ] else []) ++
  (if nonEmpty (response n)
   then [ {| msg_role := role_assistant; content := response n |} ] else []).

(** A root with one child, the tree of the example in section 8. *)
Definition twoNodes : gmap string ChatNode :=
  <[ "node-0" := {| id := "node-0"; prompt := "x"; response := "y";
                    parentId := None; childIds := ["node-1"];
                    source := imported |} ]>
  (<[ "node-1" := {| id := "node-1"; prompt := "a"; response := "b";
                     parentId := Some "node-0"; childIds := [];
                     source := imported |} ]> ∅).

(** ** Trees for the layout *)

(** The tree that the [childIds] lists spell out below a node. *)
Inductive rose := Rose (i : string) (kids : list rose).

Definition rootOf (t : rose) : string :=
  match t with Rose i _ => i end.

(** All ids, parents before children, children in [childIds] order. *)
Fixpoint idsOf (t : rose) : list string :=
  match t with Rose i kids => i :: concat (idsOf <$> kids) end.

(** The leaves in depth-first [childIds] order. *)
Fixpoint leavesOf (t : rose) : list string :=
  match t with
  | Rose i [] => [i]
  | Rose i kids => concat (leavesOf <$> kids)
  end.

(** Every id with its depth, the root of [t] being at depth [d]. *)
Fixpoint depthsOf (t : rose) (d : nat) : list (string * nat) :=
  match t with
  | Rose i kids => (i, d) :: concat ((λ k, depthsOf k (S d)) <$> kids)
  end.

Fixpoint height (t : rose) : nat :=
  match t with Rose i kids => S (max_list (height <$> kids)) end.

Inductive Subtree (s : rose) : rose → Prop :=
| Subtree_here : Subtree s s
| Subtree_below i kids k : k ∈ kids → Subtree s k → Subtree s (Rose i kids).

(** [Shape nodes t]: every id of [t] is a key of [nodes], and the [childIds]
    of its node are the roots of its subtrees, in order. *)
Inductive Shape (nodes : gmap string ChatNode) : rose → Prop :=
| Shape_node i n kids :
    nodes !! i = Some n →
    childIds n = rootOf <$> kids →
    Forall (Shape nodes) kids →
    Shape nodes (Rose i kids).

(** A well-formed tree below [rootId]: the [childIds] lists unfold from
    [rootId] into [t], and no id occurs twice in [t]. *)
Definition WellFormedFrom (nodes : gmap string ChatNode) (rootId : string)
    (t : rose) : Prop :=
  Shape nodes t ∧ rootOf t = rootId ∧ NoDup (idsOf t).

(** [m] is the least, respectively the greatest, of the numbers [qs]. *)
Definition IsMin (m : Q) (qs : list Q) : Prop :=
  m ∈ qs ∧ ∀ q, q ∈ qs → (m <= q)%Q.
Definition IsMax (m : Q) (qs : list Q) : Prop :=
  m ∈ qs ∧ ∀ q, q ∈ qs → (q <= m)%Q.

(** [qs] are the x-coordinates that [pos] gives to the ids [ids]. *)
Definition XsOf (pos : gmap string LayoutPosition) (ids : list string)
    (qs : list Q) : Prop :=
  Forall2 (λ k q, ∃ yk, pos !! k = Some {| x := Num q; y := yk |}) ids qs.

Section LayoutSpec.
Variables nodeWidth nodeHeight hGap vGap : Q.

(** The fold over the subtrees of a node, as in [layoutChildren]. *)
Definition layoutKids (rec : rose → nat → LayoutState → Extent * LayoutState) :=
  fix go (kids : list rose) (depth : nat) (acc : Extent) (st : LayoutState)
      : Extent * LayoutState :=
    match kids with
    | [] => (acc, st)
    | k :: rest =>
        let '(e, st') := rec k (depth + 1) st in
        go rest depth
           {| minX := num_min (minX acc) (minX e);
              maxX := num_max (maxX acc) (maxX e) |} st'
    end.

(** The layout pass run on the unfolded tree instead of the mapping. *)
Fixpoint layoutRose (t : rose) (depth : nat) (st : LayoutState)
    : Extent * LayoutState :=
  match t with
  | Rose i kids =>
      let y := Num (ofNat depth * (nodeHeight + vGap)) in
      match kids with
      | [] =>
          let x := Num (ofNat (leafCounter st) * (nodeWidth + hGap)) in
          ({| minX := x; maxX := x |},
           {| positions := <[ i := {| x := x; y := y |} ]> (positions st);
              leafCounter := leafCounter st + 1 |})
      | _ =>
          let '(e, st') :=
            layoutKids layoutRose kids depth
              {| minX := PosInf; maxX := NegInf |} st in
          let x := num_half (num_add (minX e) (maxX e)) in
          (e, {| positions := <[ i := {| x := x; y := y |} ]> (positions st');
                 leafCounter := leafCounter st' |})
      end
  end.

(** What a correct layout of [t] is: a leaf sits in its slot; above a
    node's subtrees, laid out left to right in consecutive slots, the node
    sits at the midpoint of the least and greatest x of their nodes; the
    y-coordinate is given by the depth. *)
Inductive Placed (pos : gmap string LayoutPosition)
    : rose → nat → nat → Prop :=
| Placed_leaf i d c :
    pos !! i = Some {| x := Num (ofNat c * (nodeWidth + hGap));
                       y := Num (ofNat d * (nodeHeight + vGap)) |} →
    Placed pos (Rose i []) d c
| Placed_inner i kids d c qs lo hi :
    kids ≠ [] →
    PlacedAll pos kids (S d) c →
    XsOf pos (concat (idsOf <$> kids)) qs →
    IsMin lo qs → IsMax hi qs →
    pos !! i = Some {| x := Num ((lo + hi) / 2);
                       y := Num (ofNat d * (nodeHeight + vGap)) |} →
    Placed pos (Rose i kids) d c
with PlacedAll (pos : gmap string LayoutPosition)
    : list rose → nat → nat → Prop :=
| PlacedAll_nil d c : PlacedAll pos [] d c
| PlacedAll_cons k ks d c :
    Placed pos k d c →
    PlacedAll pos ks d (c + length (leavesOf k)) →
    PlacedAll pos (k :: ks) d c.
Scheme Placed_mut := Minimality for Placed Sort Prop
  with PlacedAll_mut := Minimality for PlacedAll Sort Prop.

(** What the pass on [t], started at depth [depth] in state [st], leaves
    behind: [length (leavesOf t)] more slots used, no position outside [t]
    touched, [t] correctly placed, and as extent the least and greatest x
    among the nodes of [t]. *)
Definition LaidOut (t : rose) (depth : nat) (st : LayoutState)
    (e : Extent) (st' : LayoutState) : Prop :=
  leafCounter st' = leafCounter st + length (leavesOf t) ∧
  (∀ k, k ∉ idsOf t → positions st' !! k = positions st !! k) ∧
  Placed (positions st') t depth (leafCounter st) ∧
  ∃ qs lo hi, XsOf (positions st') (idsOf t) qs ∧
              IsMin lo qs ∧ IsMax hi qs ∧
              e = {| minX := Num lo; maxX := Num hi |}.
End LayoutSpec.

(** A root with two leaves, and a mapping that spells it out. *)
Definition fork : rose := Rose "r" [Rose "a" []; Rose "b" []].

Definition forkNodes : gmap string ChatNode :=
  <[ "r" := {| id := "r"; prompt := ""; response := ""; parentId := None;
               childIds := ["a"; "b"]; source := imported |} ]>
  (<[ "a" := {| id := "a"; prompt := ""; response := "";
                parentId := Some "r"; childIds := []; source := generated |} ]>
  (<[ "b" := {| id := "b"; prompt := ""; response := "";
                parentId := Some "r"; childIds := []; source := generated |} ]>
   ∅)).

(** The extent accumulated over subtrees whose nodes have the x-coordinates
    [qs]: the initial pair of infinities when there are none yet, else their
    least and greatest. *)
Definition AccOf (acc : Extent) (qs : list Q) : Prop :=
  (qs = [] ∧ acc = {| minX := PosInf; maxX := NegInf |}) ∨
  (∃ lo hi, acc = {| minX := Num lo; maxX := Num hi |} ∧
            IsMin lo qs ∧ IsMax hi qs).

(** ** Ids the program hands out *)

(** A string without the character ["-"]. *)
Fixpoint noDash (s : string) : bool :=
  match s with
  | EmptyString => true
  | String c s' => negb (Ascii.eqb c "-"%char) && noDash s'
  end.

(** The chain of [len + 1] nodes that starts at index [i], as a tree. *)
Fixpoint chainRose (len i : nat) : rose :=
  match len with
  | 0 => Rose (nodeIdOfIndex i) []
  | S len' => Rose (nodeIdOfIndex i) [chainRose len' (S i)]
  end.

(** ** Further vocabulary: pairing without the skip *)

(** Each Prompt with the message right after it, when that is a Response. *)
Fixpoint promptPairs (messages : list ExportedMessage) : list Pair :=
  match messages with
  | [] => []
  | msg :: rest =>
      (if bool_decide (role msg = "Prompt")
       then [ {| pair_prompt := say msg;
                 pair_response :=
                   if roleIs (head rest) "Response"
                   then default "" (say <$> head rest) else "" |} ]
       else [])
      ++ promptPairs rest
  end.

(** ** Further vocabulary: the chain a walk follows *)

(** [ChainUp nodes current pre]: [pre] lists, last first, the values that
    [current] takes in the loop of [getPathToRoot] until it is falsy. *)
Inductive ChainUp (nodes : gmap string ChatNode)
    : option string → list string → Prop :=
| ChainUp_stop current : truthy current = false → ChainUp nodes current []
| ChainUp_step c pre :
    nonEmpty c = true →
    ChainUp nodes (nodes !! c ≫= parentId) pre →
    ChainUp nodes (Some c) (pre ++ [c]).

(** ** Further vocabulary: states the user interface can reach *)

(** Every node is stored under its own id. *)
Definition KeysMatchIds (nodes : gmap string ChatNode) : Prop :=
  ∀ k n, nodes !! k = Some n → id n = k.

(** [t] with a new leaf [child] appended below the node [parent]. *)
Fixpoint insertChild (parent child : string) (t : rose) : rose :=
  match t with
  | Rose i kids =>
      if bool_decide (i = parent)
      then Rose i (kids ++ [Rose child []])
      else Rose i (insertChild parent child <$> kids)
  end.

(** Every id in a [childIds] list is the key of a node that names the
    holder of the list as its parent. *)
Definition ChildrenPointBack (nodes : gmap string ChatNode) : Prop :=
  ∀ i n c, nodes !! i = Some n → c ∈ childIds n →
    ∃ cn, nodes !! c = Some cn ∧ parentId cn = Some i.

(** No key is the name of a property that every object inherits. *)
Definition OwnNames (nodes : gmap string ChatNode) : Prop :=
  ∀ k n, nodes !! k = Some n → inheritedName k = false.

(** The tree in the store is sound: it satisfies the tree invariant, no key
    is empty or the name of an inherited property, every node is stored
    under its id, children name their parent, and the [childIds] lists
    unfold from the root into a tree that holds every key exactly once. *)
Record SoundTree (t : ConversationTree) : Prop := {
  sound_inv : TreeInvariant (nodes t) (rootId t);
  sound_ids : NonEmptyIds (nodes t);
  sound_own : OwnNames (nodes t);
  sound_keys : KeysMatchIds (nodes t);
  sound_children : ChildrenPointBack (nodes t);
  sound_shape :
    ∃ r, WellFormedFrom (nodes t) (rootId t) r ∧
         ∀ k, k ∈ idsOf r ↔ is_Some (nodes t !! k)
}.

(** The actions as the components dispatch them: an imported tree comes from
    [parseImportedJson]; a node update carries only a prompt or a response
    and names a node of the tree, or at least not an inherited property (the
    ids the program gives out never are one); and a branch creation happens
    at a clock value and random draw whose id is not yet in the tree and is
    not the id branched from. *)
Definition Dispatched (w : World) (state : AppState) (action : Action) : Prop :=
  match action with
  | IMPORT_TREE t => ∃ json, parseImportedJson json = Ok t
  | UPDATE_NODE nodeId patch =>
      textOnly patch ∧
      ∀ t, tree state = Some t →
           is_Some (nodes t !! nodeId) ∨ inheritedName nodeId = false
  | BRANCH_FROM_NODE nodeId =>
      nodeId ≠ newNodeId (dateNow w) (random36 w) ∧
      ∀ t, tree state = Some t →
           nodes t !! newNodeId (dateNow w) (random36 w) = None
  | _ => True
  end.

Inductive Reachable : AppState → Prop :=
| Reachable_init : Reachable initialState
| Reachable_step state w action state' w' :
    Reachable state →
    Dispatched w state action →
    reducer w state action = Ok (Typed state', w') →
    Reachable state'.

(** ** Further vocabulary: what the path view shows *)

(** A rendered message without its rendering fields. *)
Definition toChat (m : PathMessage) : ChatMessage :=
  {| msg_role := pm_role m; content := pm_content m |}.

(** A mapping whose node ["b"] names a parent that does not exist. *)
Definition dangling : gmap string ChatNode :=
  {[ "b" := {| id := "b"; prompt := "q"; response := "";
               parentId := Some "zombie"; childIds := [];
               source := generated |} ]}.

(** The store with the two-node tree, its second node selected. *)
Definition tree2 : ConversationTree :=
  {| metadata := metadata tree0; nodes := twoNodes; rootId := "node-0" |}.

Definition state2 : AppState :=
  {| tree := Some tree2; selectedNodeId := Some "node-1";
     activeView := PathView; settings := defaultSettings |}.

(** The one-node tree after a branch was created from its root at clock
    value 5 and random draw ["ab"], as the store holds it. *)
Definition branchedNodes : gmap string ChatNode :=
  <[ "node-0" := {| id := "node-0"; prompt := "hi"; response := "hello";
                    parentId := None; childIds := ["node-5-ab"];
                    source := imported |} ]>
  (<[ "node-5-ab" := blankNode "node-5-ab" "node-0" ]> ∅).

Definition state1 : AppState :=
  {| tree := Some (withNodes tree0 branchedNodes);
     selectedNodeId := Some "node-5-ab";
     activeView := PathView; settings := defaultSettings |}.

(** The patch [{ prompt: text }]. *)
Definition promptPatch (text : string) : PartialChatNode :=
  {| patch_id := None; patch_prompt := Some text; patch_response := None;
     patch_parentId := None; patch_childIds := None; patch_source := None |}.

(** An export with one prompt and its response. *)
Definition json0 : ExportedJson :=
  {| json_metadata := Some {| raw_title := Some "t"; raw_user := None;
                              raw_dates := None |};
     json_messages := Some [ {| role := "Prompt"; say := "hi" |};
                             {| role := "Response"; say := "hello" |} ] |}.

(** ** Further vocabulary: layouts of arbitrary mappings *)

(** Every position belongs to a key of [nodes], its x is a finite number
    and its y is the row of some depth. *)
Definition FinitePositions (nodes : gmap string ChatNode)
    (nodeHeight vGap : Q) (pos : gmap string LayoutPosition) : Prop :=
  ∀ k p, pos !! k = Some p →
    is_Some (nodes !! k) ∧
    ∃ q d, x p = Num q ∧ y p = Num (ofNat d * (nodeHeight + vGap)).

Definition FiniteExtent (e : Extent) : Prop :=
  ∃ lo hi, e = {| minX := Num lo; maxX := Num hi |}.

(** A root whose only child id names no node. *)
Definition ghostChild : gmap string ChatNode :=
  {[ "r" := {| id := "r"; prompt := "q"; response := ""; parentId := None;
               childIds := ["ghost"]; source := imported |} ]}.

(** The x-coordinate that [pos] gives [k] lies between the slots [c] and
    [c + n - 1] of a layout with column step [nodeWidth + hGap]. *)
Definition InColumns (nodeWidth hGap : Q) (pos : gmap string LayoutPosition)
    (k : string) (c n : nat) : Prop :=
  ∃ q yk, pos !! k = Some {| x := Num q; y := yk |} ∧
    (ofNat c * (nodeWidth + hGap) <= q)%Q ∧
    (q <= ofNat (c + n - 1) * (nodeWidth + hGap))%Q.

(** ** Further vocabulary: an export and the conversation it records *)

(** An export in which every prompt is followed by its response. *)
Definition turns (prs : list (string * string)) : list ExportedMessage :=
  concat ((λ pr, [ {| role := "Prompt"; say := pr.1 |};
                   {| role := "Response"; say := pr.2 |} ]) <$> prs).

(** The same conversation as the chat API takes it. *)
Definition turnsAsChat (prs : list (string * string)) : list ChatMessage :=
  concat ((λ pr, [ {| msg_role := role_user; content := pr.1 |};
                   {| msg_role := role_assistant; content := pr.2 |} ]) <$> prs).

(** The messages one pair of the import contributes to a history. *)
Definition pairExchange (p : Pair) : list ChatMessage :=
  (if nonEmpty (pair_prompt p)
   then [ {| msg_role := role_user; content := pair_prompt p |} ] else []) ++
  (if nonEmpty (pair_response p)
   then [ {| msg_role := role_assistant; content := pair_response p |} ] else []).

(** Two positioned nodes are at least one column step apart. *)
Definition Apart (nodeWidth hGap : Q) (pos : gmap string LayoutPosition)
    (k1 k2 : string) : Prop :=
  ∃ q1 q2 y1 y2,
    pos !! k1 = Some {| x := Num q1; y := y1 |} ∧
    pos !! k2 = Some {| x := Num q2; y := y2 |} ∧
    ((q1 + (nodeWidth + hGap) <= q2)%Q ∨ (q2 + (nodeWidth + hGap) <= q1)%Q).

(* ================================================================== *)
(** * Part III: properties *)
(* ================================================================== *)

(** ** The pairing loop *)

Lemma pairLoop_step messages i pairs :
  pairLoop messages i pairs =
  match messages !! i with
  | None => pairs
  | Some msg =>
      if bool_decide (role msg = "Prompt") then
        let next := messages !! (i + 1) in
        if roleIs next "Response" then
          pairLoop messages (i + 1 + 1)
            (pairs ++ [ {| pair_prompt := say msg;
                           pair_response := default "" (say <$> next) |} ])
        else
          pairLoop messages (i + 1)
            (pairs ++ [ {| pair_prompt := say msg; pair_response := "" |} ])
      else pairLoop messages (i + 1) pairs
  end.
Proof.
  funelim (pairLoop messages i pairs).
  all: clear Heqcall.
  all: repeat match goal with
         | H : sigmaI _ _ _ = _ |- _ => clear H
         | H : ?a = _ |- context [?a] => rewrite H
         end.
  all: done.
Qed.

(** The loop started at index [i] appends to [pairs] the pairs that the
    scan of section 4.1 finds in the messages from [i] on. *)
Lemma pairLoop_drop messages :
  ∀ n i pairs, length messages - i ≤ n →
    pairLoop messages i pairs = pairs ++ pairScan (drop i messages).
Proof.
  induction n as [|n IH]; intros i pairs Hn; rewrite pairLoop_step.
  - rewrite (lookup_ge_None_2 messages i) by lia.
    rewrite drop_ge by lia. by rewrite app_nil_r.
  - destruct (messages !! i) as [msg|] eqn:Hi.
    2: { apply lookup_ge_None_1 in Hi. rewrite drop_ge by lia.
         by rewrite app_nil_r. }
    pose proof (lookup_lt_Some _ _ _ Hi) as Hlt.
    rewrite (drop_S _ _ _ Hi). cbn [pairScan].
    replace (i + 1) with (S i) by lia.
    destruct (bool_decide (role msg = "Prompt")).
    2: { apply IH. lia. }
    destruct (messages !! S i) as [next|] eqn:Hn1; cbn [roleIs].
    + rewrite (drop_S _ _ _ Hn1).
      destruct (bool_decide (role next = "Response")).
      * replace (S i + 1) with (S (S i)) by lia.
        rewrite IH by lia. by rewrite <- app_assoc.
      * rewrite IH by lia. rewrite (drop_S _ _ _ Hn1).
        by rewrite <- app_assoc.
    + rewrite IH by lia. apply lookup_ge_None_1 in Hn1.
      rewrite drop_ge by lia. by rewrite <- app_assoc.
Qed.

Lemma pairLoop_pairScan messages : pairLoop messages 0 [] = pairScan messages.
Proof. by rewrite (pairLoop_drop messages (length messages)) by lia. Qed.

(** C2.  The pairing loop of [parseImportedJson] scans left to right the way
    section 4.1 says: it computes [pairScan]; a Prompt directly followed by a
    Response yields the pair of both and the scan resumes after the
    Response; a Prompt followed by a message that is not a Response (another
    Prompt), or by the end of the sequence, yields a pair with the empty
    response and the scan resumes at the next message; a message that is not
    a Prompt at the scan position (a Response that no Prompt consumed) is
    dropped and yields no pair. *)
Theorem C2_pairing_scan :
  (∀ messages, pairLoop messages 0 [] = pairScan messages) ∧
  (∀ p r rest, role p = "Prompt" → role r = "Response" →
     pairLoop (p :: r :: rest) 0 [] =
     {| pair_prompt := say p; pair_response := say r |}
       :: pairLoop rest 0 []) ∧
  (∀ p q rest, role p = "Prompt" → role q ≠ "Response" →
     pairLoop (p :: q :: rest) 0 [] =
     {| pair_prompt := say p; pair_response := "" |}
       :: pairLoop (q :: rest) 0 []) ∧
  (∀ p, role p = "Prompt" →
     pairLoop [p] 0 [] = [ {| pair_prompt := say p; pair_response := "" |} ]) ∧
  (∀ m rest, role m ≠ "Prompt" →
     pairLoop (m :: rest) 0 [] = pairLoop rest 0 []).
Proof.
  split; [exact pairLoop_pairScan|].
  repeat split; intros; rewrite !pairLoop_pairScan; cbn [pairScan];
    repeat case_bool_decide; done.
Qed.

(** The scan at a concrete transcript: the second Response and the
    Response-less Prompts. *)
Lemma C2_pairing_scan_witness :
  pairLoop [ {| role := "Prompt"; say := "a" |};
             {| role := "Response"; say := "b" |};
             {| role := "Response"; say := "dropped" |};
             {| role := "Prompt"; say := "c" |};
             {| role := "Prompt"; say := "d" |} ] 0 [] =
  [ {| pair_prompt := "a"; pair_response := "b" |};
    {| pair_prompt := "c"; pair_response := "" |};
    {| pair_prompt := "d"; pair_response := "" |} ].
Proof.
  destruct C2_pairing_scan as (Hscan & Hpr & Hpp & Hend & Hdrop).
  rewrite Hpr by done. rewrite Hdrop by done.
  rewrite Hpp by done. rewrite Hend by done. reflexivity.
Defined.

(** ** Node ids *)

Lemma nodeIdOfIndex_inj i j : nodeIdOfIndex i = nodeIdOfIndex j → i = j.
Proof.
  unfold nodeIdOfIndex. intros H. simplify_eq/=. by apply (inj pretty).
Qed.

Lemma nodeIdOfIndex_nonEmpty i : nonEmpty (nodeIdOfIndex i) = true.
Proof. reflexivity. Qed.

Lemma newNodeId_nonEmpty now rnd : nonEmpty (newNodeId now rnd) = true.
Proof. reflexivity. Qed.

(** ** The chain built by the import *)

Lemma ChainInv_init :
  ChainInv [] {| cs_nodes := ∅; cs_prevId := None; cs_rootId := "" |}.
Proof. split; simpl; try done. Qed.

Lemma chainNode_app_old ps p i q :
  S i < length ps → chainNode (ps ++ [p]) i q = chainNode ps i q.
Proof.
  intros Hi. unfold chainNode. rewrite length_app. simpl.
  by rewrite !decide_True by lia.
Qed.

Lemma chainNode_app_last ps p i q :
  S i = length ps →
  chainNode (ps ++ [p]) i q = pushChild (nodeIdOfIndex (S i)) (chainNode ps i q).
Proof.
  intros Hi. unfold chainNode, pushChild. rewrite length_app. simpl.
  rewrite decide_True by lia. by rewrite decide_False by lia.
Qed.

Lemma chainNode_app_new ps p :
  chainNode (ps ++ [p]) (length ps) p =
  {| id := nodeIdOfIndex (length ps); prompt := pair_prompt p;
     response := pair_response p;
     parentId := match length ps with
                 | 0 => None
                 | S j => Some (nodeIdOfIndex j)
                 end;
     childIds := []; source := imported |}.
Proof.
  unfold chainNode. rewrite length_app. simpl. by rewrite decide_False by lia.
Qed.

Lemma chainStep_inv ps st p :
  ChainInv ps st →
  ∃ st', chainStep st p (length ps) = Ok st' ∧ ChainInv (ps ++ [p]) st'.
Proof.
  intros [Hprev Hroot Hlook Hkeys Hsize].
  assert (Hfresh : cs_nodes st !! nodeIdOfIndex (length ps) = None).
  { destruct (cs_nodes st !! nodeIdOfIndex (length ps)) as [n|] eqn:E; [|done].
    apply Hkeys in E as (i & Hi & E). apply nodeIdOfIndex_inj in E. lia. }
  pose proof (chainNode_app_new ps p) as Hnew.
  unfold chainStep. rewrite Hprev.
  destruct (length ps) as [|j] eqn:Hlen.
  - (* first pair: no parent to link *)
    apply length_zero_iff_nil in Hlen as ->. simpl in *.
    eexists. split; [reflexivity|].
    split; simpl; try done.
    + intros [|i] q Hq; simplify_eq/=. rewrite lookup_insert_eq.
      by rewrite Hnew.
    + intros k n Hk. exists 0. split; [lia|].
      destruct (decide (k = nodeIdOfIndex 0)) as [->|Hne]; [done|].
      rewrite lookup_insert_ne in Hk by done.
      apply Hkeys in Hk as (i & Hi & _). lia.
    + by rewrite map_size_insert_None, Hsize.
  - (* later pairs: the previous node gets the new one as its child *)
    assert (Hj : j < length ps) by lia.
    destruct (lookup_lt_is_Some_2 ps j Hj) as [pj Hpj].
    pose proof (Hlook j pj Hpj) as Hlj.
    assert (Hne : nodeIdOfIndex (S j) ≠ nodeIdOfIndex j).
    { intros E. apply nodeIdOfIndex_inj in E. lia. }
    rewrite nodeIdOfIndex_nonEmpty, lookup_insert_ne, Hlj by done.
    eexists. split; [reflexivity|].
    split; simpl.
    + rewrite length_app. simpl. by replace (length ps + 1) with (S (S j)) by lia.
    + rewrite Hroot, length_app. simpl. by rewrite Nat.add_1_r.
    + intros i q Hq.
      destruct (decide (i = j)) as [->|Hij].
      { rewrite lookup_insert_eq. rewrite lookup_app_l in Hq by done.
        rewrite Hpj in Hq. injection Hq as <-.
        rewrite chainNode_app_last by lia. done. }
      rewrite lookup_insert_ne by (intros E; apply nodeIdOfIndex_inj in E; lia).
      destruct (decide (i = S j)) as [->|Hij'].
      { rewrite lookup_insert_eq.
        rewrite <- Hlen, lookup_app_r, Nat.sub_diag in Hq by done.
        simplify_eq/=. by rewrite Hnew. }
      rewrite lookup_insert_ne by (intros E; apply nodeIdOfIndex_inj in E; lia).
      pose proof (lookup_lt_Some _ _ _ Hq) as Hi.
      rewrite length_app in Hi. simpl in Hi.
      rewrite lookup_app_l in Hq by lia.
      rewrite chainNode_app_old by lia. by apply Hlook.
    + intros k n Hk. rewrite length_app. simpl.
      destruct (decide (k = nodeIdOfIndex j)) as [->|Hkj].
      { exists j. split; [lia|done]. }
      rewrite lookup_insert_ne in Hk by done.
      destruct (decide (k = nodeIdOfIndex (S j))) as [->|Hkj'].
      { exists (S j). split; [lia|done]. }
      rewrite lookup_insert_ne in Hk by done.
      apply Hkeys in Hk as (i & Hi & ->). exists i. split; [lia|done].
    + rewrite length_app. simpl.
      rewrite map_size_insert_Some by (rewrite lookup_insert_ne by done; eauto).
      rewrite map_size_insert_None by done. lia.
Qed.

Lemma forEachPair_inv rest :
  ∀ ps st, ChainInv ps st →
    ∃ st', forEachPair rest (length ps) st = Ok st' ∧ ChainInv (ps ++ rest) st'.
Proof.
  induction rest as [|p rest IH]; intros ps st Hinv; simpl.
  - exists st. by rewrite app_nil_r.
  - destruct (chainStep_inv ps st p Hinv) as (st1 & -> & Hinv1). simpl.
    destruct (IH _ _ Hinv1) as (st2 & Hrun & Hinv2).
    rewrite length_app in Hrun. simpl in Hrun.
    exists st2. by rewrite <- app_assoc in Hinv2.
Qed.

(** ** The walk to the root *)

Lemma walkUp_None fuel nodes path : walkUp fuel nodes None path = Some path.
Proof. by destruct fuel. Qed.

Lemma walkUp_Some fuel nodes c path :
  nonEmpty c = true →
  walkUp (S fuel) nodes (Some c) path =
  walkUp fuel nodes (nodes !! c ≫= parentId) (c :: path).
Proof. intros H. simpl. by rewrite H. Qed.

Lemma walkUp_chain ps st :
  ChainInv ps st →
  ∀ i fuel path, i < length ps → i < fuel →
    walkUp fuel (cs_nodes st) (Some (nodeIdOfIndex i)) path =
    Some ((nodeIdOfIndex <$> seq 0 (S i)) ++ path).
Proof.
  intros Hinv. induction i as [|i IH]; intros fuel path Hi Hfuel;
    (destruct fuel as [|fuel]; [lia|]);
    destruct (lookup_lt_is_Some_2 ps _ Hi) as [p Hp];
    rewrite walkUp_Some by apply nodeIdOfIndex_nonEmpty;
    rewrite (chain_lookup _ _ Hinv _ _ Hp).
  - apply walkUp_None.
  - rewrite (seq_S (S i)), fmap_app, <- app_assoc.
    cbn [mbind option_bind parentId chainNode].
    by rewrite IH by lia.
Qed.

(** ** Import *)

Example nodeIdOfIndex_12 : nodeIdOfIndex 12 = "node-12".
Proof. reflexivity. Qed.

(** The import scenarios of section 8. *)
Example import_hi_hello :
  ∃ t, parseImportedJson
         {| json_metadata := Some {| raw_title := None; raw_user := None;
                                     raw_dates := None |};
            json_messages := Some [ {| role := "Prompt"; say := "hi" |};
                                    {| role := "Response"; say := "hello" |} ] |}
       = Ok t ∧
       title (metadata t) = "Imported Conversation" ∧
       rootId t = "node-0" ∧
       nodes t = {[ "node-0" := {| id := "node-0"; prompt := "hi";
                                   response := "hello"; parentId := None;
                                   childIds := []; source := imported |} ]}.
Proof. eexists. by repeat split. Qed.

Example import_prompt_only :
  ∃ t n, parseImportedJson
           {| json_metadata := Some {| raw_title := Some "chat"; raw_user := None;
                                       raw_dates := None |};
              json_messages := Some [ {| role := "Prompt"; say := "hi" |} ] |}
         = Ok t ∧ nodes t !! "node-0" = Some n ∧ response n = "".
Proof. eexists _, _. by repeat split. Qed.

Example import_no_messages :
  parseImportedJson
    {| json_metadata := Some {| raw_title := None; raw_user := None;
                                raw_dates := None |};
       json_messages := Some [] |}
  = Throw (Error "No prompt/response pairs found in the JSON").
Proof. reflexivity. Qed.

Example import_no_metadata :
  parseImportedJson {| json_metadata := None; json_messages := Some [] |}
  = Throw (Error "Invalid ChatGPT Exporter JSON format").
Proof. reflexivity. Qed.

Lemma parseImportedJson_chain json meta messages :
  json_metadata json = Some meta →
  json_messages json = Some messages →
  pairLoop messages 0 [] ≠ [] →
  ∃ t st, parseImportedJson json = Ok t ∧
    nodes t = cs_nodes st ∧ rootId t = cs_rootId st ∧
    ChainInv (pairLoop messages 0 []) st.
Proof.
  intros Hmeta Hmsgs Hne. unfold parseImportedJson. rewrite Hmeta, Hmsgs.
  destruct (pairLoop messages 0 []) as [|p ps] eqn:Hps; [done|].
  destruct (forEachPair_inv (p :: ps) [] _ ChainInv_init) as (st & Hrun & Hinv).
  cbn [length Nat.eqb]. change (length []) with 0 in Hrun. rewrite Hrun.
  eexists _, st. by split.
Qed.

(** C1.  A valid import (metadata present, messages an array) whose messages
    yield [n] pairs, [n] at least 1, returns a tree of exactly [n] nodes; its
    keys are the ids ["node-0"] to ["node-(n-1)"] ([nodeIdOfIndex i] is
    ["node-"] followed by the decimal digits of [i]); the root is node 0 and
    has no parent; node [i]'s parent is node [i-1]; the [childIds] of a node
    that is not the last hold exactly its successor, those of the last are
    empty; and [getPathToRoot] on the last node returns, as soon as it is
    given fuel for [n] iterations, the [n] ids in creation order. *)
Theorem C1_import_linear_chain json meta messages n :
  json_metadata json = Some meta →
  json_messages json = Some messages →
  length (pairLoop messages 0 []) = n →
  0 < n →
  ∃ t, parseImportedJson json = Ok t ∧
    size (nodes t) = n ∧
    (∀ k, is_Some (nodes t !! k) ↔ ∃ i, i < n ∧ k = nodeIdOfIndex i) ∧
    rootId t = nodeIdOfIndex 0 ∧
    (∀ i, i < n →
       ∃ node p, pairLoop messages 0 [] !! i = Some p ∧
         nodes t !! nodeIdOfIndex i = Some node ∧
         id node = nodeIdOfIndex i ∧
         prompt node = pair_prompt p ∧
         response node = pair_response p ∧
         source node = imported ∧
         parentId node = match i with
                         | 0 => None
                         | S j => Some (nodeIdOfIndex j)
                         end ∧
         childIds node = if decide (S i < n) then [nodeIdOfIndex (S i)] else []) ∧
    (∀ fuel, n ≤ fuel →
       getPathToRoot fuel (nodeIdOfIndex (n - 1)) (nodes t) =
       Some (nodeIdOfIndex <$> seq 0 n)).
Proof.
  intros Hmeta Hmsgs Hlen Hn.
  destruct (parseImportedJson_chain json meta messages Hmeta Hmsgs)
    as (t & st & Hparse & Hnodes & Hroot & Hinv).
  { intros E. rewrite E in Hlen. simpl in Hlen. lia. }
  exists t. split; [done|]. rewrite Hnodes, Hroot.
  pose proof (chain_size _ _ Hinv) as Hsize.
  pose proof (chain_root _ _ Hinv) as Hr.
  rewrite Hlen in Hsize, Hr.
  repeat split.
  - done.
  - intros [node Hk]. rewrite <- Hlen. eapply chain_keys; eauto.
  - intros (i & Hi & ->). rewrite <- Hlen in Hi.
    destruct (lookup_lt_is_Some_2 _ _ Hi) as [p Hp].
    rewrite (chain_lookup _ _ Hinv _ _ Hp). eauto.
  - by destruct n; [lia|].
  - intros i Hi. rewrite <- Hlen in Hi.
    destruct (lookup_lt_is_Some_2 _ _ Hi) as [p Hp].
    exists (chainNode (pairLoop messages 0 []) i p), p.
    rewrite (chain_lookup _ _ Hinv _ _ Hp). rewrite <- Hlen. by repeat split.
  - intros fuel Hfuel. unfold getPathToRoot.
    rewrite (walkUp_chain _ _ Hinv) by lia.
    rewrite app_nil_r. by replace (S (n - 1)) with n by lia.
Qed.

(** The two-exchange transcript ["hi"/"hello"], ["more"]: two nodes. *)
Lemma C1_import_linear_chain_witness :
  ∃ t,
    parseImportedJson
      {| json_metadata := Some {| raw_title := Some "t"; raw_user := None;
                                  raw_dates := None |};
         json_messages := Some [ {| role := "Prompt"; say := "hi" |};
                                 {| role := "Response"; say := "hello" |};
                                 {| role := "Prompt"; say := "more" |} ] |}
    = Ok t ∧
    size (nodes t) = 2 ∧
    getPathToRoot 2 "node-1" (nodes t) = Some ["node-0"; "node-1"].
Proof.
  edestruct (C1_import_linear_chain
    {| json_metadata := Some {| raw_title := Some "t"; raw_user := None;
                                raw_dates := None |};
       json_messages := Some [ {| role := "Prompt"; say := "hi" |};
                               {| role := "Response"; say := "hello" |};
                               {| role := "Prompt"; say := "more" |} ] |}
    _ _ 2 eq_refl eq_refl eq_refl) as (t & Hparse & Hsize & _ & _ & _ & Hpath).
  { lia. }
  exists t. split; [exact Hparse|]. split; [exact Hsize|].
  exact (Hpath 2 (le_n 2)).
Defined.

(** ** Termination of the walk *)

Lemma ancestorAt_None nodes k : ancestorAt nodes k None = None.
Proof. by destruct k. Qed.

Lemma ancestorAt_S nodes k current :
  ancestorAt nodes (S k) current =
  ancestorAt nodes k current ≫= (λ c, nodes !! c ≫= parentId).
Proof.
  revert current. induction k as [|k IH]; intros [c|]; try done.
  change (ancestorAt nodes (S (S k)) (Some c))
    with (ancestorAt nodes (S k) (nodes !! c ≫= parentId)).
  by rewrite IH.
Qed.

Lemma walkUp_falsy fuel nodes current path :
  truthy current = false → walkUp fuel nodes current path = Some path.
Proof. intros H. destruct fuel; simpl; by rewrite H. Qed.

Lemma walkUp_truthy fuel nodes current path :
  truthy current = true →
  walkUp fuel nodes current path =
  match fuel, current with
  | S fuel', Some c => walkUp fuel' nodes (nodes !! c ≫= parentId) (c :: path)
  | _, _ => None
  end.
Proof.
  intros H. destruct current as [c|]; [|done]. simpl in H.
  destruct fuel; simpl; by rewrite H.
Qed.

(** The loop exits within [k] iterations when the [k]-th value of [current]
    is falsy. *)
Lemma walkUp_enough nodes k :
  ∀ current path fuel, truthy (ancestorAt nodes k current) = false → k ≤ fuel →
    is_Some (walkUp fuel nodes current path).
Proof.
  induction k as [|k IH]; intros current path fuel Hk Hfuel.
  - rewrite walkUp_falsy by done. eauto.
  - destruct (truthy current) eqn:Ht; [|rewrite walkUp_falsy by done; eauto].
    rewrite walkUp_truthy by done.
    destruct fuel as [|fuel]; [lia|]. destruct current as [c|]; [|done].
    apply IH; [done|lia].
Qed.

Lemma walkUp_returns nodes fuel :
  ∀ current path r, walkUp fuel nodes current path = Some r →
    ∃ k, k ≤ fuel ∧ truthy (ancestorAt nodes k current) = false.
Proof.
  induction fuel as [|fuel IH]; intros current path r Hr;
    (destruct (truthy current) eqn:Ht; [|exists 0; split; [lia|done]]);
    rewrite walkUp_truthy in Hr by done; [done|].
  destruct current as [c|]; [|done].
  apply IH in Hr as (k & Hk & Hf). exists (S k). split; [lia|done].
Qed.

(** More fuel does not change a result. *)
Lemma walkUp_mono nodes fuel :
  ∀ fuel' current path r, walkUp fuel nodes current path = Some r →
    fuel ≤ fuel' → walkUp fuel' nodes current path = Some r.
Proof.
  induction fuel as [|fuel IH]; intros fuel' current path r Hr Hle;
    (destruct (truthy current) eqn:Ht;
      [|by rewrite walkUp_falsy in * by done]);
    rewrite walkUp_truthy in Hr by done; [done|].
  destruct current as [c|]; [|done].
  destruct fuel' as [|fuel']; [lia|].
  rewrite walkUp_truthy by done. apply IH; [done|lia].
Qed.

(** On a cycle of truthy ids every value of [current] is truthy. *)
Lemma selfLoop_ancestorAt k : ancestorAt selfLoop k (Some "a") = Some "a".
Proof. induction k as [|k IH]; [done|]. exact IH. Qed.

Lemma selfLoop_diverges fuel path : walkUp fuel selfLoop (Some "a") path = None.
Proof.
  revert path. induction fuel as [|fuel IH]; intros path; [done|].
  rewrite walkUp_Some by done. exact (IH _).
Qed.

Lemma TreeInvariant_chain_ends nodes root i :
  TreeInvariant nodes root →
  ∃ k, k ≤ size nodes + 1 ∧ truthy (ancestorAt nodes k (Some i)) = false.
Proof.
  intros Hinv. destruct (nodes !! i) as [n|] eqn:Hi.
  - destruct (inv_chain _ _ Hinv i n Hi) as (k & Hk & Hroot).
    destruct (inv_root _ _ Hinv) as (rn & Hrn & Hnone).
    exists (S k). split; [lia|].
    rewrite ancestorAt_S, Hroot. simpl. by rewrite Hrn; simpl; rewrite Hnone.
  - exists 1. split; [lia|]. simpl. by rewrite Hi.
Qed.

(** C7 (as amended).  When the starting id is not a key of the mapping,
    [getPathToRoot] returns, after one iteration, the sequence that holds
    just that id; it returns the empty sequence only for the empty id. *)
Theorem C7_path_of_unknown_id nodes nodeId fuel :
  nodes !! nodeId = None →
  1 ≤ fuel →
  getPathToRoot fuel nodeId nodes =
  Some (if nonEmpty nodeId then [nodeId] else []).
Proof.
  intros Hnone Hfuel. unfold getPathToRoot.
  destruct (nonEmpty nodeId) eqn:Hne.
  - destruct fuel as [|fuel]; [lia|].
    rewrite walkUp_Some by done. rewrite Hnone. apply walkUp_None.
  - by apply walkUp_falsy.
Qed.

Lemma C7_path_of_unknown_id_witness :
  getPathToRoot 1 "ghost" ∅ = Some ["ghost"].
Proof. apply (C7_path_of_unknown_id ∅ "ghost" 1); [reflexivity | lia]. Defined.

(** C7 as stated fails: on the empty mapping the walk from the absent id
    ["ghost"] returns [["ghost"]], and with no amount of fuel the empty
    sequence. *)
Lemma C7_counterexample :
  (∅ : gmap string ChatNode) !! "ghost" = None ∧
  getPathToRoot 1 "ghost" ∅ = Some ["ghost"] ∧
  ¬ ∃ fuel, getPathToRoot fuel "ghost" ∅ = Some [].
Proof.
  split; [done|]. split; [done|].
  intros [[|fuel] H]; [done|].
  unfold getPathToRoot in H. rewrite walkUp_Some in H by done.
  rewrite lookup_empty in H. simpl in H. by rewrite walkUp_None in H.
Qed.

(** C8 (as amended).  [getPathToRoot] returns exactly when the parent chain
    from the starting id comes to an end (a node without parent, an id that
    is not a key, or the empty id), and then any larger fuel gives the same
    path; on a mapping that satisfies the tree invariant it returns within
    node-count plus one iterations.  There is no bound on the walk and no
    CycleDetected failure. *)
Theorem C8_walk_terminates_iff_chain_ends nodes nodeId :
  ((∃ fuel path, getPathToRoot fuel nodeId nodes = Some path) ↔
   (∃ k, truthy (ancestorAt nodes k (Some nodeId)) = false)) ∧
  (∀ fuel fuel' path, getPathToRoot fuel nodeId nodes = Some path →
     fuel ≤ fuel' → getPathToRoot fuel' nodeId nodes = Some path) ∧
  (∀ root, TreeInvariant nodes root →
     is_Some (getPathToRoot (size nodes + 1) nodeId nodes)).
Proof.
  unfold getPathToRoot. repeat split.
  - intros (fuel & path & Hr). apply walkUp_returns in Hr as (k & _ & Hk). eauto.
  - intros (k & Hk).
    destruct (walkUp_enough nodes k (Some nodeId) [] k Hk (le_n _)) as [r Hr].
    eauto.
  - intros fuel fuel' path Hr Hle. by eapply walkUp_mono.
  - intros root Hinv.
    destruct (TreeInvariant_chain_ends nodes root nodeId Hinv) as (k & Hk & Hf).
    by eapply walkUp_enough.
Qed.

(** C8 as stated fails: on the mapping whose node ["a"] is its own parent
    the walk from ["a"] is still running whatever the fuel; it neither
    returns nor fails. *)
Lemma C8_counterexample :
  selfLoop !! "a" ≫= parentId = Some "a" ∧
  ¬ ∃ fuel, is_Some (getPathToRoot fuel "a" selfLoop).
Proof.
  split; [done|]. intros [fuel [r Hr]].
  unfold getPathToRoot in Hr. by rewrite selfLoop_diverges in Hr.
Qed.

(** ** Branch creation *)

Lemma createBranchNode_found now rnd parent nodes p :
  nodes !! parent = Some p →
  parent ≠ newNodeId now rnd →
  createBranchNode now rnd parent nodes =
  Ok (<[ parent := setChildIds (childIds p ++ [newNodeId now rnd]) p ]>
        (<[ newNodeId now rnd := blankNode (newNodeId now rnd) parent ]> nodes),
      newNodeId now rnd).
Proof.
  intros Hp Hne. unfold createBranchNode.
  by rewrite lookup_insert_ne, Hp by done.
Qed.

Lemma createBranchNode_missing now rnd parent nodes :
  nodes !! parent = None →
  parent ≠ newNodeId now rnd →
  createBranchNode now rnd parent nodes =
  Throw (TypeError "Cannot read properties of undefined (reading 'childIds')").
Proof.
  intros Hp Hne. unfold createBranchNode.
  by rewrite lookup_insert_ne, Hp by done.
Qed.


(** ** The tree invariant *)

(** The invariant carries over to a mapping in which the old nodes keep
    their parent and their children (possibly with more), and every new node
    hangs off an old one that lists it. *)
Lemma TreeInvariant_extend nodes nodes' root :
  TreeInvariant nodes root →
  (∀ i n, nodes !! i = Some n →
     ∃ n', nodes' !! i = Some n' ∧ parentId n' = parentId n ∧
           ∀ c, c ∈ childIds n → c ∈ childIds n') →
  (∀ i n', nodes' !! i = Some n' → nodes !! i = None →
     size nodes < size nodes' ∧
     ∃ p pn', parentId n' = Some p ∧ is_Some (nodes !! p) ∧
              nodes' !! p = Some pn' ∧ i ∈ childIds pn') →
  size nodes ≤ size nodes' →
  TreeInvariant nodes' root.
Proof.
  intros [(rn & Hrn & Hrnone) Huniq Hpar Hchain] Hold Hnew Hsize.
  assert (Hanc : ∀ k i, ancestorAt nodes k (Some i) = Some root →
                        ancestorAt nodes' k (Some i) = Some root).
  { induction k as [|k IH]; intros i Hk; [done|]. simpl in *.
    destruct (nodes !! i) as [n|] eqn:Hi;
      [|by rewrite ancestorAt_None in Hk].
    destruct (Hold _ _ Hi) as (n' & -> & Hp' & _). simpl in *. rewrite Hp'.
    destruct (parentId n) as [q|]; [|by rewrite ancestorAt_None in Hk].
    by apply IH. }
  split.
  - destruct (Hold _ _ Hrn) as (rn' & Hrn' & Hp' & _).
    exists rn'. split; [done|congruence].
  - intros i n' Hi Hnone.
    destruct (nodes !! i) as [n|] eqn:Hi0.
    + destruct (Hold _ _ Hi0) as (n2 & Hn2 & Hp2 & _).
      apply (Huniq i n Hi0). congruence.
    + destruct (Hnew _ _ Hi Hi0) as (_ & p & pn' & Hp & _). congruence.
  - intros i n' p Hi Hp.
    destruct (nodes !! i) as [n|] eqn:Hi0.
    + destruct (Hold _ _ Hi0) as (n2 & Hn2 & Hp2 & _).
      assert (parentId n = Some p) as Hpn by congruence.
      destruct (Hpar _ _ _ Hi0 Hpn) as (pn & Hpn0 & Hin).
      destruct (Hold _ _ Hpn0) as (pn' & Hpn' & _ & Hsub).
      exists pn'. split; [done|]. by apply Hsub.
    + destruct (Hnew _ _ Hi Hi0) as (_ & q & pn' & Hq & _ & Hpn' & Hin).
      exists pn'. split; [congruence|done].
  - intros i n' Hi.
    destruct (nodes !! i) as [n|] eqn:Hi0.
    + destruct (Hchain _ _ Hi0) as (k & Hk & Hr).
      exists k. split; [lia|]. by apply Hanc.
    + destruct (Hnew _ _ Hi Hi0) as (Hlt & q & pn' & Hq & [qn Hqn] & _).
      destruct (Hchain _ _ Hqn) as (k & Hk & Hr).
      exists (S k). split; [lia|]. simpl. rewrite Hi. simpl. rewrite Hq.
      by apply Hanc.
Qed.

Lemma ChainInv_node ps st k n :
  ChainInv ps st → cs_nodes st !! k = Some n →
  ∃ i p, ps !! i = Some p ∧ k = nodeIdOfIndex i ∧ n = chainNode ps i p.
Proof.
  intros Hinv Hk. destruct (chain_keys _ _ Hinv _ _ Hk) as (i & Hi & ->).
  destruct (lookup_lt_is_Some_2 ps _ Hi) as [p Hp].
  rewrite (chain_lookup _ _ Hinv _ _ Hp) in Hk. exists i, p. naive_solver.
Qed.

Lemma TreeInvariant_import ps st :
  ps ≠ [] → ChainInv ps st → TreeInvariant (cs_nodes st) (cs_rootId st).
Proof.
  intros Hne Hinv.
  assert (Hlen : 0 < length ps) by (destruct ps; [done|simpl; lia]).
  destruct (lookup_lt_is_Some_2 ps 0 Hlen) as [p0 Hp0].
  assert (cs_rootId st = nodeIdOfIndex 0) as ->.
  { rewrite (chain_root _ _ Hinv). destruct (length ps); [lia|done]. }
  assert (Hanc : ∀ i, i < length ps →
            ancestorAt (cs_nodes st) i (Some (nodeIdOfIndex i))
            = Some (nodeIdOfIndex 0)).
  { induction i as [|i IH]; intros Hi; [done|]. simpl.
    destruct (lookup_lt_is_Some_2 ps _ Hi) as [p Hp].
    rewrite (chain_lookup _ _ Hinv _ _ Hp). simpl. apply IH. lia. }
  split.
  - exists (chainNode ps 0 p0). split; [by apply (chain_lookup _ _ Hinv)|done].
  - intros k n Hk Hnone.
    destruct (ChainInv_node _ _ _ _ Hinv Hk) as (i & p & Hp & -> & ->).
    by destruct i.
  - intros k n q Hk Hq.
    destruct (ChainInv_node _ _ _ _ Hinv Hk) as (i & p & Hp & -> & ->).
    destruct i as [|j]; simplify_eq/=.
    pose proof (lookup_lt_Some _ _ _ Hp) as Hj.
    destruct (lookup_lt_is_Some_2 ps j ltac:(lia)) as [pj Hpj].
    exists (chainNode ps j pj). split; [by apply (chain_lookup _ _ Hinv)|].
    simpl. rewrite decide_True by done. set_solver.
  - intros k n Hk.
    destruct (ChainInv_node _ _ _ _ Hinv Hk) as (i & p & Hp & -> & ->).
    pose proof (lookup_lt_Some _ _ _ Hp) as Hi.
    exists i. rewrite (chain_size _ _ Hinv). split; [lia|by apply Hanc].
Qed.

Lemma TreeInvariant_branch now rnd parent nodes root p :
  TreeInvariant nodes root →
  nodes !! parent = Some p →
  nodes !! newNodeId now rnd = None →
  TreeInvariant
    (<[ parent := setChildIds (childIds p ++ [newNodeId now rnd]) p ]>
       (<[ newNodeId now rnd := blankNode (newNodeId now rnd) parent ]> nodes))
    root.
Proof.
  intros Hinv Hp Hfresh.
  assert (Hne : parent ≠ newNodeId now rnd) by congruence.
  assert (Hsz : size (<[ parent := setChildIds (childIds p ++ [newNodeId now rnd]) p ]>
       (<[ newNodeId now rnd := blankNode (newNodeId now rnd) parent ]> nodes))
       = S (size nodes)).
  { rewrite map_size_insert_Some by (rewrite lookup_insert_ne by done; eauto).
    by rewrite map_size_insert_None. }
  apply (TreeInvariant_extend nodes _ root Hinv).
  - intros i n Hi. destruct (decide (i = parent)) as [->|Hip].
    + rewrite lookup_insert_eq. eexists. split; [done|].
      rewrite Hp in Hi. injection Hi as <-.
      split; [done|]. simpl. set_solver.
    + rewrite lookup_insert_ne by done.
      rewrite lookup_insert_ne by congruence. eauto.
  - intros i n' Hi Hnone. split; [lia|].
    assert (i ≠ parent) by congruence.
    rewrite lookup_insert_ne in Hi by done.
    destruct (decide (i = newNodeId now rnd)) as [->|Hin].
    2: { rewrite lookup_insert_ne in Hi by done. congruence. }
    rewrite lookup_insert_eq in Hi. injection Hi as <-.
    exists parent, (setChildIds (childIds p ++ [newNodeId now rnd]) p).
    rewrite lookup_insert_eq. repeat split; eauto. simpl. set_solver.
  - lia.
Qed.

Lemma TreeInvariant_update nodes root nodeId node patch :
  TreeInvariant nodes root →
  nodes !! nodeId = Some node →
  textOnly patch →
  TreeInvariant (<[ nodeId := mergeNode node patch ]> nodes) root.
Proof.
  intros Hinv Hnode (Hid & Hpar & Hch & Hsrc).
  apply (TreeInvariant_extend nodes _ root Hinv).
  - intros i n Hi. destruct (decide (i = nodeId)) as [->|Hne].
    + rewrite lookup_insert_eq. eexists. split; [done|].
      rewrite Hnode in Hi. injection Hi as <-.
      unfold mergeNode. simpl. by rewrite Hpar, Hch.
    + rewrite lookup_insert_ne by done. eauto.
  - intros i n' Hi Hnone. destruct (decide (i = nodeId)) as [->|Hne].
    + congruence.
    + rewrite lookup_insert_ne in Hi by done. congruence.
  - by rewrite map_size_insert_Some by eauto.
Qed.

Lemma parseImportedJson_Ok json t :
  parseImportedJson json = Ok t →
  ∃ meta messages st,
    json_metadata json = Some meta ∧ json_messages json = Some messages ∧
    pairLoop messages 0 [] ≠ [] ∧
    nodes t = cs_nodes st ∧ rootId t = cs_rootId st ∧
    ChainInv (pairLoop messages 0 []) st.
Proof.
  intros Hparse.
  destruct (json_metadata json) as [meta|] eqn:Hmeta;
    [|by unfold parseImportedJson in Hparse; rewrite Hmeta in Hparse].
  destruct (json_messages json) as [messages|] eqn:Hmsgs;
    [|by unfold parseImportedJson in Hparse; rewrite Hmeta, Hmsgs in Hparse].
  destruct (decide (pairLoop messages 0 [] = [])) as [E|Hne].
  { unfold parseImportedJson in Hparse. by rewrite Hmeta, Hmsgs, E in Hparse. }
  destruct (parseImportedJson_chain json meta messages Hmeta Hmsgs Hne)
    as (t' & st & Hparse' & Hn & Hr & Hinv).
  assert (t' = t) as -> by congruence.
  by exists meta, messages, st.
Qed.

Lemma TreeInvariant_root0 : TreeInvariant root0 "node-0".
Proof.
  unfold root0. split.
  - eexists. split; [apply lookup_singleton_eq|done].
  - intros i n Hi _. by apply lookup_singleton_Some in Hi as [<- _].
  - intros i n p Hi Hp. apply lookup_singleton_Some in Hi as [<- <-]. done.
  - intros i n Hi. apply lookup_singleton_Some in Hi as [<- <-].
    exists 0. split; [lia|done].
Qed.

Lemma TreeInvariant_threeNodes : TreeInvariant threeNodes "node-0".
Proof.
  pose proof (TreeInvariant_branch 5 "ab" "node-0" root0 "node-0" _
                TreeInvariant_root0 eq_refl eq_refl) as H1.
  exact (TreeInvariant_branch 5 "cd" "node-5-ab" _ "node-0" _ H1 eq_refl eq_refl).
Qed.

(** C10 (as amended).  The tree invariant (one parentless node, the root;
    every other node's parent exists and lists it in [childIds]; every parent
    chain reaches the root within node-count steps) holds of every tree
    [parseImportedJson] returns, with the tree's [rootId] as the root; it is
    preserved by [createBranchNode] when the parent exists and the generated
    id is not yet a key of the mapping; and it is preserved by an
    [UPDATE_NODE] transition whose patch has only [prompt] and [response]
    and whose node id is a key of the mapping or at least not the name of a
    property that every object inherits. *)
Theorem C10_tree_invariant :
  (∀ json t, parseImportedJson json = Ok t →
     TreeInvariant (nodes t) (rootId t)) ∧
  (∀ now rnd parent ns root,
     TreeInvariant ns root → is_Some (ns !! parent) →
     ns !! newNodeId now rnd = None →
     ∃ ns', createBranchNode now rnd parent ns = Ok (ns', newNodeId now rnd) ∧
            TreeInvariant ns' root) ∧
  (∀ w state t nodeId patch,
     tree state = Some t → TreeInvariant (nodes t) (rootId t) →
     textOnly patch →
     is_Some (nodes t !! nodeId) ∨ inheritedName nodeId = false →
     ∃ (state' : AppState) t',
       reducer w state (UPDATE_NODE nodeId patch) = Ok (Typed state', w) ∧
       tree state' = Some t' ∧ rootId t' = rootId t ∧
       TreeInvariant (nodes t') (rootId t')).
Proof.
  split; [|split].
  - intros json t Hparse.
    destruct (parseImportedJson_Ok _ _ Hparse)
      as (meta & messages & st & _ & _ & Hne & -> & -> & Hinv).
    by eapply TreeInvariant_import.
  - intros now rnd parent ns root Hinv [p Hp] Hfresh.
    rewrite (createBranchNode_found _ _ _ _ p) by congruence.
    eexists. split; [done|]. by apply TreeInvariant_branch.
  - intros w state t nodeId patch Ht Hinv Hpatch Hid. simpl. rewrite Ht.
    destruct (nodes t !! nodeId) as [node|] eqn:Hnode.
    + eexists _, _. split; [done|]. simpl. split; [done|]. split; [done|].
      by apply TreeInvariant_update.
    + destruct Hid as [[n Hn]|Hinh]; [done|]. rewrite Hinh. by exists state, t.
Qed.

Lemma C10_tree_invariant_witness :
  ∃ ns', createBranchNode 5 "ab" "node-0" root0 = Ok (ns', "node-5-ab") ∧
         TreeInvariant ns' "node-0".
Proof.
  destruct C10_tree_invariant as (_ & Hbranch & _).
  apply (Hbranch 5%N "ab" "node-0" root0 "node-0" TreeInvariant_root0).
  - by eexists.
  - reflexivity.
Defined.

(** C10 as stated fails twice.  For [createBranchNode]: in [threeNodes],
    which satisfies the invariant, branching from the existing node
    ["node-0"] at a clock and random draw that give again the id
    ["node-5-ab"] replaces that node by a blank one, whose [childIds] no
    longer list its child ["node-5-cd"].  For [UPDATE_NODE]: on the one-node
    tree, which satisfies the invariant, the transition for the id
    ["constructor"] with a patch that has only a prompt does not find
    [undefined] under that id but the inherited function, so the guard
    [if (!node) return state] does not fire and the object [{ prompt: "p" }]
    is stored as a second node, without [id], [parentId] and [childIds]:
    the result is no state whose nodes are [ChatNode]s. *)
Lemma C10_counterexample :
  (TreeInvariant threeNodes "node-0" ∧
   is_Some (threeNodes !! "node-0") ∧
   ∃ ns', createBranchNode 5 "ab" "node-0" threeNodes = Ok (ns', "node-5-ab") ∧
          ∀ root, ¬ TreeInvariant ns' root) ∧
  (tree state0 = Some tree0 ∧
   TreeInvariant (nodes tree0) (rootId tree0) ∧
   ∃ patch,
     patch_prompt patch = Some "p" ∧ textOnly patch ∧
     reducer world0 state0 (UPDATE_NODE "constructor" patch)
       = Ok (Untyped state0 "constructor" patch, world0) ∧
     ∀ state' : AppState,
       reducer world0 state0 (UPDATE_NODE "constructor" patch)
         ≠ Ok (Typed state', world0)).
Proof.
  split.
  - split; [exact TreeInvariant_threeNodes|]. split; [by eexists|].
    eexists. split; [reflexivity|].
    intros root Hinv.
    destruct (inv_parent _ _ Hinv "node-5-cd" _ "node-5-ab" eq_refl eq_refl)
      as (pn & Hpn & Hin).
    vm_compute in Hpn. injection Hpn as <-. simpl in Hin. set_solver.
  - split; [done|]. split; [exact TreeInvariant_root0|].
    exists {| patch_id := None; patch_prompt := Some "p";
              patch_response := None; patch_parentId := None;
              patch_childIds := None; patch_source := None |}.
    split; [done|]. split; [done|]. split; [reflexivity|].
    intros state' E. discriminate E.
Qed.

(** ** Branch creation on the heap *)

Lemma alloc_fresh h o l h' : alloc h o = (l, h') → h !! l = None ∧ h' = <[ l := o ]> h.
Proof.
  unfold alloc. intros [= <- <-]. split; [|done].
  apply not_elem_of_dom. apply is_fresh.
Qed.

Lemma preserves_refl h : preserves h h.
Proof. by intros l o. Qed.

Lemma preserves_trans h1 h2 h3 : preserves h1 h2 → preserves h2 h3 → preserves h1 h3.
Proof. intros H12 H23 l o Hl. by apply H23, H12. Qed.

Lemma preserves_alloc h o l h' : alloc h o = (l, h') → preserves h h'.
Proof.
  intros [Hl ->]%alloc_fresh l' o' Hl'.
  rewrite lookup_insert_ne; [done|congruence].
Qed.

Lemma reprNode_preserves h h' l n : preserves h h' → reprNode h l n → reprNode h' l n.
Proof. intros Hp (arr & Hl & Harr). exists arr. split; by apply Hp. Qed.

Lemma reprNodes_preserves h h' l m :
  preserves h h' → reprNodes h l m → reprNodes h' l m.
Proof.
  intros Hp (entries & Hl & Hk). exists entries. split; [by apply Hp|].
  intros k. destruct (Hk k); constructor. by eapply reprNode_preserves.
Qed.

Example heap0_repr : reprNodes heap0 0 root0.
Proof.
  exists {[ "node-0" := 1 ]}. split; [done|]. intros k.
  destruct (decide (k = "node-0")) as [->|Hne].
  - unfold root0. rewrite !lookup_singleton_eq. constructor. by exists 2.
  - unfold root0. rewrite !lookup_singleton_ne by done. constructor.
Qed.

Lemma reprNode_transfer h h' u e l n :
  (∀ l o, l ≠ u → h !! l = Some o → h' !! l = Some o) →
  h !! u = Some (ObjRecord e) →
  reprNode h l n → reprNode h' l n.
Proof.
  intros Hp Hu (arr & Hl & Harr). exists arr.
  split; apply Hp; try done; congruence.
Qed.

(** The heap version computes what [createBranchNode] computes on the
    mapping the [nodes] object holds, into a record object that did not
    exist before, and writes to no object that existed. *)
Lemma createBranchNodeH_refines now rnd parent nodesRef h m :
  reprNodes h nodesRef m →
  ∃ h' r, createBranchNodeH now rnd parent nodesRef h = (h', r) ∧
    preserves h h' ∧
    match createBranchNode now rnd parent m with
    | Ok (m', newId) =>
        ∃ l', r = Ok (l', newId) ∧ h !! l' = None ∧ reprNodes h' l' m'
    | Throw e => r = Throw e
    end.
Proof.
  intros (entries & Hrec & Hk).
  unfold createBranchNodeH, createBranchNode. rewrite Hrec.
  set (newId := newNodeId now rnd).
  destruct (alloc h (ObjRecord entries)) as [updated h1] eqn:A1.
  destruct (alloc h1 (ObjArray [])) as [arr h2] eqn:A2.
  destruct (alloc h2 (ObjNode newId "" "" (Some parent) arr generated))
    as [node h3] eqn:A3.
  apply alloc_fresh in A1 as [Hu ->].
  apply alloc_fresh in A2 as [Harr ->].
  apply alloc_fresh in A3 as [Hnode ->].
  apply lookup_insert_None in Harr as [Harr Hau].
  apply lookup_insert_None in Hnode as [Hnode Hna].
  apply lookup_insert_None in Hnode as [Hnode Hnu].
  set (entries1 := <[ newId := node ]> entries).
  set (m1 := <[ newId := {| id := newId; prompt := ""; response := "";
                            parentId := Some parent; childIds := [];
                            source := generated |} ]> m).
  set (h4 := <[ updated := ObjRecord entries1 ]> _).
  assert (P4 : preserves h h4).
  { intros l o Hl. unfold h4.
    rewrite !lookup_insert_ne by congruence. done. }
  assert (U4 : h4 !! updated = Some (ObjRecord entries1))
    by apply lookup_insert_eq.
  assert (R4 : ∀ k, option_Forall2 (reprNode h4) (entries1 !! k) (m1 !! k)).
  { intros k. unfold entries1, m1.
    destruct (decide (k = newId)) as [->|Hne].
    - rewrite !lookup_insert_eq. constructor. exists arr. unfold h4. simpl.
      rewrite lookup_insert_ne, lookup_insert_eq by done.
      rewrite !lookup_insert_ne, lookup_insert_eq by done. done.
    - rewrite !lookup_insert_ne by done.
      destruct (Hk k); constructor. by eapply reprNode_preserves. }
  clearbody h4 entries1 m1.
  destruct (R4 parent) as [pref p (arr0 & Hpref & Harr0)|]; [|eauto].
  rewrite Hpref, Harr0.
  destruct (alloc h4 (ObjArray (childIds p ++ [newId]))) as [arr2 h5] eqn:A5.
  destruct (alloc h5 (ObjNode (id p) (prompt p) (response p) (parentId p)
                        arr2 (source p))) as [pnode h6] eqn:A6.
  apply alloc_fresh in A5 as [Harr2 ->].
  apply alloc_fresh in A6 as [Hpnode ->].
  apply lookup_insert_None in Hpnode as [Hpnode Hp2].
  assert (arr2 ≠ updated) as H2u by congruence.
  assert (pnode ≠ updated) as Hpu by congruence.
  eexists _, _. split; [done|].
  assert (T : ∀ l o, l ≠ updated → h4 !! l = Some o →
            <[ updated := ObjRecord (<[ parent := pnode ]> entries1) ]>
              (<[ pnode := ObjNode (id p) (prompt p) (response p) (parentId p)
                             arr2 (source p) ]>
                 (<[ arr2 := ObjArray (childIds p ++ [newId]) ]> h4)) !! l
            = Some o).
  { intros l o Hl Ho. rewrite !lookup_insert_ne by congruence. done. }
  split.
  { intros l o Hl. apply T; [congruence|by apply P4]. }
  exists updated. split; [done|]. split; [done|].
  eexists. split; [apply lookup_insert_eq|].
  intros k. destruct (decide (k = parent)) as [->|Hne].
  - rewrite !lookup_insert_eq. constructor. exists arr2. simpl.
    rewrite lookup_insert_ne, lookup_insert_eq by done.
    rewrite !lookup_insert_ne, lookup_insert_eq by done. done.
  - rewrite !lookup_insert_ne by done.
    destruct (R4 k); constructor. by eapply reprNode_transfer.
Qed.

(** C3 (as amended).  When the parent is a key of the mapping and the
    generated id is not yet one, [createBranchNode] returns a mapping with
    one more key, the generated id, bound to a node with empty prompt and
    response, the given parent, source [generated] and no children; the
    parent's entry differs from the old one only in [childIds], which is the
    old sequence with the new id appended; every other entry is as before.
    On the heap the result is a new record object, and every object that
    existed before the call, the input mapping among them, is unchanged.  A
    second call on the same parent whose generated id is again not yet a key
    adds a second, different child, and the parent's [childIds] has grown by
    exactly 2. *)
Theorem C3_branch_adds_one_child now rnd parent ns p h nodesRef :
  ns !! parent = Some p →
  ns !! newNodeId now rnd = None →
  reprNodes h nodesRef ns →
  ∃ ns', createBranchNode now rnd parent ns = Ok (ns', newNodeId now rnd) ∧
    ns' !! newNodeId now rnd = Some (blankNode (newNodeId now rnd) parent) ∧
    ns' !! parent
      = Some (setChildIds (childIds p ++ [newNodeId now rnd]) p) ∧
    (∀ k, k ≠ parent → k ≠ newNodeId now rnd → ns' !! k = ns !! k) ∧
    (∀ k, is_Some (ns' !! k) ↔ k = newNodeId now rnd ∨ is_Some (ns !! k)) ∧
    size ns' = S (size ns) ∧
    (∃ h' l', createBranchNodeH now rnd parent nodesRef h
                = (h', Ok (l', newNodeId now rnd)) ∧
              h !! l' = None ∧ reprNodes h' l' ns' ∧
              preserves h h' ∧ reprNodes h' nodesRef ns) ∧
    (∀ now2 rnd2, ns' !! newNodeId now2 rnd2 = None →
       ∃ ns'' p2,
         createBranchNode now2 rnd2 parent ns' = Ok (ns'', newNodeId now2 rnd2) ∧
         newNodeId now2 rnd2 ≠ newNodeId now rnd ∧
         ns'' !! newNodeId now rnd = Some (blankNode (newNodeId now rnd) parent) ∧
         ns'' !! newNodeId now2 rnd2
           = Some (blankNode (newNodeId now2 rnd2) parent) ∧
         ns'' !! parent = Some p2 ∧
         childIds p2 = childIds p ++ [newNodeId now rnd; newNodeId now2 rnd2] ∧
         length (childIds p2) = length (childIds p) + 2).
Proof.
  intros Hp Hfresh Hrepr.
  assert (Hne : parent ≠ newNodeId now rnd) by congruence.
  pose proof (createBranchNode_found now rnd parent ns p Hp Hne) as Hrun.
  eexists. split; [exact Hrun|].
  split; [by rewrite lookup_insert_ne, lookup_insert_eq|].
  split; [by rewrite lookup_insert_eq|].
  split; [by intros k H1 H2; rewrite !lookup_insert_ne|].
  split.
  { intros k. rewrite !lookup_insert_is_Some. split.
    - intros [->|[_ [->|[_ H]]]]; eauto.
    - intros [->|H].
      + right. split; [done|]. by left.
      + destruct (decide (parent = k)); [by left|]. right. split; [done|].
        destruct (decide (newNodeId now rnd = k)); [by left|by right]. }
  split.
  { rewrite map_size_insert_Some by (rewrite lookup_insert_ne by done; eauto).
    by rewrite map_size_insert_None. }
  split.
  { destruct (createBranchNodeH_refines now rnd parent nodesRef h ns Hrepr)
      as (h' & r & HrunH & Hpres & Href).
    rewrite Hrun in Href. destruct Href as (l' & -> & Hnew & Hrepr').
    exists h', l'. repeat split; try done.
    by eapply reprNodes_preserves. }
  intros now2 rnd2 Hfresh2.
  assert (Hne2 : newNodeId now2 rnd2 ≠ newNodeId now rnd).
  { intros E. rewrite E, lookup_insert_ne, lookup_insert_eq in Hfresh2; done. }
  assert (Hnp2 : parent ≠ newNodeId now2 rnd2).
  { intros E. by rewrite <- E, lookup_insert_eq in Hfresh2. }
  rewrite (createBranchNode_found now2 rnd2 parent _ _ (lookup_insert_eq _ _ _))
    by done.
  eexists _, _. split; [done|]. split; [done|].
  split; [by rewrite !lookup_insert_ne, lookup_insert_eq by done|].
  split; [by rewrite lookup_insert_ne, lookup_insert_eq by done|].
  split; [by rewrite lookup_insert_eq|].
  simpl. rewrite <- app_assoc. split; [done|].
  rewrite !length_app. simpl. lia.
Qed.

Lemma C3_branch_adds_one_child_witness :
  ∃ ns', createBranchNode 5 "ab" "node-0" root0 = Ok (ns', "node-5-ab") ∧
         size ns' = 2.
Proof.
  destruct (C3_branch_adds_one_child 5 "ab" "node-0" root0 _ heap0 0
              eq_refl eq_refl heap0_repr)
    as (ns' & Hrun & _ & _ & _ & _ & Hsize & _).
  exists ns'. split; [exact Hrun | exact Hsize].
Defined.

(** C3 as stated fails: two successive calls on the parent ["node-0"],
    which is a key of both mappings, at the same clock value and the same
    random draw return the same id; the second call adds no node and the
    parent then lists one child twice. *)
Lemma C3_counterexample :
  ∃ ns1 ns2 p2,
    is_Some (root0 !! "node-0") ∧
    createBranchNode 5 "ab" "node-0" root0 = Ok (ns1, "node-5-ab") ∧
    is_Some (ns1 !! "node-0") ∧
    createBranchNode 5 "ab" "node-0" ns1 = Ok (ns2, "node-5-ab") ∧
    size ns2 = size ns1 ∧
    ns2 !! "node-0" = Some p2 ∧
    childIds p2 = ["node-5-ab"; "node-5-ab"].
Proof.
  eexists _, _, _. split; [by eexists|]. split; [reflexivity|].
  split; [by eexists|]. split; [reflexivity|].
  split; [by vm_compute|]. split; [by vm_compute|]. reflexivity.
Qed.




(** ** The store *)

Lemma reducer_branch_unknown w state t nodeId :
  tree state = Some t →
  nodes t !! nodeId = None →
  nodeId ≠ newNodeId (dateNow w) (random36 w) →
  reducer w state (BRANCH_FROM_NODE nodeId) =
  Throw (TypeError "Cannot read properties of undefined (reading 'childIds')").
Proof.
  intros Ht Hnone Hne. simpl. rewrite Ht.
  by rewrite createBranchNode_missing.
Qed.

(** Apart from [BRANCH_FROM_NODE], a transition raises only the exception
    of a failing storage write. *)
Lemma reducer_total_but_branch w state action :
  (∀ nodeId, action ≠ BRANCH_FROM_NODE nodeId) →
  setItemThrows w = None →
  ∃ store w', reducer w state action = Ok (store, w').
Proof.
  intros Hnb Hset.
  destruct action as [t0|sel|view|patch|nodeId|nodeId patch|]; simpl; eauto.
  - rewrite Hset. destruct (hasWindow w); eauto.
  - by destruct (Hnb nodeId).
  - destruct (tree state) as [t|]; [|eauto].
    destruct (nodes t !! nodeId); [eauto|].
    destruct (inheritedName nodeId); [|eauto].
    destruct (completeNode patch); eauto.
Qed.

Lemma reducer_update_unknown w state nodeId patch :
  (∀ t, tree state = Some t → nodes t !! nodeId = None) →
  inheritedName nodeId = false →
  reducer w state (UPDATE_NODE nodeId patch) = Ok (Typed state, w).
Proof.
  intros Hun Hinh. simpl. destruct (tree state) as [t|]; [|done].
  by rewrite (Hun t eq_refl), Hinh.
Qed.

Lemma reducer_no_tree w state nodeId patch :
  tree state = None →
  reducer w state (BRANCH_FROM_NODE nodeId) = Ok (Typed state, w) ∧
  reducer w state (UPDATE_NODE nodeId patch) = Ok (Typed state, w).
Proof. intros Ht. simpl. by rewrite Ht. Qed.

(** C6, at the input where the code departs from it.  With the one-node
    tree in the store, the transition [BRANCH_FROM_NODE] for the id
    ["ghost"], which is not in the tree, does not return the state
    unchanged: the reducer raises the TypeError of [createBranchNode].  The
    sibling transition [UPDATE_NODE] for the same id is the no-op that the
    claim describes. *)
Theorem C6_branch_from_unknown_node_throws :
  nodes tree0 !! "ghost" = None ∧
  reducer world0 state0 (BRANCH_FROM_NODE "ghost") =
    Throw (TypeError "Cannot read properties of undefined (reading 'childIds')") ∧
  ∀ patch, reducer world0 state0 (UPDATE_NODE "ghost" patch)
           = Ok (Typed state0, world0).
Proof.
  split; [reflexivity|]. split; [reflexivity|]. intros patch. reflexivity.
Qed.

(** ** Chat history *)

Lemma historyLoop_present ns path ms :
  Forall2 (λ k m, ns !! k = Some m) path ms →
  ∀ acc, historyLoop ns path acc = Ok (acc ++ concat (exchange <$> ms)).
Proof.
  induction 1 as [|k m path ms Hk _ IH]; intros acc; simpl.
  - by rewrite app_nil_r.
  - rewrite Hk, IH. unfold exchange.
    destruct (nonEmpty (prompt m)), (nonEmpty (response m)); simpl;
      by rewrite <- ?app_assoc.
Qed.

(** In a well-formed mapping the walk from a node whose [k]-th ancestor is
    the root returns the root path, and every id on it is a key. *)
Lemma walkUp_root_path ns root :
  TreeInvariant ns root → NonEmptyIds ns →
  ∀ k i, ancestorAt ns k (Some i) = Some root → is_Some (ns !! i) →
    ∃ path ms, RootPath ns root i path ∧
      Forall2 (λ j m, ns !! j = Some m) path ms ∧
      ∀ fuel acc, k < fuel → walkUp fuel ns (Some i) acc = Some (path ++ acc).
Proof.
  intros Hinv Hids. destruct (inv_root _ _ Hinv) as (rn & Hrn & Hrnone).
  induction k as [|k IH]; intros i Hk [n Hn].
  - simpl in Hk. injection Hk as ->.
    exists [root], [rn]. split; [constructor|]. split; [by repeat constructor|].
    intros fuel acc Hfuel. destruct fuel as [|fuel]; [lia|].
    rewrite walkUp_Some by (by eapply Hids).
    rewrite Hrn. simpl. rewrite Hrnone. apply walkUp_None.
  - simpl in Hk. rewrite Hn in Hk. simpl in Hk.
    destruct (parentId n) as [p|] eqn:Hp; [|by rewrite ancestorAt_None in Hk].
    destruct (inv_parent _ _ Hinv _ _ _ Hn Hp) as (pn & Hpn & _).
    destruct (IH p Hk (ex_intro _ pn Hpn)) as (path & ms & Hpath & Hms & Hwalk).
    exists (path ++ [i]), (ms ++ [n]).
    split; [by econstructor|].
    split; [apply Forall2_app; [done|by repeat constructor]|].
    intros fuel acc Hfuel. destruct fuel as [|fuel]; [lia|].
    rewrite walkUp_Some by (by eapply Hids).
    rewrite Hn. simpl. rewrite Hp. rewrite Hwalk by lia.
    by rewrite <- app_assoc.
Qed.

(** C5.  In a mapping that satisfies the tree invariant and has no empty
    key, for a node id that is a key: [getPathToRoot] returns the root path
    of the node (root first, each id the parent of the next, the node last),
    and [buildChatHistory] returns, for the nodes on that path in this order,
    the non-empty prompt of each tagged [user] directly followed by its
    non-empty response tagged [assistant]; with enough fuel for node-count
    plus one iterations.  In particular, for a node with prompt "a" and
    response "b" whose parent, the root, has prompt "x" and response "y", the
    history is user "x", assistant "y", user "a", assistant "b". *)
Theorem C5_history_along_root_path ns root i n :
  TreeInvariant ns root →
  NonEmptyIds ns →
  ns !! i = Some n →
  (∃ path ms,
     RootPath ns root i path ∧
     Forall2 (λ j m, ns !! j = Some m) path ms ∧
     ∀ fuel, size ns + 1 ≤ fuel →
       getPathToRoot fuel i ns = Some path ∧
       buildChatHistory fuel i ns = Some (Ok (concat (exchange <$> ms)))) ∧
  (∀ p pn, parentId n = Some p → ns !! p = Some pn → parentId pn = None →
     prompt n = "a" → response n = "b" →
     prompt pn = "x" → response pn = "y" →
     ∀ fuel, 2 ≤ fuel →
       buildChatHistory fuel i ns =
       Some (Ok [ {| msg_role := role_user; content := "x" |};
                  {| msg_role := role_assistant; content := "y" |};
                  {| msg_role := role_user; content := "a" |};
                  {| msg_role := role_assistant; content := "b" |} ])).
Proof.
  intros Hinv Hids Hn. split.
  - destruct (inv_chain _ _ Hinv _ _ Hn) as (k & Hk & Hroot).
    destruct (walkUp_root_path ns root Hinv Hids k i Hroot (ex_intro _ n Hn))
      as (path & ms & Hpath & Hms & Hwalk).
    exists path, ms. split; [done|]. split; [done|].
    intros fuel Hfuel.
    assert (getPathToRoot fuel i ns = Some path) as Hget.
    { unfold getPathToRoot. rewrite Hwalk by lia. by rewrite app_nil_r. }
    split; [done|]. unfold buildChatHistory. rewrite Hget. simpl.
    by rewrite (historyLoop_present ns path ms Hms).
  - intros p pn Hp Hpn Hnone Ha Hb Hx Hy fuel Hfuel.
    destruct fuel as [|[|fuel]]; [lia..|].
    unfold buildChatHistory, getPathToRoot.
    rewrite walkUp_Some by (by eapply Hids).
    rewrite Hn. simpl mbind at 2. rewrite Hp.
    rewrite walkUp_Some by (by eapply Hids).
    rewrite Hpn. simpl mbind at 2. rewrite Hnone, walkUp_None.
    simpl. by rewrite Hpn, Hn, Ha, Hb, Hx, Hy.
Qed.

Lemma TreeInvariant_twoNodes : TreeInvariant twoNodes "node-0".
Proof.
  split.
  - by eexists.
  - intros i n Hi Hnone.
    destruct (decide (i = "node-0")) as [->|H0]; [done|].
    unfold twoNodes in Hi. rewrite lookup_insert_ne in Hi by done.
    apply lookup_insert_Some in Hi as [[<- <-]|[_ Hi]]; done.
  - intros i n p Hi Hp. unfold twoNodes in Hi.
    apply lookup_insert_Some in Hi as [[<- <-]|[_ Hi]]; [done|].
    apply lookup_insert_Some in Hi as [[<- <-]|[_ Hi]]; [|done].
    injection Hp as <-. eexists. split; [reflexivity|]. simpl. set_solver.
  - intros i n Hi. unfold twoNodes in Hi.
    apply lookup_insert_Some in Hi as [[<- <-]|[_ Hi]];
      [exists 0; split; [lia|done]|].
    apply lookup_insert_Some in Hi as [[<- <-]|[_ Hi]]; [|done].
    exists 1. split; [vm_compute; lia|done].
Qed.

Lemma NonEmptyIds_twoNodes : NonEmptyIds twoNodes.
Proof.
  intros i n Hi. unfold twoNodes in Hi.
  apply lookup_insert_Some in Hi as [[<- <-]|[_ Hi]]; [done|].
  apply lookup_insert_Some in Hi as [[<- <-]|[_ Hi]]; done.
Qed.

Lemma C5_history_along_root_path_witness :
  buildChatHistory 2 "node-1" twoNodes =
  Some (Ok [ {| msg_role := role_user; content := "x" |};
             {| msg_role := role_assistant; content := "y" |};
             {| msg_role := role_user; content := "a" |};
             {| msg_role := role_assistant; content := "b" |} ]).
Proof.
  destruct (C5_history_along_root_path twoNodes "node-0" "node-1" _
              TreeInvariant_twoNodes NonEmptyIds_twoNodes eq_refl)
    as [_ Hex].
  exact (Hex "node-0" _ eq_refl eq_refl eq_refl eq_refl eq_refl eq_refl eq_refl
             2 (le_n 2)).
Defined.

(** ** Layout: from the mapping to the unfolded tree *)

Lemma rose_ind' (P : rose → Prop) :
  (∀ i kids, Forall P kids → P (Rose i kids)) → ∀ t, P t.
Proof.
  intros Hnode. fix IH 1. intros [i kids]. apply Hnode.
  induction kids as [|k kids IHkids]; constructor; [apply IH | exact IHkids].
Qed.

Lemma Shape_inv ns i kids :
  Shape ns (Rose i kids) →
  ∃ n, ns !! i = Some n ∧ childIds n = rootOf <$> kids ∧ Forall (Shape ns) kids.
Proof. inversion 1; subst. eauto. Qed.

Section LayoutRefinement.
Variable ns : gmap string ChatNode.
Variables nodeWidth nodeHeight hGap vGap : Q.

Local Abbreviation layoutNode' := (layoutNode ns nodeWidth nodeHeight hGap vGap).
Local Abbreviation layoutRose' := (layoutRose nodeWidth nodeHeight hGap vGap).

Lemma layoutChildren_kids fuel kids depth :
  Forall (λ k, ∀ depth st,
            layoutNode' fuel (rootOf k) depth st
            = Some (layoutRose' k depth st)) kids →
  ∀ acc st,
    layoutChildren (layoutNode' fuel) (rootOf <$> kids) depth acc st
    = Some (layoutKids layoutRose' kids depth acc st).
Proof.
  induction 1 as [|k kids Hk _ IH]; intros acc st; simpl; [done|].
  rewrite Hk. simpl. destruct (layoutRose' k (depth + 1) st) as [e st'].
  apply IH.
Qed.

(** With fuel for the height of the tree, [layoutNode] on the mapping does
    what the pass on the unfolded tree does. *)
Lemma layoutNode_rose t :
  Shape ns t →
  ∀ fuel depth st, height t ≤ fuel →
    layoutNode' fuel (rootOf t) depth st = Some (layoutRose' t depth st).
Proof.
  induction t as [i kids IH] using rose_ind'.
  intros (n & Hn & Hkids & Hshape)%Shape_inv fuel depth st Hfuel.
  destruct fuel as [|fuel]; [simpl in Hfuel; lia|].
  cbn [layoutNode rootOf]. rewrite Hn, Hkids, length_fmap.
  destruct kids as [|k kids]; [done|].
  cbn [length Nat.eqb].
  rewrite (layoutChildren_kids fuel (k :: kids) depth).
  - cbn [layoutRose].
    by destruct (layoutKids layoutRose' (k :: kids) depth
                   {| minX := PosInf; maxX := NegInf |} st) as [e st'].
  - apply Forall_forall. intros k' Hk' depth' st'.
    rewrite Forall_forall in IH, Hshape.
    apply IH; [done|by apply Hshape|].
    assert (height k' ≤ max_list (height <$> (k :: kids))).
    { apply max_list_elem_of_le, list_elem_of_fmap. eauto. }
    simpl in Hfuel. simpl in *. lia.
Qed.
End LayoutRefinement.

(** ** Layout: least and greatest of a list of rationals *)

Lemma Qmin_cases (a b : Q) : Qmin a b = a ∨ Qmin a b = b.
Proof.
  unfold Qmin, GenericMinMax.gmin. destruct (a ?= b)%Q; auto.
Qed.

Lemma Qmax_cases (a b : Q) : Qmax a b = a ∨ Qmax a b = b.
Proof.
  unfold Qmax, GenericMinMax.gmax. destruct (a ?= b)%Q; auto.
Qed.

Lemma IsMin_singleton q : IsMin q [q].
Proof.
  split; [by left|]. intros q' ->%list_elem_of_singleton. apply Qle_refl.
Qed.

Lemma IsMax_singleton q : IsMax q [q].
Proof.
  split; [by left|]. intros q' ->%list_elem_of_singleton. apply Qle_refl.
Qed.

Lemma IsMin_app lo1 lo2 qs1 qs2 :
  IsMin lo1 qs1 → IsMin lo2 qs2 → IsMin (Qmin lo1 lo2) (qs1 ++ qs2).
Proof.
  intros [Hin1 Hle1] [Hin2 Hle2]. split.
  - apply elem_of_app. destruct (Qmin_cases lo1 lo2) as [-> | ->]; auto.
  - intros q [Hq|Hq]%elem_of_app.
    + eapply Qle_trans; [apply Q.le_min_l|by apply Hle1].
    + eapply Qle_trans; [apply Q.le_min_r|by apply Hle2].
Qed.

Lemma IsMax_app hi1 hi2 qs1 qs2 :
  IsMax hi1 qs1 → IsMax hi2 qs2 → IsMax (Qmax hi1 hi2) (qs1 ++ qs2).
Proof.
  intros [Hin1 Hle1] [Hin2 Hle2]. split.
  - apply elem_of_app. destruct (Qmax_cases hi1 hi2) as [-> | ->]; auto.
  - intros q [Hq|Hq]%elem_of_app.
    + eapply Qle_trans; [by apply Hle1|apply Q.le_max_l].
    + eapply Qle_trans; [by apply Hle2|apply Q.le_max_r].
Qed.

(** The midpoint of the least and the greatest lies between them. *)
Lemma IsMin_IsMax_midpoint lo hi qs :
  IsMin lo qs → IsMax hi qs →
  IsMin lo (((lo + hi) / 2)%Q :: qs) ∧ IsMax hi (((lo + hi) / 2)%Q :: qs).
Proof.
  intros [Hlo Hmin] [Hhi Hmax].
  assert (lo <= hi)%Q as Hle by (by apply Hmin).
  split; (split; [by right|]).
  - intros q [->|Hq]%elem_of_cons; [|by apply Hmin].
    apply Qle_shift_div_l; [reflexivity|]. lra.
  - intros q [->|Hq]%elem_of_cons; [|by apply Hmax].
    apply Qle_shift_div_r; [reflexivity|]. lra.
Qed.

Lemma AccOf_step acc qs0 lo hi qs :
  AccOf acc qs0 → IsMin lo qs → IsMax hi qs →
  AccOf {| minX := num_min (minX acc) (Num lo);
           maxX := num_max (maxX acc) (Num hi) |} (qs0 ++ qs).
Proof.
  intros [[-> ->]|(lo0 & hi0 & -> & Hmin0 & Hmax0)] Hmin Hmax; right; simpl.
  - by exists lo, hi.
  - exists (Qmin lo0 lo), (Qmax hi0 hi).
    split; [done|]. split; [by apply IsMin_app|by apply IsMax_app].
Qed.

(** ** Layout: positions that other writes leave alone *)

Lemma XsOf_agree pos pos' ids qs :
  (∀ k, k ∈ ids → pos' !! k = pos !! k) →
  XsOf pos ids qs → XsOf pos' ids qs.
Proof.
  intros Hag Hxs. induction Hxs as [|k q ids qs [yk Hk] _ IH]; constructor.
  - exists yk. rewrite Hag; [done|by left].
  - apply IH. intros k' Hk'. apply Hag. by right.
Qed.

Lemma XsOf_nil_inv pos ids : XsOf pos ids [] → ids = [].
Proof. by intros ->%Forall2_nil_inv_r. Qed.

Section LayoutPass.
Variables nodeWidth nodeHeight hGap vGap : Q.

Local Abbreviation layoutRose' := (layoutRose nodeWidth nodeHeight hGap vGap).
Local Abbreviation Placed' := (Placed nodeWidth nodeHeight hGap vGap).
Local Abbreviation PlacedAll' := (PlacedAll nodeWidth nodeHeight hGap vGap).
Local Abbreviation LaidOut' := (LaidOut nodeWidth nodeHeight hGap vGap).

Lemma Placed_agree pos t d c :
  Placed' pos t d c →
  ∀ pos', (∀ k, k ∈ idsOf t → pos' !! k = pos !! k) → Placed' pos' t d c.
Proof.
  revert t d c.
  apply (Placed_mut nodeWidth nodeHeight hGap vGap pos
           (λ t d c, ∀ pos', (∀ k, k ∈ idsOf t → pos' !! k = pos !! k) →
                             Placed' pos' t d c)
           (λ ks d c, ∀ pos', (∀ k, k ∈ concat (idsOf <$> ks) →
                                    pos' !! k = pos !! k) →
                              PlacedAll' pos' ks d c)).
  - intros i d c Hi pos' Hag. constructor. rewrite Hag; [done|by left].
  - intros i kids d c qs lo hi Hne _ IH Hxs Hmin Hmax Hi pos' Hag.
    apply (Placed_inner _ _ _ _ _ _ _ _ _ qs lo hi); try done.
    + apply IH. intros k Hk. apply Hag. by right.
    + eapply XsOf_agree; [|done]. intros k Hk. apply Hag. by right.
    + rewrite Hag; [done|by left].
  - intros d c pos' _. constructor.
  - intros k ks d c _ IHk _ IHks pos' Hag. simpl in Hag. constructor.
    + apply IHk. intros k' Hk'. apply Hag, elem_of_app. by left.
    + apply IHks. intros k' Hk'. apply Hag, elem_of_app. by right.
Qed.

Lemma PlacedAll_agree pos ks d c :
  PlacedAll' pos ks d c →
  ∀ pos', (∀ k, k ∈ concat (idsOf <$> ks) → pos' !! k = pos !! k) →
    PlacedAll' pos' ks d c.
Proof.
  induction 1 as [|k ks d c Hk _ IH]; intros pos' Hag; constructor.
  - eapply Placed_agree; [done|].
    intros k' Hk'. apply Hag. simpl. apply elem_of_app. by left.
  - apply IH. intros k' Hk'. apply Hag. simpl. apply elem_of_app. by right.
Qed.

Lemma layoutKids_laid_out ks :
  Forall (λ k, NoDup (idsOf k) → ∀ depth st,
            ∃ e st', layoutRose' k depth st = (e, st') ∧
                     LaidOut' k depth st e st') ks →
  NoDup (concat (idsOf <$> ks)) →
  ∀ depth acc st qs0, AccOf acc qs0 →
    ∃ e st' qs,
      layoutKids layoutRose' ks depth acc st = (e, st') ∧
      leafCounter st' = leafCounter st + length (concat (leavesOf <$> ks)) ∧
      (∀ k, k ∉ concat (idsOf <$> ks) →
            positions st' !! k = positions st !! k) ∧
      PlacedAll' (positions st') ks (S depth) (leafCounter st) ∧
      XsOf (positions st') (concat (idsOf <$> ks)) qs ∧
      AccOf e (qs0 ++ qs).
Proof.
  induction 1 as [|k ks Hk _ IH]; intros Hnd depth acc st qs0 Hacc.
  - exists acc, st, []. simpl. rewrite app_nil_r, Nat.add_0_r.
    repeat split; try done; constructor.
  - simpl in Hnd. apply NoDup_app in Hnd as (Hndk & Hdisj & Hndks).
    destruct (Hk Hndk (depth + 1) st)
      as (ek & st1 & Hrun & Hlc & Hframe & Hplaced & qsk & lo & hi
          & Hxs & Hmin & Hmax & ->).
    cbn [layoutKids]. rewrite Hrun. cbn [minX maxX].
    destruct (IH Hndks depth _ st1 (qs0 ++ qsk)
                (AccOf_step _ _ _ _ _ Hacc Hmin Hmax))
      as (e & st' & qs & Hrun' & Hlc' & Hframe' & Hall & Hxs' & Hacc').
    exists e, st', (qsk ++ qs).
    assert (Hkeep : ∀ k', k' ∈ idsOf k →
              positions st' !! k' = positions st1 !! k').
    { intros k' Hk'. apply Hframe'. intros Hin. by eapply Hdisj. }
    split; [exact Hrun'|].
    split; [rewrite fmap_cons; cbn [concat]; rewrite length_app; lia|].
    split.
    { intros k' Hk'. rewrite fmap_cons in Hk'. cbn [concat] in Hk'.
      rewrite elem_of_app in Hk'.
      rewrite Hframe' by tauto. apply Hframe. tauto. }
    split.
    { constructor.
      - rewrite Nat.add_1_r in Hplaced. by eapply Placed_agree.
      - by rewrite <- Hlc. }
    split.
    { rewrite fmap_cons. cbn [concat].
      apply Forall2_app; [|done]. by eapply XsOf_agree. }
    by rewrite app_assoc.
Qed.

Lemma layoutRose_laid_out t :
  NoDup (idsOf t) → ∀ depth st,
    ∃ e st', layoutRose' t depth st = (e, st') ∧ LaidOut' t depth st e st'.
Proof.
  induction t as [i kids IH] using rose_ind'. intros Hnd depth st.
  simpl in Hnd. apply NoDup_cons in Hnd as [Hi Hnd].
  destruct kids as [|k0 kids0] eqn:Ekids.
  - (* a leaf *)
    eexists _, _. split; [reflexivity|]. unfold LaidOut. simpl.
    split; [done|].
    split; [intros k Hk; rewrite lookup_insert_ne; [done|set_solver]|].
    split; [constructor; apply lookup_insert_eq|].
    eexists [_], _, _. split.
    { constructor; [|constructor]. eexists. apply lookup_insert_eq. }
    split; [apply IsMin_singleton|]. split; [apply IsMax_singleton|done].
  - (* a node with children *)
    rewrite <- Ekids in *.
    assert (Hne : kids ≠ []) by (by rewrite Ekids).
    destruct (layoutKids_laid_out kids IH Hnd depth
                {| minX := PosInf; maxX := NegInf |} st []
                (or_introl (conj eq_refl eq_refl)))
      as (e & st1 & qs & Hrun & Hlc & Hframe & Hall & Hxs & Hacc).
    simpl in Hacc.
    destruct Hacc as [[-> _]|(lo & hi & -> & Hmin & Hmax)].
    { apply XsOf_nil_inv in Hxs. rewrite Ekids in Hxs. by destruct k0. }
    destruct (IsMin_IsMax_midpoint lo hi qs Hmin Hmax) as [Hmin' Hmax'].
    assert (Hrun' : layoutRose' (Rose i kids) depth st =
              ({| minX := Num lo; maxX := Num hi |},
               {| positions :=
                    <[ i := {| x := Num ((lo + hi) / 2);
                               y := Num (ofNat depth * (nodeHeight + vGap)) |} ]>
                      (positions st1);
                  leafCounter := leafCounter st1 |})).
    { cbn [layoutRose]. rewrite Hrun. by rewrite Ekids. }
    eexists _, _. split; [exact Hrun'|]. unfold LaidOut. cbn [positions leafCounter].
    assert (Hkeep : ∀ k, k ∈ concat (idsOf <$> kids) →
              <[ i := {| x := Num ((lo + hi) / 2);
                         y := Num (ofNat depth * (nodeHeight + vGap)) |} ]>
                (positions st1) !! k = positions st1 !! k).
    { intros k Hk. rewrite lookup_insert_ne; [done|]. by intros ->. }
    split; [by rewrite Hlc, Ekids|].
    split.
    { intros k Hk. simpl in Hk. rewrite not_elem_of_cons in Hk.
      rewrite lookup_insert_ne by (by intros E; destruct Hk).
      apply Hframe. tauto. }
    split.
    { apply (Placed_inner _ _ _ _ _ _ _ _ _ qs lo hi); try done.
      - by eapply PlacedAll_agree.
      - by eapply XsOf_agree.
      - apply lookup_insert_eq. }
    exists (((lo + hi) / 2)%Q :: qs), lo, hi.
    split; [|done]. simpl. constructor.
    + eexists. apply lookup_insert_eq.
    + by eapply XsOf_agree.
Qed.
End LayoutPass.

(** ** Layout: what a correct placement says about single nodes *)

Section PlacedFacts.
Variables nodeWidth nodeHeight hGap vGap : Q.
Variable pos : gmap string LayoutPosition.

Local Abbreviation Placed' := (Placed nodeWidth nodeHeight hGap vGap pos).
Local Abbreviation PlacedAll' := (PlacedAll nodeWidth nodeHeight hGap vGap pos).

(** The [j]-th leaf of a tree placed from slot [c] sits in slot [c + j]. *)
Lemma Placed_leaf_slot t d c :
  Placed' t d c →
  ∀ j leaf, leavesOf t !! j = Some leaf →
    ∃ p, pos !! leaf = Some p ∧
         x p = Num (ofNat (c + j) * (nodeWidth + hGap)).
Proof.
  revert t d c.
  apply (Placed_mut nodeWidth nodeHeight hGap vGap pos
           (λ t d c, ∀ j leaf, leavesOf t !! j = Some leaf →
              ∃ p, pos !! leaf = Some p ∧
                   x p = Num (ofNat (c + j) * (nodeWidth + hGap)))
           (λ ks d c, ∀ j leaf, concat (leavesOf <$> ks) !! j = Some leaf →
              ∃ p, pos !! leaf = Some p ∧
                   x p = Num (ofNat (c + j) * (nodeWidth + hGap)))).
  - intros i d c Hi [|j] leaf Hj; [|done]. injection Hj as <-.
    rewrite Nat.add_0_r. eauto.
  - intros i kids d c qs lo hi Hne _ IH _ _ _ _ j leaf Hj.
    destruct kids; [done|]. by apply IH.
  - intros d c j leaf Hj. done.
  - intros k ks d c _ IHk _ IHks j leaf Hj.
    rewrite fmap_cons in Hj. cbn [concat] in Hj.
    destruct (decide (j < length (leavesOf k))) as [Hlt|Hge].
    + rewrite lookup_app_l in Hj by done. by apply IHk.
    + rewrite lookup_app_r in Hj by lia.
      destruct (IHks _ _ Hj) as (p & Hp & Hx). exists p. split; [done|].
      rewrite Hx. do 3 f_equal. lia.
Qed.

(** A node at depth [dk] has the y-coordinate of that depth. *)
Lemma Placed_depth t d c :
  Placed' t d c →
  ∀ k dk, (k, dk) ∈ depthsOf t d →
    ∃ p, pos !! k = Some p ∧ y p = Num (ofNat dk * (nodeHeight + vGap)).
Proof.
  revert t d c.
  apply (Placed_mut nodeWidth nodeHeight hGap vGap pos
           (λ t d c, ∀ k dk, (k, dk) ∈ depthsOf t d →
              ∃ p, pos !! k = Some p ∧
                   y p = Num (ofNat dk * (nodeHeight + vGap)))
           (λ ks d c, ∀ k dk,
              (k, dk) ∈ concat ((λ t, depthsOf t d) <$> ks) →
              ∃ p, pos !! k = Some p ∧
                   y p = Num (ofNat dk * (nodeHeight + vGap)))).
  - intros i d c Hi k dk Hk. cbn in Hk.
    apply list_elem_of_singleton in Hk as [= -> ->]. eauto.
  - intros i kids d c qs lo hi Hne _ IH _ _ _ Hi k dk Hk.
    cbn [depthsOf] in Hk. apply elem_of_cons in Hk as [[= -> ->]|Hk]; eauto.
  - intros d c k dk Hk. cbn in Hk. by apply elem_of_nil in Hk.
  - intros t ks d c _ IHt _ IHks k dk Hk.
    rewrite fmap_cons in Hk. cbn [concat] in Hk.
    apply elem_of_app in Hk as [Hk|Hk]; eauto.
Qed.

Lemma PlacedAll_elem ks d c k :
  PlacedAll' ks d c → k ∈ ks → ∃ c', Placed' k d c'.
Proof.
  induction 1 as [|k0 ks d c Hk0 _ IH]; intros Hk.
  - by apply elem_of_nil in Hk.
  - apply elem_of_cons in Hk as [->|Hk]; eauto.
Qed.

Lemma Placed_subtree s t :
  Subtree s t → ∀ d c, Placed' t d c → ∃ d' c', Placed' s d' c'.
Proof.
  induction 1 as [|i kids k Hk _ IH]; intros d c Hp; [eauto|].
  inversion Hp as [|? ? ? ? qs lo hi Hne Hall]; subst.
  - by apply elem_of_nil in Hk.
  - destruct (PlacedAll_elem _ _ _ _ Hall Hk) as [c' Hk']. eauto.
Qed.

(** A node with children sits at the midpoint of the least and the
    greatest x-coordinate among the nodes of its children's subtrees. *)
Lemma Placed_midpoint t d c i kids :
  Placed' t d c → Subtree (Rose i kids) t → kids ≠ [] →
  ∃ qs lo hi p,
    XsOf pos (concat (idsOf <$> kids)) qs ∧ IsMin lo qs ∧ IsMax hi qs ∧
    pos !! i = Some p ∧ x p = Num ((lo + hi) / 2).
Proof.
  intros Hp Hsub Hne.
  destruct (Placed_subtree _ _ Hsub _ _ Hp) as (d' & c' & Hp').
  inversion Hp' as [|? ? ? ? qs lo hi _ _ Hxs Hmin Hmax Hi]; subst; [done|].
  exists qs, lo, hi. eauto 10.
Qed.
End PlacedFacts.

Lemma XsOf_is_Some pos ids qs k :
  XsOf pos ids qs → k ∈ ids → is_Some (pos !! k).
Proof.
  induction 1 as [|k0 q ids qs [yk Hk0] _ IH]; intros Hk.
  - by apply elem_of_nil in Hk.
  - apply elem_of_cons in Hk as [->|Hk]; eauto.
Qed.

(** C4.  On a well-formed tree (the [childIds] lists unfold from the root
    into a finite tree [t] whose ids are all keys and all different),
    [computeTreeLayout] returns one and the same position mapping for every
    fuel that covers the height of the tree; the ids it positions are exactly
    the ids of the tree, one position each; a node at depth [dk], the root
    being at depth 0, has y = dk * (nodeHeight + vGap); the [j]-th leaf in
    depth-first [childIds] order, counted from 0, has
    x = j * (nodeWidth + hGap); and a node with children has as x the
    midpoint of the least and the greatest x among the nodes of its
    children's subtrees. *)
Theorem C4_layout_positions ns rootId t nodeWidth nodeHeight hGap vGap :
  WellFormedFrom ns rootId t →
  ∃ pos,
    (∀ fuel, height t ≤ fuel →
       computeTreeLayout ns nodeWidth nodeHeight hGap vGap fuel rootId
       = Some pos) ∧
    (∀ k, is_Some (pos !! k) ↔ k ∈ idsOf t) ∧
    (∀ k dk, (k, dk) ∈ depthsOf t 0 →
       ∃ p, pos !! k = Some p ∧ y p = Num (ofNat dk * (nodeHeight + vGap))) ∧
    (∀ j leaf, leavesOf t !! j = Some leaf →
       ∃ p, pos !! leaf = Some p ∧ x p = Num (ofNat j * (nodeWidth + hGap))) ∧
    (∀ i kids, Subtree (Rose i kids) t → kids ≠ [] →
       ∃ qs lo hi p,
         XsOf pos (concat (idsOf <$> kids)) qs ∧ IsMin lo qs ∧ IsMax hi qs ∧
         pos !! i = Some p ∧ x p = Num ((lo + hi) / 2)).
Proof.
  intros (Hshape & <- & Hnd).
  destruct (layoutRose_laid_out nodeWidth nodeHeight hGap vGap t Hnd 0
              {| positions := ∅; leafCounter := 0 |})
    as (e & st' & Hrun & Hlc & Hframe & Hplaced & qs & lo & hi & Hxs & _).
  cbn [positions leafCounter] in *.
  exists (positions st'). split; [|split; [|split; [|split]]].
  - intros fuel Hfuel. unfold computeTreeLayout.
    rewrite (layoutNode_rose ns _ _ _ _ t Hshape) by done.
    by rewrite Hrun.
  - intros k. split.
    + intros Hk. destruct (decide (k ∈ idsOf t)) as [|Hnot]; [done|].
      rewrite (Hframe k Hnot), lookup_empty in Hk. by destruct Hk.
    + by eapply XsOf_is_Some.
  - by eapply Placed_depth.
  - intros j leaf Hj. by eapply (Placed_leaf_slot _ _ _ _ _ _ _ 0).
  - intros i kids Hsub Hne. by eapply Placed_midpoint.
Qed.

Lemma WellFormedFrom_fork : WellFormedFrom forkNodes "r" fork.
Proof.
  split; [|split; [done|]].
  - eapply Shape_node; [reflexivity|reflexivity|].
    repeat constructor;
      (eapply Shape_node; [reflexivity|reflexivity|constructor]).
  - apply (bool_decide_unpack _). by vm_compute.
Qed.

Lemma C4_layout_positions_witness :
  ∃ pos p,
    computeTreeLayout forkNodes 240 120 40 60 2 "r" = Some pos ∧
    pos !! "b" = Some p ∧
    x p = Num (ofNat 1 * (240 + 40)) ∧ y p = Num (ofNat 1 * (120 + 60)).
Proof.
  destruct (C4_layout_positions forkNodes "r" fork 240 120 40 60
              WellFormedFrom_fork)
    as (pos & Hrun & _ & Hy & Hx & _).
  destruct (Hx 1 "b" eq_refl) as (p & Hp & Hxp).
  destruct (Hy "b" 1) as (p' & Hp' & Hyp').
  { simpl. set_solver. }
  exists pos, p. split; [apply Hrun; simpl; lia|].
  split; [done|]. split; [done|]. congruence.
Defined.

Example layout_fork :
  computeTreeLayout_default 2 "r" forkNodes =
  Some (<[ "r" := {| x := Num (280 # 2); y := Num 0 |} ]>
        (<[ "a" := {| x := Num 0; y := Num 180 |} ]>
        (<[ "b" := {| x := Num 280; y := Num 180 |} ]> ∅))).
Proof. by vm_compute. Qed.

(** ** The ids of imported and of generated nodes *)

Lemma noDash_app a b : noDash (a +:+ b) = noDash a && noDash b.
Proof.
  induction a as [|c a IH]; [done|]. simpl. rewrite IH. by rewrite andb_assoc.
Qed.

Lemma noDash_pretty_N_char x : Ascii.eqb (pretty_N_char x) "-"%char = false.
Proof. unfold pretty_N_char. by repeat case_match. Qed.

Lemma noDash_pretty_N_go x :
  ∀ s, noDash s = true → noDash (pretty_N_go x s) = true.
Proof.
  induction (N.lt_wf_0 x) as [x _ IH]. intros s Hs.
  destruct (decide (x = 0)%N) as [->|Hx]; [by rewrite pretty_N_go_0|].
  rewrite pretty_N_go_step by lia. apply IH.
  - apply N.div_lt; lia.
  - simpl. by rewrite noDash_pretty_N_char.
Qed.

Lemma noDash_pretty_nat (n : nat) : noDash (pretty n) = true.
Proof.
  unfold pretty, pretty_nat, pretty, pretty_N. case_decide; [done|].
  by apply noDash_pretty_N_go.
Qed.

(** A generated id has a second ["-"]; an imported id has none after
    ["node-"]. *)
Lemma newNodeId_not_imported now rnd i : newNodeId now rnd ≠ nodeIdOfIndex i.
Proof.
  unfold newNodeId, nodeIdOfIndex. intros E. simplify_eq/=.
  pose proof (noDash_pretty_nat i) as Hi. rewrite <- E in Hi.
  rewrite noDash_app in Hi. apply andb_true_iff in Hi as [_ Hi]. done.
Qed.

(** On a freshly imported tree every generated id is new, whatever the
    clock and the random draw. *)
Lemma import_then_branch_fresh json t now rnd :
  parseImportedJson json = Ok t → nodes t !! newNodeId now rnd = None.
Proof.
  intros (meta & messages & st & _ & _ & _ & -> & _ & Hinv)%parseImportedJson_Ok.
  destruct (cs_nodes st !! newNodeId now rnd) as [n|] eqn:E; [|done].
  apply (chain_keys _ _ Hinv) in E as (i & _ & E).
  by apply newNodeId_not_imported in E.
Qed.

(** The mappings the program builds have no empty key. *)
Lemma NonEmptyIds_import json t :
  parseImportedJson json = Ok t → NonEmptyIds (nodes t).
Proof.
  intros (meta & messages & st & _ & _ & _ & -> & _ & Hinv)%parseImportedJson_Ok.
  intros k n Hk. by apply (chain_keys _ _ Hinv) in Hk as (i & _ & ->).
Qed.

Lemma NonEmptyIds_branch now rnd parent ns ns' newId :
  NonEmptyIds ns →
  createBranchNode now rnd parent ns = Ok (ns', newId) →
  NonEmptyIds ns'.
Proof.
  intros Hids Hrun k n Hk. unfold createBranchNode in Hrun.
  destruct (<[ _ := _ ]> ns !! parent) as [p|] eqn:Hp; [|done].
  injection Hrun as <- <-.
  apply lookup_insert_Some in Hk as [[<- _]|[_ Hk]].
  - apply lookup_insert_Some in Hp as [[<- _]|[_ Hp]]; [done|by eapply Hids].
  - apply lookup_insert_Some in Hk as [[<- _]|[_ Hk]]; [done|by eapply Hids].
Qed.

(** ** An imported conversation is a well-formed tree for the layout *)

Lemma chainRose_root len i : rootOf (chainRose len i) = nodeIdOfIndex i.
Proof. by destruct len. Qed.

Lemma chainRose_ids len i :
  idsOf (chainRose len i) = nodeIdOfIndex <$> seq i (S len).
Proof.
  revert i. induction len as [|len IH]; intros i; [done|].
  cbn [chainRose idsOf fmap list_fmap concat]. rewrite app_nil_r.
  by rewrite IH.
Qed.

Lemma chainRose_shape ps st :
  ChainInv ps st →
  ∀ len i, i + S len = length ps → Shape (cs_nodes st) (chainRose len i).
Proof.
  intros Hinv. induction len as [|len IH]; intros i Hlen.
  - destruct (lookup_lt_is_Some_2 ps i ltac:(lia)) as [p Hp].
    eapply Shape_node; [by apply (chain_lookup _ _ Hinv)| |constructor].
    simpl. by rewrite decide_False by lia.
  - destruct (lookup_lt_is_Some_2 ps i ltac:(lia)) as [p Hp].
    eapply Shape_node; [by apply (chain_lookup _ _ Hinv)| |].
    + simpl. rewrite decide_True by lia. by rewrite chainRose_root.
    + repeat constructor. apply IH. lia.
Qed.

Lemma import_well_formed json t :
  parseImportedJson json = Ok t →
  WellFormedFrom (nodes t) (rootId t) (chainRose (size (nodes t) - 1) 0).
Proof.
  intros (meta & messages & st & _ & _ & Hne & -> & -> & Hinv)%parseImportedJson_Ok.
  rewrite (chain_size _ _ Hinv), (chain_root _ _ Hinv).
  destruct (pairLoop messages 0 []) as [|p ps] eqn:E; [done|]. rewrite <- E in *.
  assert (length (pairLoop messages 0 []) = S (length ps)) as Hlen
    by (by rewrite E).
  rewrite Hlen. split; [|split].
  - apply (chainRose_shape _ _ Hinv). lia.
  - apply chainRose_root.
  - rewrite chainRose_ids. apply NoDup_fmap_2; [|apply NoDup_seq].
    intros a b. apply nodeIdOfIndex_inj.
Qed.

(* ================================================================== *)
(** * Part IV: further properties of the code *)
(* ================================================================== *)

(** ** Import: what the pairing keeps *)

Lemma promptPairs_cons msg rest :
  promptPairs (msg :: rest) =
  (if bool_decide (role msg = "Prompt")
   then [ {| pair_prompt := say msg;
             pair_response :=
               if roleIs (head rest) "Response"
               then default "" (say <$> head rest) else "" |} ]
   else [])
  ++ promptPairs rest.
Proof. reflexivity. Qed.

Lemma pairScan_cons2 msg next rest :
  pairScan (msg :: next :: rest) =
  if bool_decide (role msg = "Prompt") then
    if bool_decide (role next = "Response")
    then {| pair_prompt := say msg; pair_response := say next |}
           :: pairScan rest
    else {| pair_prompt := say msg; pair_response := "" |}
           :: pairScan (next :: rest)
  else pairScan (next :: rest).
Proof. reflexivity. Qed.

Lemma pairScan_promptPairs messages : pairScan messages = promptPairs messages.
Proof.
  assert (H : ∀ n msgs, length msgs ≤ n → pairScan msgs = promptPairs msgs).
  { induction n as [|n IH]; intros [|msg rest] Hn; try done;
      [simpl in Hn; lia|].
    rewrite promptPairs_cons.
    destruct rest as [|next rest'].
    - cbn. by case_bool_decide.
    - rewrite pairScan_cons2.
      cbn [head roleIs fmap option_fmap option_map default].
      rewrite (IH rest') by (simpl in Hn; lia).
      rewrite (IH (next :: rest')) by (simpl in *; lia).
      destruct (bool_decide (role msg = "Prompt")); [|done].
      destruct (decide (role next = "Response")) as [Hr|Hr].
      + rewrite !bool_decide_eq_true_2 by done.
        rewrite promptPairs_cons.
        rewrite (bool_decide_eq_false_2 (role next = "Prompt")); [done|].
        by rewrite Hr.
      + by rewrite !bool_decide_eq_false_2 by done. }
  by apply (H (length messages)).
Qed.

Lemma promptPairs_prompts messages :
  pair_prompt <$> promptPairs messages
  = say <$> filter (λ m, role m = "Prompt") messages.
Proof.
  induction messages as [|msg rest IH]; [done|].
  cbn [promptPairs]. rewrite fmap_app, IH, filter_cons.
  case_bool_decide; by rewrite ?decide_True, ?decide_False by done.
Qed.

Lemma promptPairs_response messages p :
  p ∈ promptPairs messages →
  pair_response p = "" ∨
  ∃ r, r ∈ messages ∧ role r = "Response" ∧ pair_response p = say r.
Proof.
  induction messages as [|msg rest IH]; intros Hp.
  - by apply elem_of_nil in Hp.
  - cbn [promptPairs] in Hp. apply elem_of_app in Hp as [Hp|Hp].
    + case_bool_decide; [|by apply elem_of_nil in Hp].
      apply list_elem_of_singleton in Hp as ->. simpl.
      destruct rest as [|next rest']; [by left|]. simpl.
      case_bool_decide; [|by left].
      right. exists next. split; [|done]. right. by left.
    + destruct (IH Hp) as [?|(r & Hr & ?)]; [by left|].
      right. exists r. split; [by right|done].
Qed.

(** X1.  The pairing loop of the import pairs every Prompt with the message
    right after it when that is a Response, and with the empty response
    otherwise; skipping the consumed Response changes nothing.  So there are
    as many pairs as Prompt messages, and their prompts are the texts of the
    Prompt messages in the order of the file. *)
Theorem X1_pairing_keeps_every_prompt messages :
  pairLoop messages 0 [] = promptPairs messages ∧
  length (pairLoop messages 0 [])
    = length (filter (λ m, role m = "Prompt") messages) ∧
  pair_prompt <$> pairLoop messages 0 []
    = say <$> filter (λ m, role m = "Prompt") messages.
Proof.
  assert (pairLoop messages 0 [] = promptPairs messages) as ->
    by (by rewrite pairLoop_pairScan, pairScan_promptPairs).
  split; [done|].
  pose proof (promptPairs_prompts messages) as H.
  split; [|done].
  apply (f_equal length) in H. by rewrite !length_fmap in H.
Qed.

Lemma pairLoop_length messages :
  length (pairLoop messages 0 [])
  = length (filter (λ m, role m = "Prompt") messages).
Proof.
  rewrite pairLoop_pairScan, pairScan_promptPairs.
  pose proof (promptPairs_prompts messages) as H.
  apply (f_equal length) in H. by rewrite !length_fmap in H.
Qed.

Lemma pairLoop_nil_iff messages :
  pairLoop messages 0 [] = [] ↔ ∀ m, m ∈ messages → role m ≠ "Prompt".
Proof.
  rewrite pairLoop_pairScan, pairScan_promptPairs.
  pose proof (promptPairs_prompts messages) as H.
  split.
  - intros E m Hm Hrole. rewrite E in H. simpl in H.
    symmetry in H. apply fmap_nil_inv in H.
    assert (m ∈ filter (λ m, role m = "Prompt") messages) as Hin
      by (by apply list_elem_of_filter).
    rewrite H in Hin. by apply elem_of_nil in Hin.
  - intros Hno.
    assert (filter (λ m, role m = "Prompt") messages = []) as E.
    { destruct (filter _ messages) as [|m l] eqn:Ef; [done|].
      assert (m ∈ filter (λ m, role m = "Prompt") messages) as Hin
        by (rewrite Ef; by left).
      apply list_elem_of_filter in Hin as [Hrole Hm]. by destruct (Hno m Hm). }
    rewrite E in H. by apply fmap_nil_inv in H.
Qed.

(** On a file whose messages are all records, the import has three
    outcomes. *)
Lemma parseImportedJson_outcomes json :
  (parseImportedJson json = Throw (Error "Invalid ChatGPT Exporter JSON format")
   ↔ json_metadata json = None ∨ json_messages json = None) ∧
  (parseImportedJson json
     = Throw (Error "No prompt/response pairs found in the JSON")
   ↔ ∃ meta messages,
       json_metadata json = Some meta ∧ json_messages json = Some messages ∧
       ∀ m, m ∈ messages → role m ≠ "Prompt") ∧
  ((∃ t, parseImportedJson json = Ok t)
   ↔ ∃ meta messages m,
       json_metadata json = Some meta ∧ json_messages json = Some messages ∧
       m ∈ messages ∧ role m = "Prompt") ∧
  (∀ t messages,
     parseImportedJson json = Ok t → json_messages json = Some messages →
     size (nodes t) = length (filter (λ m, role m = "Prompt") messages)) ∧
  (∀ e, parseImportedJson json = Throw e →
     e = Error "Invalid ChatGPT Exporter JSON format" ∨
     e = Error "No prompt/response pairs found in the JSON").
Proof.
  destruct (json_metadata json) as [meta|] eqn:Hmeta;
    [destruct (json_messages json) as [messages|] eqn:Hmsgs|].
  2,3: unfold parseImportedJson; rewrite Hmeta, ?Hmsgs;
       (split; [split; [auto|done]|]);
       (split; [split; [done|by intros (? & ? & ? & ? & _)]|]);
       (split; [split; [by intros [? ?]|by intros (? & ? & ? & ? & ? & _)]|]);
       (split; [done|]); intros e [= <-]; by left.
  destruct (decide (pairLoop messages 0 [] = [])) as [E|Hne].
  - (* no pairs *)
    assert (parseImportedJson json
            = Throw (Error "No prompt/response pairs found in the JSON")) as Hrun.
    { unfold parseImportedJson. by rewrite Hmeta, Hmsgs, E. }
    rewrite Hrun. pose proof (proj1 (pairLoop_nil_iff messages) E) as Hno.
    split; [split; [done|by intros [?|?]]|].
    split; [split; [by exists meta, messages|done]|].
    split.
    { split; [by intros [? ?]|].
      intros (? & ? & m & _ & [= <-] & Hm & Hrole). by destruct (Hno m Hm). }
    split; [done|]. intros e [= <-]. by right.
  - (* a tree *)
    destruct (parseImportedJson_chain json meta messages Hmeta Hmsgs Hne)
      as (t & st & Hrun & Hnodes & _ & Hinv).
    rewrite Hrun.
    split; [split; [done|by intros [?|?]]|].
    split.
    { split; [done|]. intros (? & ? & _ & [= <-] & Hno).
      by apply (proj2 (pairLoop_nil_iff messages)) in Hno. }
    split.
    { split; [|by eauto]. intros _.
      destruct (decide (Exists (λ m, role m = "Prompt") messages))
        as [(m & Hm & Hrole)%Exists_exists|Hno];
        [by exists meta, messages, m|].
      destruct Hne. apply pairLoop_nil_iff. intros m Hm Hrole.
      apply Hno, Exists_exists. eauto. }
    split; [|done].
    intros t' messages' [= <-] [= <-].
    rewrite Hnodes, (chain_size _ _ Hinv).
    apply pairLoop_length.
Qed.

(** The same loop on elements that may be [null]. *)
Lemma pairLoopUnknown_step messages i pairs :
  pairLoopUnknown messages i pairs =
  match messages !! i with
  | None => Ok pairs
  | Some None =>
      Throw (TypeError "Cannot read properties of null (reading 'role')")
  | Some (Some msg) =>
      if bool_decide (role msg = "Prompt") then
        let next := default None (messages !! (i + 1)) in
        if roleIs next "Response" then
          pairLoopUnknown messages (i + 1 + 1)
            (pairs ++ [ {| pair_prompt := say msg;
                           pair_response := default "" (say <$> next) |} ])
        else
          pairLoopUnknown messages (i + 1)
            (pairs ++ [ {| pair_prompt := say msg; pair_response := "" |} ])
      else pairLoopUnknown messages (i + 1) pairs
  end.
Proof.
  funelim (pairLoopUnknown messages i pairs).
  all: clear Heqcall.
  all: repeat match goal with
         | H : sigmaI _ _ _ = _ |- _ => clear H
         | H : ?a = _ |- context [?a] => rewrite H
         end.
  all: done.
Qed.

Lemma pairLoopUnknown_records messages :
  ∀ n i pairs, length messages - i ≤ n →
    pairLoopUnknown (Some <$> messages) i pairs
    = Ok (pairLoop messages i pairs).
Proof.
  induction n as [|n IH]; intros i pairs Hn;
    rewrite pairLoopUnknown_step, pairLoop_step, !list_lookup_fmap.
  - by rewrite (lookup_ge_None_2 messages i) by lia.
  - destruct (messages !! i) as [msg|] eqn:Hi; [|done].
    pose proof (lookup_lt_Some _ _ _ Hi) as Hlt.
    cbn [fmap option_fmap option_map].
    destruct (bool_decide (role msg = "Prompt")); [|apply IH; lia].
    destruct (messages !! (i + 1)) as [next|];
      cbn [fmap option_fmap option_map default from_option Datatypes.id roleIs].
    + destruct (bool_decide (role next = "Response")); apply IH; lia.
    + apply IH; lia.
Qed.

Lemma pairLoopUnknown_null messages rest :
  ∀ n i pairs, length messages - i ≤ n → i ≤ length messages →
    pairLoopUnknown ((Some <$> messages) ++ None :: rest) i pairs
    = Throw (TypeError "Cannot read properties of null (reading 'role')").
Proof.
  assert (Hnull : ((Some <$> messages) ++ None :: rest) !! length messages
                  = Some None).
  { rewrite lookup_app_r by (by rewrite length_fmap).
    by rewrite length_fmap, Nat.sub_diag. }
  assert (Hrec : ∀ j, j < length messages →
            ((Some <$> messages) ++ None :: rest) !! j
            = Some <$> messages !! j).
  { intros j Hj. rewrite lookup_app_l by (by rewrite length_fmap).
    apply list_lookup_fmap. }
  induction n as [|n IH]; intros i pairs Hn Hi; rewrite pairLoopUnknown_step;
    (destruct (decide (i = length messages)) as [->|Hne];
     [by rewrite Hnull|]); [lia|].
  rewrite Hrec by lia.
  destruct (lookup_lt_is_Some_2 messages i) as [msg ->]; [lia|].
  cbn [fmap option_fmap option_map].
  destruct (bool_decide (role msg = "Prompt")); [|apply IH; lia].
  destruct (decide (i + 1 = length messages)) as [E|E].
  - rewrite E, Hnull. cbn [default from_option Datatypes.id roleIs]. apply IH; lia.
  - rewrite Hrec by lia.
    destruct (lookup_lt_is_Some_2 messages (i + 1)) as [next ->]; [lia|].
    cbn [fmap option_fmap option_map default from_option Datatypes.id roleIs].
    destruct (bool_decide (role next = "Response")); apply IH; lia.
Qed.

Lemma null_or_records {A} (l : list (option A)) :
  (∃ ms rest, l = (Some <$> ms) ++ None :: rest) ∨ (∃ ms, l = Some <$> ms).
Proof.
  induction l as [|[a|] l IH].
  - right. by exists [].
  - destruct IH as [(ms & rest & ->)|(ms & ->)].
    + left. by exists (a :: ms), rest.
    + right. by exists (a :: ms).
  - left. by exists [], l.
Qed.

Lemma records_no_null {A} (ms : list A) : None ∉ Some <$> ms.
Proof. by intros (m & ? & _)%list_elem_of_fmap. Qed.

Lemma parseImportedUnknown_records raw messages :
  unknown_messages raw = Some (Some <$> messages) →
  parseImportedUnknown raw
  = parseImportedJson {| json_metadata := unknown_metadata raw;
                         json_messages := Some messages |}.
Proof.
  intros Hm. unfold parseImportedUnknown, parseImportedJson. rewrite Hm.
  cbn [json_metadata json_messages].
  destruct (unknown_metadata raw); [|done].
  by rewrite (pairLoopUnknown_records _ (length messages)) by lia.
Qed.

Example import_null_message :
  parseImportedUnknown
    {| unknown_metadata := Some {| raw_title := None; raw_user := None;
                                   raw_dates := None |};
       unknown_messages := Some [ Some {| role := "Prompt"; say := "hi" |};
                                  None ] |}
  = Throw (TypeError "Cannot read properties of null (reading 'role')").
Proof.
  unfold parseImportedUnknown. cbn [unknown_metadata unknown_messages].
  change [ Some {| role := "Prompt"; say := "hi" |}; None ]
    with ((Some <$> [ {| role := "Prompt"; say := "hi" |} ]) ++ [None]).
  by rewrite (pairLoopUnknown_null [ {| role := "Prompt"; say := "hi" |} ] []
                1 0 []) by (simpl; lia).
Qed.

(** X2.  On a parsed file of unknown shape, [parseImportedJson] has four
    outcomes and no other: the format error exactly when the metadata is
    missing or the messages are not an array; otherwise the TypeError of
    reading [role] of [null] exactly when an element of the messages is
    [null]; otherwise the no-pairs error exactly when no message has the
    role Prompt; and otherwise a tree, with one node per Prompt message.  On
    a file without [null] elements it is the function on typed files. *)
Theorem X2_import_outcomes raw :
  (parseImportedUnknown raw
     = Throw (Error "Invalid ChatGPT Exporter JSON format")
   ↔ unknown_metadata raw = None ∨ unknown_messages raw = None) ∧
  (parseImportedUnknown raw
     = Throw (TypeError "Cannot read properties of null (reading 'role')")
   ↔ ∃ meta elems,
       unknown_metadata raw = Some meta ∧ unknown_messages raw = Some elems ∧
       None ∈ elems) ∧
  (parseImportedUnknown raw
     = Throw (Error "No prompt/response pairs found in the JSON")
   ↔ ∃ meta elems,
       unknown_metadata raw = Some meta ∧ unknown_messages raw = Some elems ∧
       (None ∉ elems) ∧ ∀ m, Some m ∈ elems → role m ≠ "Prompt") ∧
  ((∃ t, parseImportedUnknown raw = Ok t)
   ↔ ∃ meta elems m,
       unknown_metadata raw = Some meta ∧ unknown_messages raw = Some elems ∧
       (None ∉ elems) ∧ Some m ∈ elems ∧ role m = "Prompt") ∧
  (∀ t messages,
     parseImportedUnknown raw = Ok t →
     unknown_messages raw = Some (Some <$> messages) →
     size (nodes t) = length (filter (λ m, role m = "Prompt") messages)) ∧
  (∀ e, parseImportedUnknown raw = Throw e →
     e = Error "Invalid ChatGPT Exporter JSON format" ∨
     e = TypeError "Cannot read properties of null (reading 'role')" ∨
     e = Error "No prompt/response pairs found in the JSON") ∧
  (∀ messages,
     unknown_messages raw = Some (Some <$> messages) →
     parseImportedUnknown raw
     = parseImportedJson {| json_metadata := unknown_metadata raw;
                            json_messages := Some messages |}).
Proof.
  assert (Hlast : ∀ messages,
     unknown_messages raw = Some (Some <$> messages) →
     parseImportedUnknown raw
     = parseImportedJson {| json_metadata := unknown_metadata raw;
                            json_messages := Some messages |})
    by apply parseImportedUnknown_records.
  destruct (unknown_metadata raw) as [meta|] eqn:Hmeta;
    [destruct (unknown_messages raw) as [elems|] eqn:Hmsgs|].
  2,3: assert (parseImportedUnknown raw
               = Throw (Error "Invalid ChatGPT Exporter JSON format")) as Hrun
         by (unfold parseImportedUnknown; by rewrite Hmeta, ?Hmsgs);
       rewrite Hrun;
       (split; [split; [auto|done]|]);
       (split; [split; [done|by intros (? & ? & ? & ? & _)]|]);
       (split; [split; [done|by intros (? & ? & ? & ? & _)]|]);
       (split; [split; [by intros [? ?]|by intros (? & ? & ? & ? & ? & _)]|]);
       (split; [done|]); (split; [|done]); intros e [= <-]; by left.
  destruct (null_or_records elems) as [(ms & rest & ->)|(ms & ->)].
  - (* a null element *)
    assert (None ∈ (Some <$> ms) ++ None :: rest) as Hin
      by (apply elem_of_app; right; by left).
    assert (parseImportedUnknown raw
            = Throw (TypeError "Cannot read properties of null (reading 'role')"))
      as Hrun.
    { unfold parseImportedUnknown. rewrite Hmeta, Hmsgs.
      by rewrite (pairLoopUnknown_null _ _ (length ms)) by lia. }
    rewrite Hrun.
    split; [split; [done|by intros [?|?]]|].
    split; [split; [by exists meta, ((Some <$> ms) ++ None :: rest)|done]|].
    split; [split; [done|]|].
    { intros (? & ? & _ & [= <-] & Hno & _). by destruct Hno. }
    split; [split; [by intros [? ?]|]|].
    { intros (? & ? & ? & _ & [= <-] & Hno & _). by destruct Hno. }
    split; [done|]. split; [intros e [= <-]; auto|].
    intros messages [= E]. exfalso. rewrite E in Hin.
    by apply records_no_null in Hin.
  - (* records only *)
    rewrite (Hlast ms eq_refl).
    destruct (parseImportedJson_outcomes
                {| json_metadata := Some meta; json_messages := Some ms |})
      as (H1 & H2 & H3 & H4 & H5).
    cbn [json_metadata json_messages] in *.
    set (r := parseImportedJson
                {| json_metadata := Some meta; json_messages := Some ms |}) in *.
    assert (Hmem : ∀ m, Some m ∈ Some <$> ms ↔ m ∈ ms).
    { intros m. rewrite list_elem_of_fmap. split; [|by eauto].
      by intros (m' & [= ->] & ?). }
    split; [split; [by intros [?|?]%H1|by intros [?|?]]|].
    split.
    { split.
      - intros E. destruct (H5 _ E) as [?|?]; discriminate.
      - intros (? & ? & _ & [= <-] & Hin). by apply records_no_null in Hin. }
    split.
    { rewrite H2. split.
      - intros (? & ? & [= <-] & [= <-] & Hno).
        exists meta, (Some <$> ms). split; [done|]. split; [done|].
        split; [apply records_no_null|]. intros m Hm. by apply Hno, Hmem.
      - intros (? & ? & [= <-] & [= <-] & _ & Hno).
        exists meta, ms. split; [done|]. split; [done|].
        intros m Hm. by apply Hno, Hmem. }
    split.
    { rewrite H3. split.
      - intros (? & ? & m & [= <-] & [= <-] & Hm & Hrole).
        exists meta, (Some <$> ms), m. split; [done|]. split; [done|].
        split; [apply records_no_null|]. split; [by apply Hmem|done].
      - intros (? & ? & m & [= <-] & [= <-] & _ & Hm & Hrole).
        exists meta, ms, m. split; [done|]. split; [done|].
        split; [by apply Hmem|done]. }
    split.
    { intros t messages Ht [= E]. apply (inj (fmap Some)) in E as <-.
      by apply H4. }
    split.
    { intros e He. destruct (H5 e He) as [->| ->]; auto. }
    intros messages [= E]. by apply (inj (fmap Some)) in E as <-.
Qed.

(** X3.  In an imported tree the node with index [i] carries the text of
    the [i]-th Prompt message of the file as its prompt, is stored under its
    own id with source [imported], and its response is either empty or the
    text of a Response message of the file. *)
Theorem X3_import_node_texts json t messages i m :
  parseImportedJson json = Ok t →
  json_messages json = Some messages →
  filter (λ m, role m = "Prompt") messages !! i = Some m →
  ∃ n, nodes t !! nodeIdOfIndex i = Some n ∧
       id n = nodeIdOfIndex i ∧ source n = imported ∧
       prompt n = say m ∧
       (response n = "" ∨
        ∃ r, r ∈ messages ∧ role r = "Response" ∧ response n = say r).
Proof.
  intros (meta & messages' & st & _ & Hmsgs & _ & -> & _ & Hinv)%parseImportedJson_Ok
         Hmsgs' Hm.
  assert (messages' = messages) as -> by congruence.
  assert (i < length (pairLoop messages 0 [])) as Hi.
  { rewrite pairLoop_length. by eapply lookup_lt_Some. }
  destruct (lookup_lt_is_Some_2 _ _ Hi) as [p Hp].
  exists (chainNode (pairLoop messages 0 []) i p).
  split; [by apply (chain_lookup _ _ Hinv)|].
  split; [done|]. split; [done|]. split.
  - cbn [prompt chainNode].
    assert ((pair_prompt <$> pairLoop messages 0 []) !! i = Some (say m)) as H.
    { rewrite pairLoop_pairScan, pairScan_promptPairs, promptPairs_prompts.
      by rewrite list_lookup_fmap, Hm. }
    rewrite list_lookup_fmap, Hp in H. by injection H.
  - cbn [response chainNode]. apply promptPairs_response.
    rewrite <- pairScan_promptPairs, <- pairLoop_pairScan.
    by eapply list_elem_of_lookup_2.
Qed.

Lemma X3_import_node_texts_witness :
  ∃ t n,
    parseImportedJson
      {| json_metadata := Some {| raw_title := None; raw_user := None;
                                  raw_dates := None |};
         json_messages := Some [ {| role := "Response"; say := "stray" |};
                                 {| role := "Prompt"; say := "one" |};
                                 {| role := "Prompt"; say := "two" |};
                                 {| role := "Response"; say := "answer" |} ] |}
      = Ok t ∧
    nodes t !! nodeIdOfIndex 1 = Some n ∧ prompt n = "two".
Proof.
  eexists. 
  edestruct (X3_import_node_texts
    {| json_metadata := Some {| raw_title := None; raw_user := None;
                                raw_dates := None |};
       json_messages := Some [ {| role := "Response"; say := "stray" |};
                               {| role := "Prompt"; say := "one" |};
                               {| role := "Prompt"; say := "two" |};
                               {| role := "Response"; say := "answer" |} ] |}
    _ _ 1 {| role := "Prompt"; say := "two" |} eq_refl eq_refl eq_refl)
    as (n & Hn & _ & _ & Hprompt & _).
  exists n. split; [reflexivity|]. split; [exact Hn | exact Hprompt].
Defined.

(** ** The walk to the root on any mapping *)

Lemma walkUp_ChainUp nodes fuel :
  ∀ current acc r, walkUp fuel nodes current acc = Some r →
    ∃ pre, r = pre ++ acc ∧ ChainUp nodes current pre ∧ length pre ≤ fuel.
Proof.
  induction fuel as [|fuel IH]; intros current acc r Hr;
    (destruct (truthy current) eqn:Ht;
      [|rewrite walkUp_falsy in Hr by done; injection Hr as <-;
        exists []; split; [done|]; split; [by constructor|simpl; lia]]);
    rewrite walkUp_truthy in Hr by done; [done|].
  destruct current as [c|]; [|done].
  apply IH in Hr as (pre & -> & Hchain & Hlen).
  exists (pre ++ [c]). split; [by rewrite <- app_assoc|].
  split; [by constructor|]. rewrite length_app. simpl. lia.
Qed.

Lemma ChainUp_walkUp nodes current pre :
  ChainUp nodes current pre →
  ∀ fuel acc, length pre ≤ fuel →
    walkUp fuel nodes current acc = Some (pre ++ acc).
Proof.
  induction 1 as [current Hf|c pre Hc _ IH]; intros fuel acc Hfuel.
  - by apply walkUp_falsy.
  - rewrite length_app in Hfuel. simpl in Hfuel.
    destruct fuel as [|fuel]; [lia|].
    rewrite walkUp_Some by done. rewrite IH by lia. by rewrite <- app_assoc.
Qed.

Lemma ChainUp_det nodes current pre :
  ChainUp nodes current pre → ∀ pre', ChainUp nodes current pre' → pre = pre'.
Proof.
  induction 1 as [current Hf|c pre Hc _ IH]; intros pre' H'.
  - inversion H' as [|c' pre2 Hc']; subst; [done|].
    simpl in Hf. congruence.
  - inversion H' as [? Hf|c' pre2 Hc' Hch]; subst.
    + simpl in Hf. congruence.
    + by rewrite (IH _ Hch).
Qed.

Lemma ChainUp_from_member nodes current pre c :
  ChainUp nodes current pre → c ∈ pre →
  ∃ pre1 rest, pre = pre1 ++ rest ∧ ChainUp nodes (Some c) pre1.
Proof.
  induction 1 as [current Hf|c' pre Hc' Hch IH]; intros Hin.
  - by apply elem_of_nil in Hin.
  - apply elem_of_app in Hin as [Hin|Hin].
    + destruct (IH Hin) as (pre1 & rest & -> & H1).
      exists pre1, (rest ++ [c']). by rewrite <- app_assoc.
    + apply list_elem_of_singleton in Hin as ->.
      exists (pre ++ [c']), []. split; [by rewrite app_nil_r|by constructor].
Qed.

(** A chain that ends visits no id twice. *)
Lemma ChainUp_NoDup nodes current pre : ChainUp nodes current pre → NoDup pre.
Proof.
  induction 1 as [current Hf|c pre Hc Hch IH]; [constructor|].
  apply NoDup_app. split; [done|]. split; [|apply NoDup_singleton].
  intros k Hk ->%list_elem_of_singleton.
  destruct (ChainUp_from_member _ _ _ _ Hch Hk) as (pre1 & rest & -> & H1).
  pose proof (ChainUp_det _ _ _ H1 _ (ChainUp_step _ _ _ Hc Hch)) as E.
  apply (f_equal length) in E. rewrite !length_app in E. simpl in E. lia.
Qed.

Lemma ChainUp_nonEmpty nodes current pre k :
  ChainUp nodes current pre → k ∈ pre → nonEmpty k = true.
Proof.
  induction 1 as [current Hf|c pre Hc _ IH]; intros Hk.
  - by apply elem_of_nil in Hk.
  - apply elem_of_app in Hk as [Hk|Hk]; [by apply IH|].
    by apply list_elem_of_singleton in Hk as ->.
Qed.

Lemma ChainUp_head nodes current pre a :
  ChainUp nodes current pre → head pre = Some a →
  truthy (nodes !! a ≫= parentId) = false.
Proof.
  induction 1 as [current Hf|c pre Hc Hch IH]; intros Ha; [done|].
  destruct pre as [|b pre']; simpl in Ha.
  - injection Ha as <-.
    inversion Hch as [cur Hf|c' pre2 Hc' Hch' Ecur Hnil]; [done|by destruct pre2].
  - by apply IH.
Qed.

Lemma ChainUp_links nodes current pre j a b :
  ChainUp nodes current pre →
  pre !! j = Some a → pre !! S j = Some b →
  nodes !! b ≫= parentId = Some a.
Proof.
  intros Hch. revert j a b.
  induction Hch as [current Hf|c pre Hc Hch IH]; intros j a b Ha Hb; [done|].
  destruct (decide (S j < length pre)) as [Hlt|Hge].
  - rewrite lookup_app_l in Ha, Hb by lia. by eapply IH.
  - pose proof (lookup_lt_Some _ _ _ Hb) as Hlen.
    rewrite length_app in Hlen. simpl in Hlen.
    assert (S j = length pre) as Hj by lia.
    rewrite lookup_app_l in Ha by lia.
    rewrite lookup_app_r, Hj, Nat.sub_diag in Hb by lia. injection Hb as <-.
    inversion Hch as [? Hf|c' pre2 Hc' Hch']; subst; [done|].
    rewrite length_app in Hj. simpl in Hj.
    rewrite lookup_app_r in Ha by lia.
    replace (j - length pre2) with 0 in Ha by lia. by injection Ha as <-.
Qed.

(** X4.  Whatever the mapping, a path that [getPathToRoot] returns for a
    non-empty starting id ends with that id, holds only non-empty ids, links
    each id to the one before it by [parentId], starts at an id whose node
    is missing or has no parent, and holds no id twice. *)
Theorem X4_path_shape nodes nodeId fuel path :
  getPathToRoot fuel nodeId nodes = Some path →
  nonEmpty nodeId = true →
  last path = Some nodeId ∧
  (∀ k, k ∈ path → nonEmpty k = true) ∧
  (∀ j a b, path !! j = Some a → path !! S j = Some b →
     nodes !! b ≫= parentId = Some a) ∧
  (∀ a, head path = Some a → truthy (nodes !! a ≫= parentId) = false) ∧
  NoDup path.
Proof.
  intros Hrun Hne. unfold getPathToRoot in Hrun.
  apply walkUp_ChainUp in Hrun as (pre & -> & Hch & _).
  rewrite app_nil_r.
  split.
  { inversion Hch as [? Hf|c pre2 Hc Hch']; subst;
      [simpl in Hf; congruence|apply last_snoc]. }
  split; [intros k; by eapply ChainUp_nonEmpty|].
  split; [intros j a b; by eapply ChainUp_links|].
  split; [intros a; by eapply ChainUp_head|by eapply ChainUp_NoDup].
Qed.

Lemma X4_path_shape_witness :
  getPathToRoot 2 "node-1" twoNodes = Some ["node-0"; "node-1"] ∧
  last ["node-0"; "node-1"] = Some "node-1" ∧ NoDup ["node-0"; "node-1"].
Proof.
  split; [reflexivity|].
  destruct (X4_path_shape twoNodes "node-1" 2 ["node-0"; "node-1"]
              eq_refl eq_refl) as (Hlast & _ & _ & _ & Hnd).
  split; [exact Hlast | exact Hnd].
Defined.

(** ** Depth *)

Lemma depthLoop_stop fuel nodes current depth :
  truthy current && truthy (parentOf nodes current) = false →
  depthLoop fuel nodes current depth = Some depth.
Proof. intros H. destruct fuel; simpl; by rewrite H. Qed.

Lemma depthLoop_go fuel nodes current depth :
  truthy current && truthy (parentOf nodes current) = true →
  depthLoop (S fuel) nodes current depth
  = depthLoop fuel nodes (parentOf nodes current) (depth + 1).
Proof. intros H. simpl. by rewrite H. Qed.

Lemma ChainUp_depthLoop nodes current pre :
  ChainUp nodes current pre →
  ∀ c, current = nodes !! c ≫= parentId → nonEmpty c = true →
  ∀ fuel d, length pre ≤ fuel →
    depthLoop fuel nodes (Some c) d = Some (d + length pre).
Proof.
  induction 1 as [current Hf|p pre Hp Hch IH]; intros c Hcur Hc fuel d Hfuel.
  - rewrite depthLoop_stop; [by rewrite Nat.add_0_r|].
    unfold parentOf. simpl. rewrite <- Hcur, Hf. apply andb_false_r.
  - rewrite length_app in Hfuel. simpl in Hfuel.
    destruct fuel as [|fuel]; [lia|].
    rewrite depthLoop_go
      by (unfold parentOf; simpl; rewrite <- Hcur; simpl; by rewrite Hc, Hp).
    unfold parentOf at 1. simpl. rewrite <- Hcur.
    rewrite (IH p eq_refl Hp) by lia. f_equal. rewrite length_app. simpl. lia.
Qed.

Lemma depthLoop_ChainUp nodes fuel :
  ∀ c d r, nonEmpty c = true →
    depthLoop fuel nodes (Some c) d = Some r →
    ∃ pre, ChainUp nodes (nodes !! c ≫= parentId) pre ∧
           r = d + length pre ∧ length pre ≤ fuel.
Proof.
  induction fuel as [|fuel IH]; intros c d r Hc Hr;
    (destruct (truthy (nodes !! c ≫= parentId)) eqn:Hp;
      [|rewrite depthLoop_stop in Hr
          by (unfold parentOf; simpl; rewrite Hp; apply andb_false_r);
        injection Hr as <-; exists []; split; [by constructor|];
        split; [simpl; lia|simpl; lia]]).
  - simpl in Hr. unfold parentOf in Hr. simpl in Hr. by rewrite Hc, Hp in Hr.
  - rewrite depthLoop_go in Hr
      by (unfold parentOf; simpl; by rewrite Hc, Hp).
    unfold parentOf in Hr. simpl in Hr.
    destruct (nodes !! c ≫= parentId) as [p|] eqn:Ep; [|done].
    simpl in Hp.
    apply IH in Hr as (pre & Hch & -> & Hlen); [|done].
    exists (pre ++ [p]). split; [by constructor|].
    rewrite length_app. simpl. split; lia.
Qed.

(** X5.  On any mapping and for a non-empty id, [getNodeDepth] returns [d]
    exactly when [getPathToRoot], given one more iteration, returns a path of
    [d + 1] ids: the depth of a node is the number of ids above it on its
    path, and both loops stop, or fail to stop, together. *)
Theorem X5_depth_is_path_length nodes nodeId fuel d :
  nonEmpty nodeId = true →
  (getNodeDepth fuel nodeId nodes = Some d ↔
   ∃ path, getPathToRoot (S fuel) nodeId nodes = Some path ∧
           length path = S d).
Proof.
  intros Hne. unfold getNodeDepth, getPathToRoot. split.
  - intros (pre & Hch & -> & Hlen)%depthLoop_ChainUp; [|done].
    exists (pre ++ [nodeId]).
    pose proof (ChainUp_step _ _ _ Hne Hch) as Hch'.
    rewrite (ChainUp_walkUp _ _ _ Hch')
      by (rewrite length_app; simpl; lia).
    rewrite app_nil_r, length_app. simpl. split; [done|lia].
  - intros (path & Hrun & Hlen).
    apply walkUp_ChainUp in Hrun as (pre & -> & Hch & Hfuel).
    rewrite app_nil_r in Hlen.
    inversion Hch as [? Hf|c pre2 Hc Hch']; subst;
      [simpl in Hf; congruence|].
    rewrite length_app in Hlen, Hfuel. simpl in Hlen, Hfuel.
    rewrite (ChainUp_depthLoop _ _ _ Hch' nodeId eq_refl Hne) by lia.
    f_equal. lia.
Qed.

Lemma X5_depth_is_path_length_witness :
  getNodeDepth 1 "node-1" twoNodes = Some 1.
Proof.
  apply (X5_depth_is_path_length twoNodes "node-1" 1 1 eq_refl).
  exists ["node-0"; "node-1"]. split; reflexivity.
Defined.

(** ** Chat history on any mapping *)

Lemma historyLoop_app nodes l1 l2 acc :
  historyLoop nodes (l1 ++ l2) acc
  = historyLoop nodes l1 acc ≫= historyLoop nodes l2.
Proof.
  revert acc. induction l1 as [|k l1 IH]; intros acc; [done|].
  simpl. destruct (nodes !! k) as [n|]; [apply IH|].
  destruct (inheritedName k); [apply IH|done].
Qed.

Lemma historyLoop_one nodes k n acc :
  nodes !! k = Some n → historyLoop nodes [k] acc = Ok (acc ++ exchange n).
Proof.
  intros Hk. simpl. rewrite Hk. unfold exchange.
  destruct (nonEmpty (prompt n)), (nonEmpty (response n)); simpl;
    by rewrite <- ?app_assoc, ?app_nil_r.
Qed.

Lemma historyLoop_Throw nodes path :
  ∀ acc e, historyLoop nodes path acc = Throw e →
    e = TypeError "Cannot read properties of undefined (reading 'prompt')" ∧
    ∃ k, k ∈ path ∧ nodes !! k = None ∧ inheritedName k = false.
Proof.
  induction path as [|k path IH]; intros acc e He; [done|].
  simpl in He. destruct (nodes !! k) as [n|] eqn:Hk.
  - destruct (IH _ _ He) as (-> & k' & Hk' & Hnone).
    split; [done|]. exists k'. split; [by right|done].
  - destruct (inheritedName k) eqn:Hinh.
    + destruct (IH _ _ He) as (-> & k' & Hk' & Hnone).
      split; [done|]. exists k'. split; [by right|done].
    + injection He as <-. split; [done|]. exists k. split; [by left|done].
Qed.

Lemma historyLoop_Ok nodes path :
  ∀ acc h, historyLoop nodes path acc = Ok h →
    (∀ k, k ∈ path → is_Some (nodes !! k) ∨ inheritedName k = true) ∧
    length h ≤ length acc + 2 * length path ∧
    ((∀ m, m ∈ acc → nonEmpty (content m) = true) →
     ∀ m, m ∈ h → nonEmpty (content m) = true).
Proof.
  induction path as [|k path IH]; intros acc h Hh.
  - injection Hh as <-. split; [by intros k ?%elem_of_nil|].
    split; [simpl; lia|done].
  - simpl in Hh. destruct (nodes !! k) as [n|] eqn:Hk.
    2: { destruct (inheritedName k) eqn:Hinh; [|done].
         destruct (IH _ _ Hh) as (Hkeys & Hlen & Hcont).
         split; [intros k' [->|?]%elem_of_cons; eauto|].
         split; [simpl; lia|done]. }
    destruct (IH _ _ Hh) as (Hkeys & Hlen & Hcont).
    split; [intros k' [->|?]%elem_of_cons; eauto|].
    split.
    + simpl. etrans; [exact Hlen|].
      destruct (nonEmpty (prompt n)), (nonEmpty (response n));
        rewrite ?length_app; simpl; lia.
    + intros Hacc. apply Hcont. intros m Hm.
      destruct (nonEmpty (prompt n)) eqn:Hp, (nonEmpty (response n)) eqn:Hr;
        repeat (apply elem_of_app in Hm as [Hm|Hm]);
        try (by apply Hacc);
        by apply list_elem_of_singleton in Hm as ->.
Qed.

(** Every id of a chain but the topmost is a key. *)
Lemma ChainUp_keys nodes current pre j k :
  ChainUp nodes current pre → pre !! S j = Some k → is_Some (nodes !! k).
Proof.
  intros Hch Hk.
  destruct (lookup_lt_is_Some_2 pre j) as [a Ha];
    [apply lookup_lt_Some in Hk; lia|].
  pose proof (ChainUp_links _ _ _ _ _ _ Hch Ha Hk) as Hlink.
  destruct (nodes !! k); [eauto|done].
Qed.

(** X6.  Once the walk to the root has returned, [buildChatHistory] fails
    exactly when the id at the top of the path is not a key of the mapping
    and not the name of a property that every object inherits: the starting
    id itself when it is unknown, or a [parentId] that points to no node.
    The failure is the TypeError of reading [prompt] of [undefined]; in
    every other case a history is returned. *)
Theorem X6_history_fails_iff_top_missing nodes nodeId fuel path :
  getPathToRoot fuel nodeId nodes = Some path →
  ((∃ e, buildChatHistory fuel nodeId nodes = Some (Throw e))
   ↔ ∃ a, head path = Some a ∧ nodes !! a = None ∧ inheritedName a = false) ∧
  (∀ e, buildChatHistory fuel nodeId nodes = Some (Throw e) →
     e = TypeError "Cannot read properties of undefined (reading 'prompt')") ∧
  ((∃ h, buildChatHistory fuel nodeId nodes = Some (Ok h))
   ↔ ∀ a, head path = Some a →
          is_Some (nodes !! a) ∨ inheritedName a = true).
Proof.
  intros Hrun. unfold buildChatHistory. rewrite Hrun. simpl.
  unfold getPathToRoot in Hrun.
  apply walkUp_ChainUp in Hrun as (pre & -> & Hch & _).
  rewrite app_nil_r.
  assert (Hrest : ∀ k, k ∈ pre → head pre ≠ Some k → is_Some (nodes !! k)).
  { intros k (j & Hj)%list_elem_of_lookup Hhead.
    destruct j as [|j]; [by rewrite <- head_lookup in Hj|].
    by eapply ChainUp_keys. }
  destruct (historyLoop nodes pre []) as [h|e] eqn:Hh.
  - apply historyLoop_Ok in Hh as (Hkeys & _).
    split; [split; [by intros [? ?]|]|].
    { intros (a & Ha & Hnone & Hinh). apply head_Some_elem_of, Hkeys in Ha.
      destruct Ha as [[? ?]|?]; congruence. }
    split; [done|]. split; [|eauto].
    intros _ a Ha. by apply Hkeys, head_Some_elem_of.
  - apply historyLoop_Throw in Hh as (-> & k & Hk & Hnone & Hinh).
    assert (head pre = Some k) as Hhead.
    { destruct (decide (head pre = Some k)) as [|Hne]; [done|].
      destruct (Hrest k Hk Hne) as [? ?]. congruence. }
    split; [split; eauto|].
    split; [by intros e [= <-]|].
    split; [by intros [? ?]|].
    intros Hall. destruct (Hall k Hhead) as [[? ?]|?]; congruence.
Qed.

Lemma X6_history_fails_iff_top_missing_witness :
  ∃ e, buildChatHistory 2 "b" dangling = Some (Throw e).
Proof.
  destruct (X6_history_fails_iff_top_missing dangling "b" 2 ["zombie"; "b"]
              eq_refl) as ([_ Hfail] & _).
  apply Hfail. exists "zombie". split; [|split]; reflexivity.
Defined.

(** An id that names an inherited property and no node contributes nothing
    to the history and raises nothing. *)
Example history_of_inherited_name :
  buildChatHistory 1 "toString" root0 = Some (Ok []).
Proof. reflexivity. Qed.

(** X7.  A history that [buildChatHistory] returns never holds a message
    with empty content, and it has at most two messages for each id on the
    path. *)
Theorem X7_history_has_no_empty_message nodes nodeId fuel h :
  buildChatHistory fuel nodeId nodes = Some (Ok h) →
  (∀ m, m ∈ h → nonEmpty (content m) = true) ∧
  ∃ path, getPathToRoot fuel nodeId nodes = Some path ∧
          length h ≤ 2 * length path.
Proof.
  unfold buildChatHistory. intros Hrun.
  destruct (getPathToRoot fuel nodeId nodes) as [path|]; [|done].
  simpl in Hrun. injection Hrun as Hrun.
  apply historyLoop_Ok in Hrun as (_ & Hlen & Hcont).
  split; [apply Hcont; by intros m ?%elem_of_nil|].
  exists path. split; [done|]. simpl in Hlen. lia.
Qed.

Lemma X7_history_has_no_empty_message_witness :
  (∀ m, m ∈ [ {| msg_role := role_user; content := "q" |} ] →
        nonEmpty (content m) = true) ∧
  ∃ path,
    getPathToRoot 1 "b"
      {[ "b" := {| id := "b"; prompt := "q"; response := "";
                   parentId := None; childIds := [];
                   source := generated |} ]} = Some path ∧
    length [ {| msg_role := role_user; content := "q" |} ] ≤ 2 * length path.
Proof.
  exact (X7_history_has_no_empty_message
           {[ "b" := {| id := "b"; prompt := "q"; response := "";
                        parentId := None; childIds := [];
                        source := generated |} ]}
           "b" 1 _ eq_refl).
Defined.

(** X8.  The history of a node is the history of its parent followed by the
    node's own exchange; the history of a node without parent is its own
    exchange.  This holds on any mapping, for a non-empty id that is a
    key. *)
Theorem X8_history_extends_parent nodes i n fuel :
  nodes !! i = Some n →
  nonEmpty i = true →
  (parentId n = None →
   buildChatHistory (S fuel) i nodes = Some (Ok (exchange n))) ∧
  (∀ p hp, parentId n = Some p →
     buildChatHistory fuel p nodes = Some (Ok hp) →
     buildChatHistory (S fuel) i nodes = Some (Ok (hp ++ exchange n))).
Proof.
  intros Hn Hi. unfold buildChatHistory, getPathToRoot. split.
  - intros Hnone.
    assert (walkUp (S fuel) nodes (Some i) [] = Some [i]) as ->.
    { rewrite walkUp_Some by done. rewrite Hn. simpl.
      by rewrite Hnone, walkUp_None. }
    cbn [mbind option_bind]. by rewrite (historyLoop_one _ _ n).
  - intros p hp Hp Hparent.
    destruct (walkUp fuel nodes (Some p) []) as [path|] eqn:Hwalk; [|done].
    cbn [mbind option_bind] in Hparent. injection Hparent as Hparent.
    apply walkUp_ChainUp in Hwalk as (pre & -> & Hch & Hlen).
    rewrite app_nil_r in Hparent.
    assert (walkUp (S fuel) nodes (Some i) [] = Some (pre ++ [i])) as ->.
    { rewrite walkUp_Some by done. rewrite Hn. simpl. rewrite Hp.
      by rewrite (ChainUp_walkUp _ _ _ Hch). }
    cbn [mbind option_bind]. rewrite historyLoop_app, Hparent.
    cbn [mbind result_bind]. by rewrite (historyLoop_one _ _ n).
Qed.

Lemma X8_history_extends_parent_witness :
  buildChatHistory 2 "node-1" twoNodes =
  Some (Ok ([ {| msg_role := role_user; content := "x" |};
              {| msg_role := role_assistant; content := "y" |} ] ++
            [ {| msg_role := role_user; content := "a" |};
              {| msg_role := role_assistant; content := "b" |} ])).
Proof.
  destruct (X8_history_extends_parent twoNodes "node-1" _ 1 eq_refl eq_refl)
    as [_ Hext].
  exact (Hext "node-0" _ eq_refl eq_refl).
Defined.

(** ** The path view *)

Lemma pathMessagesLoop_history nodes path :
  ∀ acc pacc h, historyLoop nodes path acc = Ok h →
    toChat <$> pacc = acc →
    toChat <$> pathMessagesLoop nodes path pacc = h.
Proof.
  induction path as [|k path IH]; intros acc pacc h Hh Hacc; simpl in *.
  - congruence.
  - destruct (nodes !! k) as [n|].
    2: { destruct (inheritedName k); [by eapply IH|done]. }
    eapply IH; [exact Hh|].
    destruct (nonEmpty (prompt n)), (nonEmpty (response n));
      rewrite ?fmap_app, ?Hacc; done.
Qed.

(** X9.  What the path view renders is what is sent as context: whenever
    [buildChatHistory] returns a history for the selected node, the messages
    the view lists for the path of that node are, role and content, exactly
    that history. *)
Theorem X9_path_view_shows_the_history state t sel fuel path h :
  tree state = Some t →
  selectedNodeId state = Some sel →
  pathNodeIds fuel state = Some path →
  buildChatHistory fuel sel (nodes t) = Some (Ok h) →
  toChat <$> pathMessages state path = h.
Proof.
  intros Ht Hsel Hpath Hh.
  unfold pathNodeIds in Hpath. unfold pathMessages.
  rewrite Ht, Hsel in *. simpl in Hpath.
  unfold buildChatHistory in Hh.
  destruct (nonEmpty sel) eqn:Hne.
  - rewrite Hpath in Hh. simpl in Hh. injection Hh as Hh.
    by eapply pathMessagesLoop_history.
  - injection Hpath as <-. unfold getPathToRoot in Hh.
    rewrite walkUp_falsy in Hh by done. simpl in Hh. by injection Hh as <-.
Qed.

Lemma X9_path_view_shows_the_history_witness :
  toChat <$> pathMessages state2 ["node-0"; "node-1"]
  = [ {| msg_role := role_user; content := "x" |};
      {| msg_role := role_assistant; content := "y" |};
      {| msg_role := role_user; content := "a" |};
      {| msg_role := role_assistant; content := "b" |} ].
Proof.
  exact (X9_path_view_shows_the_history state2 tree2 "node-1" 2
           ["node-0"; "node-1"] _ eq_refl eq_refl eq_refl eq_refl).
Defined.

(** ** Sending a message *)

Lemma ChainUp_ext nodes nodes' current pre :
  (∀ c, nodes' !! c ≫= parentId = nodes !! c ≫= parentId) →
  ChainUp nodes current pre → ChainUp nodes' current pre.
Proof.
  intros Hext. induction 1 as [current Hf|c pre Hc _ IH]; [by constructor|].
  constructor; [done|]. by rewrite Hext.
Qed.

Lemma historyLoop_agree nodes nodes' path :
  (∀ k, k ∈ path → nodes' !! k = nodes !! k) →
  ∀ acc, historyLoop nodes' path acc = historyLoop nodes path acc.
Proof.
  induction path as [|k path IH]; intros Hag acc; [done|].
  simpl. rewrite (Hag k) by (by left).
  assert (∀ acc', historyLoop nodes' path acc' = historyLoop nodes path acc')
    as Hrest by (apply IH; intros k' Hk'; apply Hag; by right).
  destruct (nodes !! k); [apply Hrest|].
  destruct (inheritedName k); [apply Hrest|done].
Qed.

Lemma mergeNode_promptPatch node text :
  mergeNode node (promptPatch text) =
  {| id := id node; prompt := text; response := response node;
     parentId := parentId node; childIds := childIds node;
     source := source node |}.
Proof. reflexivity. Qed.

(** X10.  The history that [handleSendToNode] puts in the request (the
    parent's history, read from the tree before the update, followed by the
    new user message) is the history of the target node in the tree after
    the [UPDATE_NODE] that it dispatches, provided the target is a node with
    an empty response and the message is not empty. *)
Theorem X10_request_history_matches_updated_tree
    w state t targetId node text fuel update h :
  tree state = Some t →
  nodes t !! targetId = Some node →
  nonEmpty targetId = true →
  response node = "" →
  nonEmpty text = true →
  handleSendToNode fuel state text (Some targetId)
    = Some (Ok (Some (update, h))) →
  update = UPDATE_NODE targetId (promptPatch text) ∧
  ∃ (state' : AppState) t',
    reducer w state update = Ok (Typed state', w) ∧
    tree state' = Some t' ∧
    buildChatHistory (S fuel) targetId (nodes t') = Some (Ok h).
Proof.
  intros Ht Hnode Htarget Hresp Htext Hsend.
  unfold handleSendToNode in Hsend. rewrite Ht in Hsend.
  assert (truthy (Some targetId) = true) as Htruthy by done.
  rewrite !Htruthy, Hnode in Hsend. cbn [mbind option_bind] in Hsend.
  set (nodes' := <[ targetId := mergeNode node (promptPatch text) ]> (nodes t)).
  assert (Hext : ∀ c, nodes' !! c ≫= parentId = nodes t !! c ≫= parentId).
  { intros c. unfold nodes'. destruct (decide (c = targetId)) as [->|Hne].
    - by rewrite lookup_insert_eq, Hnode.
    - by rewrite lookup_insert_ne. }
  assert (Hnew : nodes' !! targetId = Some (mergeNode node (promptPatch text)))
    by apply lookup_insert_eq.
  assert (Hex : exchange (mergeNode node (promptPatch text))
                = [ {| msg_role := role_user; content := text |} ]).
  { unfold exchange. rewrite mergeNode_promptPatch. simpl.
    by rewrite Htext, Hresp. }
  assert (Hred : reducer w state (UPDATE_NODE targetId (promptPatch text))
                 = Ok (Typed {| tree := Some (withNodes t nodes');
                                selectedNodeId := selectedNodeId state;
                                activeView := activeView state;
                                settings := settings state |}, w)).
  { simpl. by rewrite Ht, Hnode. }
  destruct (truthy (parentId node)) eqn:Hp.
  - (* the target has a parent *)
    destruct (parentId node) as [p|] eqn:Ep; [|done].
    destruct (buildChatHistory fuel p (nodes t)) as [[hp|e]|] eqn:Hparent;
      cbn [mbind option_bind result_bind] in Hsend; [|done..].
    injection Hsend as <- <-. split; [done|].
    eexists _, _. split; [exact Hred|]. split; [done|]. cbn [nodes withNodes].
    unfold buildChatHistory, getPathToRoot in *.
    destruct (walkUp fuel (nodes t) (Some p) []) as [path|] eqn:Hwalk; [|done].
    cbn [mbind option_bind] in Hparent. injection Hparent as Hparent.
    apply walkUp_ChainUp in Hwalk as (pre & -> & Hch & Hlen).
    rewrite app_nil_r in Hparent.
    assert (targetId ∉ pre) as Hnot.
    { assert (ChainUp (nodes t) (Some targetId) (pre ++ [targetId])) as Hch'.
      { constructor; [done|]. by rewrite Hnode; simpl; rewrite Ep. }
      apply ChainUp_NoDup, NoDup_app in Hch' as (_ & Hdisj & _).
      intros Hin. apply (Hdisj _ Hin). by left. }
    assert (walkUp (S fuel) nodes' (Some targetId) []
            = Some (pre ++ [targetId])) as ->.
    { rewrite walkUp_Some by done. rewrite Hext, Hnode. simpl. rewrite Ep.
      by rewrite (ChainUp_walkUp _ _ _ (ChainUp_ext _ nodes' _ _ Hext Hch)). }
    cbn [mbind option_bind]. rewrite historyLoop_app.
    rewrite (historyLoop_agree (nodes t) nodes') , Hparent.
    + cbn [mbind result_bind]. by rewrite (historyLoop_one _ _ _ _ Hnew), Hex.
    + intros k Hk. unfold nodes'. rewrite lookup_insert_ne; [done|].
      by intros ->.
  - (* the target has no parent *)
    cbn [mbind option_bind result_bind] in Hsend.
    injection Hsend as <- <-. split; [done|].
    eexists _, _. split; [exact Hred|]. split; [done|]. cbn [nodes withNodes].
    unfold buildChatHistory, getPathToRoot.
    assert (walkUp (S fuel) nodes' (Some targetId) [] = Some [targetId]) as ->.
    { rewrite walkUp_Some by done. rewrite Hext, Hnode. simpl.
      by rewrite walkUp_falsy. }
    cbn [mbind option_bind]. by rewrite (historyLoop_one _ _ _ _ Hnew), Hex.
Qed.

Lemma X10_request_history_matches_updated_tree_witness :
  ∃ (state' : AppState) t',
    reducer world0 state1 (UPDATE_NODE "node-5-ab" (promptPatch "why?"))
      = Ok (Typed state', world0) ∧
    tree state' = Some t' ∧
    buildChatHistory 2 "node-5-ab" (nodes t')
      = Some (Ok [ {| msg_role := role_user; content := "hi" |};
                   {| msg_role := role_assistant; content := "hello" |};
                   {| msg_role := role_user; content := "why?" |} ]).
Proof.
  destruct (X10_request_history_matches_updated_tree world0 state1 _
              "node-5-ab" _ "why?" 1 _ _
              eq_refl eq_refl eq_refl eq_refl eq_refl eq_refl)
    as (_ & Hrest).
  exact Hrest.
Defined.

Lemma currentNode_after_branch w state t parent state' w' :
  tree state = Some t →
  reducer w state (BRANCH_FROM_NODE parent) = Ok (Typed state', w') →
  selectedNodeId state' = Some (newNodeId (dateNow w) (random36 w)) ∧
  activeView state' = PathView ∧
  ∃ n, currentNode state' = Some n ∧ isBlankBranch n = true ∧
       parentId n = Some parent.
Proof.
  intros Ht Hred. simpl in Hred. rewrite Ht in Hred.
  unfold createBranchNode in Hred.
  set (newId := newNodeId (dateNow w) (random36 w)) in *.
  destruct (decide (parent = newId)) as [->|Hne].
  - rewrite lookup_insert_eq in Hred. cbn [mbind result_bind] in Hred.
    injection Hred as <- <-. split; [done|]. split; [done|].
    unfold currentNode. cbn [tree selectedNodeId withNodes nodes truthy].
    fold newId. rewrite (newNodeId_nonEmpty _ _ : nonEmpty newId = true).
    cbn [mbind option_bind]. rewrite lookup_insert_eq. by eexists.
  - rewrite lookup_insert_ne in Hred by done.
    destruct (nodes t !! parent) as [p|]; [|done].
    cbn [mbind result_bind] in Hred.
    injection Hred as <- <-. split; [done|]. split; [done|].
    unfold currentNode. cbn [tree selectedNodeId withNodes nodes truthy].
    fold newId. rewrite (newNodeId_nonEmpty _ _ : nonEmpty newId = true).
    cbn [mbind option_bind].
    rewrite lookup_insert_ne, lookup_insert_eq by done. by eexists.
Qed.

(** X11.  A message typed while the selected node already has content is
    not sent at once: [handleChatSend] keeps it pending and dispatches
    [BRANCH_FROM_NODE].  Whenever that dispatch succeeds, the new state
    shows the path view with the new node selected, that node is a blank
    branch, so the effect sends the pending message into it, and the send
    dispatches the [UPDATE_NODE] that stores the message as the node's
    prompt.  After that update the node, a child of the node the message
    was typed on, is no longer blank: the next message typed opens a
    further branch below it. *)
Theorem X11_send_branches_then_fills
    w state t sel text state' w' :
  tree state = Some t →
  selectedNodeId state = Some sel →
  nonEmpty sel = true →
  nonEmpty text = true →
  (∀ n, nodes t !! sel = Some n → isBlankBranch n = false) →
  reducer w state (BRANCH_FROM_NODE sel) = Ok (Typed state', w') →
  let newId := newNodeId (dateNow w) (random36 w) in
  handleChatSend state text = BranchFirst text (BRANCH_FROM_NODE sel) ∧
  activeView state' = PathView ∧
  pendingEffect state' (Some text) = Some (text, newId) ∧
  (∀ fuel update h,
     handleSendToNode fuel state' text (Some newId)
       = Some (Ok (Some (update, h))) →
     update = UPDATE_NODE newId (promptPatch text)) ∧
  ∃ filled : AppState,
    reducer w' state' (UPDATE_NODE newId (promptPatch text))
      = Ok (Typed filled, w') ∧
    selectedNodeId filled = Some newId ∧
    (∃ n, currentNode filled = Some n ∧ prompt n = text ∧
          response n = "" ∧ parentId n = Some sel) ∧
    ∀ text', handleChatSend filled text'
             = BranchFirst text' (BRANCH_FROM_NODE newId).
Proof.
  intros Ht Hsel Hne Htext Hfull Hred newId.
  destruct (currentNode_after_branch _ _ _ _ _ _ Ht Hred)
    as (Hsel' & Hview & n & Hcur & Hblank & Hparent).
  fold newId in Hsel'.
  assert (truthy (Some newId) = true) as Htruthy by apply newNodeId_nonEmpty.
  assert (∃ t', tree state' = Some t' ∧ nodes t' !! newId = Some n)
    as (t' & Ht' & Hn).
  { unfold currentNode in Hcur. destruct (tree state') as [t'|]; [|done].
    rewrite Hsel', Htruthy in Hcur. by exists t'. }
  split; [|split; [done|split; [|split]]].
  - unfold handleChatSend, currentNode. rewrite Ht, Hsel. cbn [truthy].
    rewrite Hne. cbn [mbind option_bind].
    destruct (nodes t !! sel) as [m|] eqn:Hm; [|done].
    by rewrite (Hfull m).
  - unfold pendingEffect. cbn [truthy]. by rewrite Htext, Hcur, Hsel', Hblank.
  - intros fuel update h. unfold handleSendToNode.
    rewrite Ht', !Htruthy. cbn [mbind option_bind].
    destruct (if truthy (nodes t' !! newId ≫= parentId) then _ else _)
      as [[hp|e]|]; cbn [mbind option_bind result_bind]; [|done..].
    by intros [= <- _].
  - cbn [reducer]. rewrite Ht', Hn. eexists. split; [done|].
    cbn [selectedNodeId]. split; [done|].
    assert (Hfilled : currentNode
              {| tree := Some (withNodes t'
                           (<[ newId := mergeNode n (promptPatch text) ]>
                              (nodes t')));
                 selectedNodeId := selectedNodeId state';
                 activeView := activeView state';
                 settings := settings state' |}
            = Some (mergeNode n (promptPatch text))).
    { unfold currentNode. cbn [tree selectedNodeId nodes withNodes].
      rewrite Hsel', Htruthy. cbn [mbind option_bind].
      apply lookup_insert_eq. }
    unfold isBlankBranch in Hblank.
    apply andb_true_iff in Hblank as [[_ Hresp]%andb_true_iff _].
    apply String.eqb_eq in Hresp.
    split.
    { eexists. split; [exact Hfilled|]. by rewrite mergeNode_promptPatch. }
    intros text'. unfold handleChatSend. rewrite Hfilled.
    cbn [tree selectedNodeId]. rewrite Hsel', Htruthy.
    unfold isBlankBranch. rewrite mergeNode_promptPatch. cbn [prompt].
    unfold nonEmpty in Htext. apply negb_true_iff in Htext. by rewrite Htext.
Qed.

Lemma X11_send_branches_then_fills_witness :
  handleChatSend state0 "why?" = BranchFirst "why?" (BRANCH_FROM_NODE "node-0") ∧
  activeView state1 = PathView ∧
  pendingEffect state1 (Some "why?") = Some ("why?", "node-5-ab") ∧
  (∀ fuel update h,
     handleSendToNode fuel state1 "why?" (Some "node-5-ab")
       = Some (Ok (Some (update, h))) →
     update = UPDATE_NODE "node-5-ab" (promptPatch "why?")) ∧
  ∃ filled : AppState,
    reducer world0 state1 (UPDATE_NODE "node-5-ab" (promptPatch "why?"))
      = Ok (Typed filled, world0) ∧
    selectedNodeId filled = Some "node-5-ab" ∧
    (∃ n, currentNode filled = Some n ∧ prompt n = "why?" ∧
          response n = "" ∧ parentId n = Some "node-0") ∧
    ∀ text', handleChatSend filled text'
             = BranchFirst text' (BRANCH_FROM_NODE "node-5-ab").
Proof.
  apply (X11_send_branches_then_fills world0 state0 tree0 "node-0" "why?"
           state1 world0 eq_refl eq_refl eq_refl eq_refl).
  - intros n Hn. vm_compute in Hn. by injection Hn as <-.
  - reflexivity.
Defined.

(** ** Generated ids *)

Lemma noDash_pretty_N (x : N) : noDash (pretty x) = true.
Proof.
  unfold pretty, pretty_N. destruct (decide (x = 0)%N); [done|].
  by apply noDash_pretty_N_go.
Qed.

Lemma split_at_dash a a' b b' :
  noDash a = true → noDash a' = true →
  a +:+ "-" +:+ b = a' +:+ "-" +:+ b' → a = a' ∧ b = b'.
Proof.
  revert a'. induction a as [|c a IH]; intros [|c' a'] Ha Ha' E;
    cbn [String.app noDash] in *.
  - injection E as E. by subst.
  - injection E as E _. subst. done.
  - injection E as E _. subst. done.
  - injection E as Ec E. subst. apply andb_true_iff in Ha as [_ Ha].
    apply andb_true_iff in Ha' as [_ Ha'].
    by destruct (IH a' Ha Ha' E) as [-> ->].
Qed.

(** X12.  The id of a new branch, [node-<clock>-<draw>], determines the
    clock value and the random draw it was built from, is never empty, and
    is never one of the ids [node-<index>] that the import gives out. *)
Theorem X12_generated_ids now rnd :
  (∀ now' rnd', newNodeId now rnd = newNodeId now' rnd' →
                now = now' ∧ rnd = rnd') ∧
  nonEmpty (newNodeId now rnd) = true ∧
  ∀ index, newNodeId now rnd ≠ nodeIdOfIndex index.
Proof.
  split; [|split].
  - intros now' rnd' E. unfold newNodeId in E.
    apply (inj (String.app "node-")) in E.
    apply split_at_dash in E as [E ->]; [|apply noDash_pretty_N..].
    by apply (inj pretty) in E.
  - apply newNodeId_nonEmpty.
  - apply newNodeId_not_imported.
Qed.

(** X13.  The first branch created on a freshly imported conversation
    always succeeds when its parent is one of the imported nodes, whatever
    the clock and the random draw: the generated id cannot collide, one
    node is added, it is a blank child of the parent, every other node is
    kept, and the result satisfies the tree invariant. *)
Theorem X13_first_branch_of_an_import json t parent p now rnd :
  parseImportedJson json = Ok t →
  nodes t !! parent = Some p →
  let newId := newNodeId now rnd in
  ∃ ns',
    createBranchNode now rnd parent (nodes t) = Ok (ns', newId) ∧
    size ns' = S (size (nodes t)) ∧
    ns' !! newId = Some (blankNode newId parent) ∧
    ns' !! parent = Some (setChildIds (childIds p ++ [newId]) p) ∧
    (∀ k, k ≠ parent → k ≠ newId → ns' !! k = nodes t !! k) ∧
    TreeInvariant ns' (rootId t).
Proof.
  intros Hparse Hp newId.
  pose proof (import_then_branch_fresh _ _ now rnd Hparse) as Hfresh.
  fold newId in Hfresh.
  assert (Hne : parent ≠ newId) by congruence.
  eexists. split; [by apply createBranchNode_found|].
  split; [|split; [|split; [|split]]].
  - rewrite map_size_insert_Some by (rewrite lookup_insert_ne by done; eauto).
    by rewrite map_size_insert_None.
  - by rewrite lookup_insert_ne, lookup_insert_eq.
  - by rewrite lookup_insert_eq.
  - intros k Hk1 Hk2. by rewrite !lookup_insert_ne.
  - apply TreeInvariant_branch; [|done..].
    destruct (parseImportedJson_Ok _ _ Hparse)
      as (meta & messages & st & _ & _ & Hps & -> & -> & Hinv).
    by apply (TreeInvariant_import _ _ Hps).
Qed.

Lemma X13_first_branch_of_an_import_witness :
  ∃ ns',
    createBranchNode 5 "ab" "node-0" (nodes tree0) = Ok (ns', "node-5-ab") ∧
    size ns' = 2 ∧
    ns' !! "node-5-ab" = Some (blankNode "node-5-ab" "node-0") ∧
    ns' !! "node-0" =
      Some {| id := "node-0"; prompt := "hi"; response := "hello";
              parentId := None; childIds := ["node-5-ab"];
              source := imported |} ∧
    (∀ k, k ≠ "node-0" → k ≠ "node-5-ab" → ns' !! k = nodes tree0 !! k) ∧
    TreeInvariant ns' (rootId tree0).
Proof.
  exact (X13_first_branch_of_an_import json0 tree0 "node-0" _ 5 "ab"
           eq_refl eq_refl).
Defined.

(** ** The states the user interface can reach *)

Lemma elem_of_concat_fmap {A B} (f : A → list B) (l : list A) (b : B) :
  b ∈ concat (f <$> l) ↔ ∃ a, a ∈ l ∧ b ∈ f a.
Proof.
  induction l as [|a l IH].
  - split; [by intros ?%elem_of_nil|]. by intros (a & ?%elem_of_nil & _).
  - rewrite fmap_cons. cbn [concat]. rewrite elem_of_app, IH. split.
    + intros [Hb|(a' & Ha' & Hb)]; [exists a; split; [by left|done]|].
      exists a'. split; [by right|done].
    + intros (a' & [->|Ha']%elem_of_cons & Hb); [by left|right; eauto].
Qed.

Lemma NoDup_concat_elem {A B} (f : A → list B) (l : list A) (a : A) :
  NoDup (concat (f <$> l)) → a ∈ l → NoDup (f a).
Proof.
  induction l as [|a' l IH]; [by intros _ ?%elem_of_nil|].
  rewrite fmap_cons. cbn [concat]. intros (Ha' & _ & Hl)%NoDup_app.
  intros [->|Ha]%elem_of_cons; [done|by apply IH].
Qed.

Lemma Shape_keys ns r k : Shape ns r → k ∈ idsOf r → is_Some (ns !! k).
Proof.
  induction r as [i kids IH] using rose_ind'.
  intros (n & Hn & _ & Hshape)%Shape_inv. cbn [idsOf].
  intros [->|(c & Hc & Hk)%elem_of_concat_fmap]%elem_of_cons; [by eexists|].
  rewrite Forall_forall in IH, Hshape. by apply (IH c Hc); [apply Hshape|].
Qed.

Lemma Shape_agree ns ns' r :
  (∀ i n, i ∈ idsOf r → ns !! i = Some n →
          ∃ n', ns' !! i = Some n' ∧ childIds n' = childIds n) →
  Shape ns r → Shape ns' r.
Proof.
  induction r as [i kids IH] using rose_ind'.
  intros Hag (n & Hn & Hkids & Hshape)%Shape_inv.
  destruct (Hag i n) as (n' & Hn' & Hc); [by left|done|].
  eapply Shape_node; [exact Hn'|congruence|].
  rewrite Forall_forall in IH, Hshape. apply Forall_forall. intros k Hk.
  apply IH; [done| |by apply Hshape].
  intros j m Hj. apply Hag. cbn [idsOf]. right.
  apply elem_of_concat_fmap. eauto.
Qed.

Lemma rootOf_insertChild parent child r :
  rootOf (insertChild parent child r) = rootOf r.
Proof. destruct r as [i kids]. cbn [insertChild]. by case_bool_decide. Qed.

Lemma insertChild_absent parent child r :
  parent ∉ idsOf r → insertChild parent child r = r.
Proof.
  induction r as [i kids IH] using rose_ind'. cbn [idsOf].
  intros [Hne Hnot]%not_elem_of_cons.
  cbn [insertChild]. rewrite bool_decide_false by done. f_equal.
  induction kids as [|k kids IHk]; [done|].
  rewrite fmap_cons in Hnot. cbn [concat] in Hnot.
  apply not_elem_of_app in Hnot as [Hk Hks].
  apply Forall_cons in IH as [IHhd IHtl].
  rewrite fmap_cons, IHhd by done. f_equal. by apply IHk.
Qed.

Lemma insertChild_absent_list parent child kids :
  parent ∉ concat (idsOf <$> kids) → insertChild parent child <$> kids = kids.
Proof.
  induction kids as [|k kids IH]; [done|].
  rewrite !fmap_cons. cbn [concat]. intros [Hk Hks]%not_elem_of_app.
  by rewrite insertChild_absent, IH.
Qed.

Lemma insertChild_ids parent child r :
  NoDup (idsOf r) → parent ∈ idsOf r →
  idsOf (insertChild parent child r) ≡ₚ child :: idsOf r.
Proof.
  induction r as [i kids IH] using rose_ind'. cbn [idsOf].
  intros [Hi Hnd]%NoDup_cons Hin. cbn [insertChild]. case_bool_decide as Hip.
  - cbn [idsOf]. rewrite fmap_app, concat_app. cbn [fmap list_fmap idsOf concat].
    rewrite !app_nil_r, <- Permutation_cons_append. apply perm_swap.
  - apply elem_of_cons in Hin as [->|Hin]; [done|]. cbn [idsOf].
    etrans; [|apply perm_swap]. apply perm_skip. clear Hi Hip.
    induction kids as [|k kids IHk]; [by apply elem_of_nil in Hin|].
    rewrite !fmap_cons in *. cbn [concat] in *.
    apply NoDup_app in Hnd as (Hk & Hdisj & Hks).
    apply Forall_cons in IH as [IHhd IHtl].
    destruct (decide (parent ∈ idsOf k)) as [Hpk|Hpk].
    + rewrite (IHhd Hk Hpk), insertChild_absent_list; [done|].
      by apply Hdisj.
    + apply elem_of_app in Hin as [Hin|Hin]; [done|].
      rewrite (insertChild_absent _ _ _ Hpk), (IHk IHtl Hks Hin).
      by rewrite Permutation_middle.
Qed.

Lemma insertChild_shape ns parent p newId r :
  Shape ns r → NoDup (idsOf r) →
  ns !! parent = Some p → ns !! newId = None →
  Shape (<[ parent := setChildIds (childIds p ++ [newId]) p ]>
           (<[ newId := blankNode newId parent ]> ns))
        (insertChild parent newId r).
Proof.
  intros Hshape Hnd Hp Hfresh.
  assert (Hpn : parent ≠ newId) by congruence.
  induction r as [i kids IH] using rose_ind'.
  pose proof Hshape as Hkeys.
  apply Shape_inv in Hshape as (n & Hn & Hkids & Hshape).
  cbn [idsOf] in Hnd. apply NoDup_cons in Hnd as [Hi Hnd].
  cbn [insertChild]. case_bool_decide as Hip.
  - subst i. rewrite Hp in Hn. injection Hn as <-.
    eapply Shape_node; [apply lookup_insert_eq| |].
    + cbn [childIds setChildIds]. by rewrite fmap_app, Hkids.
    + apply Forall_app. split.
      * rewrite Forall_forall in Hshape. apply Forall_forall. intros k Hk.
        apply (Shape_agree ns); [|by apply Hshape].
        intros j m Hj Hm. exists m. split; [|done].
        rewrite !lookup_insert_ne; [done|congruence|].
        intros ->. apply Hi, elem_of_concat_fmap. eauto.
      * repeat constructor.
        apply (Shape_node _ _ (blankNode newId parent)); [|done|constructor].
        by rewrite lookup_insert_ne, lookup_insert_eq.
  - eapply Shape_node.
    + rewrite !lookup_insert_ne; [exact Hn|congruence|done].
    + rewrite Hkids, <- list_fmap_compose. apply list_fmap_ext.
      intros ? k _. cbn. by rewrite rootOf_insertChild.
    + rewrite Forall_forall in IH, Hshape. apply Forall_fmap, Forall_forall.
      intros k Hk. cbn. apply IH; [done|by apply Hshape|].
      by apply (NoDup_concat_elem idsOf kids).
Qed.

(** The ids the program gives out start with ["node-"]; no inherited
    property does. *)
Lemma inheritedName_node s : inheritedName ("node-" +:+ s) = false.
Proof.
  apply bool_decide_eq_false. unfold inheritedNames. intros Hin.
  repeat (apply elem_of_cons in Hin as [Hin|Hin]; [discriminate Hin|]).
  by apply elem_of_nil in Hin.
Qed.

Lemma SoundTree_import json t : parseImportedJson json = Ok t → SoundTree t.
Proof.
  intros Hparse.
  pose proof (import_well_formed _ _ Hparse) as Hwf.
  pose proof (NonEmptyIds_import _ _ Hparse) as Hids.
  destruct (parseImportedJson_Ok _ _ Hparse)
    as (meta & messages & st & _ & _ & Hps & Hnodes & Hroot & Hinv).
  split.
  - rewrite Hnodes, Hroot. by apply (TreeInvariant_import _ _ Hps).
  - done.
  - rewrite Hnodes. intros k n Hk.
    destruct (ChainInv_node _ _ _ _ Hinv Hk) as (i & p & _ & -> & _).
    apply inheritedName_node.
  - rewrite Hnodes. intros k n Hk.
    by destruct (ChainInv_node _ _ _ _ Hinv Hk) as (i & p & _ & -> & ->).
  - rewrite Hnodes. intros k n c Hk Hc.
    destruct (ChainInv_node _ _ _ _ Hinv Hk) as (i & p & _ & -> & ->).
    cbn [childIds chainNode] in Hc. case_decide as Hlt; [|by apply elem_of_nil in Hc].
    apply list_elem_of_singleton in Hc as ->.
    destruct (lookup_lt_is_Some_2 _ _ Hlt) as [p' Hp'].
    eexists. split; [by apply (chain_lookup _ _ Hinv)|done].
  - eexists. split; [exact Hwf|]. intros k.
    rewrite chainRose_ids, Hnodes, (chain_size _ _ Hinv).
    assert (0 < length (pairLoop messages 0 [])) as Hlen
      by (destruct (pairLoop messages 0 []); [done|simpl; lia]).
    replace (S (length (pairLoop messages 0 []) - 1))
      with (length (pairLoop messages 0 [])) by lia.
    rewrite list_elem_of_fmap. split.
    + intros (i & -> & Hi%elem_of_seq).
      destruct (lookup_lt_is_Some_2 (pairLoop messages 0 []) i) as [p Hp]; [lia|].
      eexists. by apply (chain_lookup _ _ Hinv).
    + intros [n Hk]. destruct (chain_keys _ _ Hinv _ _ Hk) as (i & Hi & ->).
      exists i. split; [done|]. apply elem_of_seq. lia.
Qed.

Lemma SoundTree_branch t parent p now rnd :
  SoundTree t →
  nodes t !! parent = Some p →
  nodes t !! newNodeId now rnd = None →
  SoundTree
    (withNodes t
       (<[ parent := setChildIds (childIds p ++ [newNodeId now rnd]) p ]>
          (<[ newNodeId now rnd := blankNode (newNodeId now rnd) parent ]>
             (nodes t)))).
Proof.
  intros [Hinv Hids Hown Hkeys Hback (r & (Hshape & Hroot & Hnd) & Hdom)]
    Hp Hfresh.
  set (newId := newNodeId now rnd) in *.
  assert (Hpn : parent ≠ newId) by congruence.
  split; cbn [nodes rootId withNodes].
  - by apply TreeInvariant_branch.
  - apply (NonEmptyIds_branch now rnd parent (nodes t) _ newId Hids).
    by apply createBranchNode_found.
  - intros k n [[<- _]|[_ Hk]]%lookup_insert_Some; [by eapply Hown|].
    apply lookup_insert_Some in Hk as [[<- _]|[_ Hk]]; [|by eapply Hown].
    apply (inheritedName_node (pretty now +:+ "-" +:+ rnd)).
  - intros k n [[<- <-]|[Hk1 Hk]]%lookup_insert_Some; [exact (Hkeys _ _ Hp)|].
    apply lookup_insert_Some in Hk as [[<- <-]|[Hk2 Hk]]; [done|by apply Hkeys].
  - intros i n c Hi Hc.
    assert (∀ cn, nodes t !! c = Some cn → parentId cn = Some i →
              ∃ cn', <[ parent := setChildIds (childIds p ++ [newId]) p ]>
                       (<[ newId := blankNode newId parent ]> (nodes t)) !! c
                     = Some cn' ∧ parentId cn' = Some i) as Hold.
    { intros cn Hcn Hpar. destruct (decide (c = parent)) as [->|Hcp].
      - rewrite lookup_insert_eq. eexists. split; [done|].
        cbn [parentId setChildIds]. congruence.
      - rewrite !lookup_insert_ne; [eauto|congruence|done]. }
    apply lookup_insert_Some in Hi as [[<- <-]|[Hi1 Hi]].
    + cbn [childIds setChildIds] in Hc.
      apply elem_of_app in Hc as [Hc|Hc].
      * destruct (Hback _ _ _ Hp Hc) as (cn & Hcn & Hpar). eauto.
      * apply list_elem_of_singleton in Hc as ->. eexists. by rewrite lookup_insert_ne, lookup_insert_eq.
    + apply lookup_insert_Some in Hi as [[<- <-]|[Hi2 Hi]];
        [by apply elem_of_nil in Hc|].
      destruct (Hback _ _ _ Hi Hc) as (cn & Hcn & Hpar). eauto.
  - exists (insertChild parent newId r).
    assert (Hpr : parent ∈ idsOf r) by (apply Hdom; eauto).
    assert (Hnr : newId ∉ idsOf r).
    { intros [n Hn]%Hdom. congruence. }
    split; [split; [|split]|].
    + by apply insertChild_shape.
    + by rewrite rootOf_insertChild.
    + rewrite insertChild_ids by done. by apply NoDup_cons.
    + intros k. rewrite insertChild_ids, elem_of_cons, Hdom by done.
      rewrite !lookup_insert_is_Some. split.
      * intros [->|Hk]; [right; split; [done|by left]|].
        destruct (decide (k = parent)) as [->|]; [by left|].
        right. split; [done|]. right. split; [|done]. intros ->.
        destruct Hk. congruence.
      * intros [->|[_ [->|[_ Hk]]]]; [right; eauto|by left|by right].
Qed.

Lemma SoundTree_update t nodeId node patch :
  SoundTree t →
  nodes t !! nodeId = Some node →
  textOnly patch →
  SoundTree (withNodes t (<[ nodeId := mergeNode node patch ]> (nodes t))).
Proof.
  intros [Hinv Hids Hown Hkeys Hback (r & (Hshape & Hroot & Hnd) & Hdom)]
    Hnode Hpatch.
  pose proof Hpatch as (Hpid & Hppar & Hpch & Hpsrc).
  assert (Hsame : ∀ k n, nodes t !! k = Some n →
            ∃ n', <[ nodeId := mergeNode node patch ]> (nodes t) !! k = Some n' ∧
                  id n' = id n ∧ parentId n' = parentId n ∧
                  childIds n' = childIds n).
  { intros k n Hk. destruct (decide (k = nodeId)) as [->|Hne].
    - rewrite lookup_insert_eq. eexists. split; [done|].
      rewrite Hnode in Hk. injection Hk as <-.
      unfold mergeNode. cbn. by rewrite Hpid, Hppar, Hpch.
    - rewrite lookup_insert_ne by done. eauto. }
  assert (Hsome : ∀ k, is_Some (<[ nodeId := mergeNode node patch ]> (nodes t) !! k)
                       ↔ is_Some (nodes t !! k)).
  { intros k. rewrite lookup_insert_is_Some. split.
    - intros [<-|[_ Hk]]; [by eexists|done].
    - intros Hk. destruct (decide (nodeId = k)); [by left|by right]. }
  split; cbn [nodes rootId withNodes].
  - by apply TreeInvariant_update.
  - intros k n Hk. assert (is_Some (nodes t !! k)) as [m Hm]
      by (apply Hsome; eauto). by eapply Hids.
  - intros k n Hk. assert (is_Some (nodes t !! k)) as [m Hm]
      by (apply Hsome; eauto). by eapply Hown.
  - intros k n Hk. assert (is_Some (nodes t !! k)) as [m Hm]
      by (apply Hsome; eauto).
    destruct (Hsame _ _ Hm) as (n' & Hn' & Hid' & _). rewrite Hk in Hn'.
    injection Hn' as <-. rewrite Hid'. by apply Hkeys.
  - intros i n c Hi Hc. assert (is_Some (nodes t !! i)) as [m Hm]
      by (apply Hsome; eauto).
    destruct (Hsame _ _ Hm) as (n' & Hn' & _ & _ & Hch'). rewrite Hi in Hn'.
    injection Hn' as <-. rewrite Hch' in Hc.
    destruct (Hback _ _ _ Hm Hc) as (cn & Hcn & Hpar).
    destruct (Hsame _ _ Hcn) as (cn' & Hcn' & _ & Hpar' & _).
    exists cn'. split; [done|congruence].
  - exists r. split; [split; [|done]|].
    + apply (Shape_agree (nodes t)); [|done]. intros i n _ Hi.
      destruct (Hsame _ _ Hi) as (n' & Hn' & _ & _ & Hch'). eauto.
    + intros k. by rewrite Hsome.
Qed.

Lemma reducer_sound w state action state' w' :
  (∀ t, tree state = Some t → SoundTree t) →
  Dispatched w state action →
  reducer w state action = Ok (Typed state', w') →
  ∀ t', tree state' = Some t' → SoundTree t'.
Proof.
  intros IH Hdisp Hred t' Ht'.
  destruct action as [t0|nodeId|view|patch|nodeId|nodeId patch|];
    cbn [reducer Dispatched] in Hred, Hdisp.
  - injection Hred as <- <-. cbn in Ht'. injection Ht' as <-.
    destruct Hdisp as [json Hjson]. by eapply SoundTree_import.
  - injection Hred as <- <-. by apply IH.
  - injection Hred as <- <-. by apply IH.
  - destruct (hasWindow w); [destruct (setItemThrows w); [done|]|];
      injection Hred as <- <-; by apply IH.
  - destruct (tree state) as [t|] eqn:Ht.
    + destruct (createBranchNode (dateNow w) (random36 w) nodeId (nodes t))
        as [[ns newId]|e] eqn:Hrun; [|done].
      cbn [mbind result_bind] in Hred. injection Hred as <- <-.
      cbn in Ht'. injection Ht' as <-.
      destruct Hdisp as [Hne Hdisp]. specialize (Hdisp t eq_refl).
      destruct (nodes t !! nodeId) as [p|] eqn:Hp.
      * rewrite (createBranchNode_found _ _ _ _ p) in Hrun by done.
        injection Hrun as <- <-. by apply SoundTree_branch; [apply IH|..].
      * by rewrite createBranchNode_missing in Hrun.
    + injection Hred as <- <-. congruence.
  - destruct Hdisp as [Hpatch Hid].
    destruct (tree state) as [t|] eqn:Ht.
    + destruct (nodes t !! nodeId) as [node|] eqn:Hnode.
      * injection Hred as <- <-. cbn in Ht'. injection Ht' as <-.
        by apply SoundTree_update; [apply IH|..].
      * destruct (Hid t eq_refl) as [[? ?]|Hinh]; [congruence|].
        rewrite Hinh in Hred. injection Hred as <- <-. apply IH. congruence.
    + injection Hred as <- <-. congruence.
  - injection Hred as <- <-. by apply IH.
Qed.


(** X14.  Whatever sequence of actions the components dispatch (imports of
    parsed exports, branch creations with a fresh id, prompt and response
    updates for a node of the tree or an id that is not the name of an
    inherited property, selections, view and settings changes), the tree in
    the store,
    when there is one, is sound: it satisfies the tree invariant, no key is
    empty or the name of an inherited property, every node is stored under
    its own id, every child names its parent, and the [childIds] lists
    unfold from the root into a tree that holds every key exactly once. *)
Theorem X14_reachable_trees_are_sound state t :
  Reachable state → tree state = Some t → SoundTree t.
Proof.
  intros Hreach. revert t.
  induction Hreach as [|state w action state' w' _ IH Hdisp Hred]; [done|].
  by eapply reducer_sound.
Qed.

Lemma Reachable_state0 : Reachable state0.
Proof.
  apply (Reachable_step initialState world0 (IMPORT_TREE tree0) state0 world0).
  - constructor.
  - by exists json0.
  - reflexivity.
Qed.

Lemma Reachable_state1 : Reachable state1.
Proof.
  apply (Reachable_step state0 world0 (BRANCH_FROM_NODE "node-0") state1 world0).
  - apply Reachable_state0.
  - split; [done|]. by intros t [= <-].
  - reflexivity.
Qed.

Lemma X14_reachable_trees_are_sound_witness :
  SoundTree (withNodes tree0 branchedNodes).
Proof.
  exact (X14_reachable_trees_are_sound state1 _ Reachable_state1 eq_refl).
Defined.

(** ** What holds in every reachable state *)






Lemma layout_of_well_formed ns rootId r nodeWidth nodeHeight hGap vGap :
  WellFormedFrom ns rootId r →
  ∃ pos,
    (∀ fuel, height r ≤ fuel →
       computeTreeLayout ns nodeWidth nodeHeight hGap vGap fuel rootId
       = Some pos) ∧
    (∀ k, k ∉ idsOf r → pos !! k = None) ∧
    Placed nodeWidth nodeHeight hGap vGap pos r 0 0 ∧
    ∃ qs, XsOf pos (idsOf r) qs.
Proof.
  intros (Hshape & <- & Hnd).
  destruct (layoutRose_laid_out nodeWidth nodeHeight hGap vGap r Hnd 0
              {| positions := ∅; leafCounter := 0 |})
    as (e & st' & Hrun & Hlc & Hframe & Hplaced & qs & lo & hi & Hxs & _).
  cbn [positions leafCounter] in *.
  exists (positions st'). split; [|split; [|split]].
  - intros fuel Hfuel. unfold computeTreeLayout.
    rewrite (layoutNode_rose ns _ _ _ _ r Hshape) by done.
    by rewrite Hrun.
  - intros k Hk. by rewrite (Hframe k Hk), lookup_empty.
  - done.
  - by exists qs.
Qed.







(** ** Settings *)


(** ** The choice of provider and model *)

Lemma stripGoogle_prefix m : stripGoogle ("google/" +:+ m) = m.
Proof. reflexivity. Qed.

(** X18.  The chat route never calls a provider with an empty model name;
    it takes the direct Google path exactly when the request names the
    provider ["gemini"] and carries a non-empty key, which is then the key
    it uses; on that path one leading ["google/"] is stripped from the
    model name; on the gateway path a non-empty model name is passed on
    unchanged. *)
Theorem X18_model_choice apiProvider geminiApiKey modelName :
  nonEmpty (selectModel apiProvider geminiApiKey modelName).2 = true ∧
  (∀ k, (selectModel apiProvider geminiApiKey modelName).1 = ViaGoogle k ↔
        apiProvider = Some "gemini" ∧ geminiApiKey = Some k ∧
        nonEmpty k = true) ∧
  (∀ k m, nonEmpty k = true → nonEmpty m = true →
          selectModel (Some "gemini") (Some k) (Some ("google/" +:+ m))
          = (ViaGoogle k, m)) ∧
  (∀ m, (selectModel apiProvider geminiApiKey modelName).1 = ViaGateway →
        modelName = Some m → nonEmpty m = true →
        (selectModel apiProvider geminiApiKey modelName).2 = m).
Proof.
  unfold selectModel. split; [|split; [|split]].
  - case_bool_decide; destruct geminiApiKey as [k|], modelName as [m|];
      cbn [truthy andb fmap option_fmap option_map default fst snd];
      repeat case_match; done.
  - intros k. destruct (bool_decide (apiProvider = Some "gemini")) eqn:Hap.
    + apply bool_decide_eq_true in Hap.
      destruct geminiApiKey as [k'|]; cbn [truthy andb].
      * destruct (nonEmpty k') eqn:Hk'; cbn [fst default].
        -- split; [by intros [= <-]|]. by intros (_ & [= <-] & _).
        -- split; [done|]. intros (_ & [= <-] & Hk). congruence.
      * cbn [fst]. split; [done|]. by intros (_ & ? & _).
    + apply bool_decide_eq_false in Hap. cbn [andb fst].
      split; [done|]. by intros (? & _).
  - intros k m Hk Hm. rewrite bool_decide_true by done.
    cbn [truthy andb fmap option_fmap option_map default].
    by rewrite Hk, stripGoogle_prefix, Hm.
  - intros m Hgw -> Hm. revert Hgw.
    case_bool_decide; destruct geminiApiKey as [k'|];
      cbn [truthy andb default fst snd]; try destruct (nonEmpty k');
      cbn [fst snd]; try done; by rewrite Hm.
Qed.

(** ** The layout of an arbitrary mapping *)

Section LayoutAny.
Variable ns : gmap string ChatNode.
Variables nodeWidth nodeHeight hGap vGap : Q.

Local Abbreviation layoutNode' := (layoutNode ns nodeWidth nodeHeight hGap vGap).
Local Abbreviation Finite' := (FinitePositions ns nodeHeight vGap).

Lemma FinitePositions_insert pos k n q d :
  Finite' pos → ns !! k = Some n →
  Finite' (<[ k := {| x := Num q;
                      y := Num (ofNat d * (nodeHeight + vGap)) |} ]> pos).
Proof.
  intros Hfin Hk k' p [[<- <-]|[_ Hp]]%lookup_insert_Some; [|by apply Hfin].
  split; [by eexists|]. by exists q, d.
Qed.

Lemma layoutChildren_finite rec children depth :
  (∀ i d st e st', rec i d st = Some (e, st') →
     Finite' (positions st) → Finite' (positions st') ∧ FiniteExtent e) →
  ∀ acc st e st',
    layoutChildren rec children depth acc st = Some (e, st') →
    Finite' (positions st) →
    (children = [] → FiniteExtent acc) →
    (acc = {| minX := PosInf; maxX := NegInf |} ∨ FiniteExtent acc) →
    Finite' (positions st') ∧ FiniteExtent e.
Proof.
  intros Hrec. induction children as [|c rest IH]; intros acc st e st' Hrun Hfin Hnil Hacc.
  - injection Hrun as <- <-. split; [done|by apply Hnil].
  - cbn [layoutChildren] in Hrun.
    destruct (rec c (depth + 1) st) as [[e1 st1]|] eqn:Hc; [|done].
    cbn [mbind option_bind] in Hrun.
    destruct (Hrec _ _ _ _ _ Hc Hfin) as (Hfin1 & lo1 & hi1 & ->).
    assert (FiniteExtent
              {| minX := num_min (minX acc) (minX {| minX := Num lo1; maxX := Num hi1 |});
                 maxX := num_max (maxX acc) (maxX {| minX := Num lo1; maxX := Num hi1 |}) |})
      as Hnext.
    { destruct Hacc as [->|(lo & hi & ->)]; cbn; by eexists _, _. }
    apply (IH _ _ _ _ Hrun); [done|done|by right].
Qed.

Lemma layoutNode_finite fuel :
  ∀ i d st e st', layoutNode' fuel i d st = Some (e, st') →
    Finite' (positions st) → Finite' (positions st') ∧ FiniteExtent e.
Proof.
  induction fuel as [|fuel IH]; intros i d st e st' Hrun Hfin; [done|].
  cbn [layoutNode] in Hrun. destruct (ns !! i) as [n|] eqn:Hn.
  - destruct (length (childIds n) =? 0) eqn:Hlen.
    + injection Hrun as <- <-. cbn [positions]. split; [|by eexists _, _].
      by eapply FinitePositions_insert.
    + destruct (layoutChildren (layoutNode' fuel) (childIds n) d
                  {| minX := PosInf; maxX := NegInf |} st)
        as [[e1 st1]|] eqn:Hkids; [|done].
      cbn [mbind option_bind] in Hrun. injection Hrun as <- <-.
      destruct (layoutChildren_finite _ _ _ IH _ _ _ _ Hkids Hfin)
        as (Hfin1 & lo & hi & ->); [|by left|].
      { intros E. by rewrite E in Hlen. }
      cbn [positions minX maxX num_add num_half].
      split; [|by eexists _, _]. by eapply FinitePositions_insert.
  - injection Hrun as <- <-. split; [done|by eexists _, _].
Qed.
End LayoutAny.

(** X19.  Whatever the mapping, also one with child ids that name no
    node, with shared children or with the root missing: a layout that
    [computeTreeLayout] returns holds positions only for keys of the
    mapping, every x-coordinate is a finite number (never NaN or an
    infinity), and every y-coordinate is the row of a depth. *)
Theorem X19_layout_of_any_mapping ns nodeWidth nodeHeight hGap vGap
    fuel rootId pos :
  computeTreeLayout ns nodeWidth nodeHeight hGap vGap fuel rootId = Some pos →
  ∀ k p, pos !! k = Some p →
    is_Some (ns !! k) ∧
    ∃ q d, x p = Num q ∧ y p = Num (ofNat d * (nodeHeight + vGap)).
Proof.
  unfold computeTreeLayout. intros Hrun.
  destruct (layoutNode ns nodeWidth nodeHeight hGap vGap fuel rootId 0
              {| positions := ∅; leafCounter := 0 |})
    as [[e st]|] eqn:Hnode; [|done].
  injection Hrun as <-.
  eapply layoutNode_finite; [exact Hnode|].
  intros k p Hk. cbn [positions] in Hk. by rewrite lookup_empty in Hk.
Qed.

Lemma X19_layout_of_any_mapping_witness :
  is_Some (ghostChild !! "r") ∧
  ∃ q d, x {| x := Num (0 # 2); y := Num 0 |} = Num q ∧
         y {| x := Num (0 # 2); y := Num 0 |} = Num (ofNat d * (120 + 60)).
Proof.
  apply (X19_layout_of_any_mapping ghostChild 240 120 40 60 2 "r"
           (<[ "r" := {| x := Num (0 # 2); y := Num 0 |} ]> ∅)).
  - by vm_compute.
  - reflexivity.
Defined.

(** ** The columns a well-formed tree occupies *)

Lemma ofNat_mul_le a b (s : Q) :
  a ≤ b → (0 <= s)%Q → (ofNat a * s <= ofNat b * s)%Q.
Proof.
  intros Hab Hs. apply Qmult_le_compat_r; [|done].
  unfold ofNat. rewrite <- Zle_Qle. lia.
Qed.

Lemma leavesOf_nonempty r : 0 < length (leavesOf r).
Proof.
  induction r as [i kids IH] using rose_ind'.
  destruct kids as [|k kids]; [simpl; lia|].
  apply Forall_cons in IH as [IHk _].
  cbn [leavesOf]. rewrite fmap_cons. cbn [concat]. rewrite length_app. lia.
Qed.

Lemma XsOf_elem_r pos ids qs q :
  XsOf pos ids qs → q ∈ qs →
  ∃ k yk, k ∈ ids ∧ pos !! k = Some {| x := Num q; y := yk |}.
Proof.
  intros Hxs (j & Hj)%list_elem_of_lookup.
  destruct (Forall2_lookup_r _ _ _ _ _ Hxs Hj) as (k & Hk & yk & Hpos).
  exists k, yk. split; [by eapply list_elem_of_lookup_2|done].
Qed.

Section Columns.
Variables nodeWidth nodeHeight hGap vGap : Q.
Variable pos : gmap string LayoutPosition.
Hypothesis step_nonneg : (0 <= nodeWidth + hGap)%Q.

Local Abbreviation InColumns := (InColumns nodeWidth hGap pos).

Lemma InColumns_weaken k c n c' n' :
  InColumns k c n → c' ≤ c → c + n ≤ c' + n' → InColumns k c' n'.
Proof.
  intros (q & yk & Hk & Hlo & Hhi) Hc Hn. exists q, yk. split; [done|]. split.
  - eapply Qle_trans; [|exact Hlo]. by apply ofNat_mul_le.
  - eapply Qle_trans; [exact Hhi|]. apply ofNat_mul_le; [lia|done].
Qed.

Lemma Placed_columns t d c :
  Placed nodeWidth nodeHeight hGap vGap pos t d c →
  ∀ k, k ∈ idsOf t → InColumns k c (length (leavesOf t)).
Proof.
  revert t d c.
  apply (Placed_mut nodeWidth nodeHeight hGap vGap pos
           (λ t d c, ∀ k, k ∈ idsOf t → InColumns k c (length (leavesOf t)))
           (λ ks d c, ∀ k, k ∈ concat (idsOf <$> ks) →
              InColumns k c (length (concat (leavesOf <$> ks))))).
  - intros i d c Hi k ->%list_elem_of_singleton.
    eexists _, _. split; [exact Hi|]. cbn [leavesOf length].
    replace (c + 1 - 1) with c by lia. split; apply Qle_refl.
  - intros i kids d c qs lo hi Hne _ IH Hxs [Hlo _] [Hhi _] Hi k Hk.
    assert (leavesOf (Rose i kids) = concat (leavesOf <$> kids)) as ->
      by (by destruct kids).
    cbn [idsOf] in Hk. apply elem_of_cons in Hk as [->|Hk]; [|by apply IH].
    assert (∀ q, q ∈ qs →
              (ofNat c * (nodeWidth + hGap) <= q)%Q ∧
              (q <= ofNat (c + length (concat (leavesOf <$> kids)) - 1)
                    * (nodeWidth + hGap))%Q) as Hin.
    { intros q (k & yk & Hk & Hpos)%(XsOf_elem_r _ _ _ _ Hxs).
      destruct (IH k Hk) as (q' & yk' & Hpos' & Hb).
      rewrite Hpos in Hpos'. by injection Hpos' as <- _. }
    destruct (Hin lo Hlo) as [Hlo1 Hlo2]. destruct (Hin hi Hhi) as [Hhi1 Hhi2].
    eexists _, _. split; [exact Hi|]. split.
    + apply Qle_shift_div_l; [reflexivity|]. lra.
    + apply Qle_shift_div_r; [reflexivity|]. lra.
  - intros d c k Hk. by apply elem_of_nil in Hk.
  - intros t ks d c _ IHt _ IHks k Hk.
    rewrite !fmap_cons in *. cbn [concat] in *. rewrite length_app.
    apply elem_of_app in Hk as [Hk|Hk].
    + apply (InColumns_weaken _ _ _ _ _ (IHt k Hk)); lia.
    + apply (InColumns_weaken _ _ _ _ _ (IHks k Hk)); lia.
Qed.
End Columns.

(** X20.  On a well-formed tree laid out with a non-negative column step
    [nodeWidth + hGap], every node gets an x-coordinate between 0 and the
    slot of the last leaf, (number of leaves - 1) * (nodeWidth + hGap): a
    parent never sticks out to the left or right of its leaves. *)
Theorem X20_layout_stays_within_the_leaves
    ns rootId r nodeWidth nodeHeight hGap vGap :
  WellFormedFrom ns rootId r →
  (0 <= nodeWidth + hGap)%Q →
  ∃ pos,
    (∀ fuel, height r ≤ fuel →
       computeTreeLayout ns nodeWidth nodeHeight hGap vGap fuel rootId
       = Some pos) ∧
    ∀ k, k ∈ idsOf r →
      ∃ q yk, pos !! k = Some {| x := Num q; y := yk |} ∧
        (0 <= q)%Q ∧
        (q <= ofNat (length (leavesOf r) - 1) * (nodeWidth + hGap))%Q.
Proof.
  intros Hwf Hstep.
  destruct (layout_of_well_formed _ _ _ nodeWidth nodeHeight hGap vGap Hwf)
    as (pos & Hrun & _ & Hplaced & _).
  exists pos. split; [done|]. intros k Hk.
  destruct (Placed_columns _ _ _ _ _ Hstep _ _ _ Hplaced k Hk)
    as (q & yk & Hpos & Hlo & Hhi).
  exists q, yk. split; [done|]. split; [|done].
  eapply Qle_trans; [|exact Hlo]. change (ofNat 0) with 0%Q.
  rewrite Qmult_0_l. apply Qle_refl.
Qed.

Lemma X20_layout_stays_within_the_leaves_witness :
  ∃ pos,
    (∀ fuel, height fork ≤ fuel →
       computeTreeLayout forkNodes 240 120 40 60 fuel "r" = Some pos) ∧
    ∀ k, k ∈ idsOf fork →
      ∃ q yk, pos !! k = Some {| x := Num q; y := yk |} ∧
        (0 <= q)%Q ∧
        (q <= ofNat (length (leavesOf fork) - 1) * (240 + 40))%Q.
Proof.
  apply (X20_layout_stays_within_the_leaves forkNodes "r" fork 240 120 40 60
           WellFormedFrom_fork).
  by vm_compute.
Defined.

(** ** The layout of an imported conversation *)

Lemma chainRose_height len i : height (chainRose len i) = S len.
Proof.
  revert i. induction len as [|len IH]; intros i; [done|].
  cbn [chainRose height fmap list_fmap max_list max_list_with].
  rewrite IH. change (Datatypes.id (S len)) with (S len). lia.
Qed.

Lemma chainRose_leaves len i : length (leavesOf (chainRose len i)) = 1.
Proof.
  revert i. induction len as [|len IH]; intros i; [done|].
  cbn [chainRose leavesOf fmap list_fmap concat]. by rewrite app_nil_r.
Qed.

Lemma chainRose_depths len :
  ∀ i d j, j ≤ len →
    (nodeIdOfIndex (i + j), d + j) ∈ depthsOf (chainRose len i) d.
Proof.
  induction len as [|len IH]; intros i d j Hj.
  - replace j with 0 by lia. rewrite !Nat.add_0_r. by left.
  - cbn [chainRose depthsOf fmap list_fmap concat]. rewrite app_nil_r.
    destruct j as [|j]; [rewrite !Nat.add_0_r; by left|]. right.
    replace (i + S j) with (S i + j) by lia.
    replace (d + S j) with (S d + j) by lia. apply IH. lia.
Qed.

(** X21.  Importing a conversation selects its first node, shows the tree
    view, and the tree view draws the conversation as one vertical line:
    the node of index [i] sits in row [i], at y = i * (140 + 80), and every
    node has x-coordinate 0. *)
Theorem X21_imported_conversation_is_one_column
    w state json t state' w' fuel :
  parseImportedJson json = Ok t →
  reducer w state (IMPORT_TREE t) = Ok (Typed state', w') →
  size (nodes t) ≤ fuel →
  selectedNodeId state' = Some "node-0" ∧
  activeView state' = TreeView ∧
  ∃ pos,
    treeViewLayout fuel state' = Some pos ∧
    ∀ i, i < size (nodes t) →
      ∃ q, pos !! nodeIdOfIndex i
           = Some {| x := Num q; y := Num (ofNat i * (140 + 80)) |} ∧
           (q == 0)%Q.
Proof.
  intros Hparse Hred Hfuel. cbn [reducer] in Hred. injection Hred as <- <-.
  pose proof (import_well_formed _ _ Hparse) as Hwf.
  pose proof Hwf as (_ & Hroot & _). rewrite chainRose_root in Hroot.
  destruct (parseImportedJson_Ok _ _ Hparse)
    as (meta & messages & st & _ & _ & Hps & Hnodes & _ & Hinv).
  assert (0 < size (nodes t)) as Hpos.
  { rewrite Hnodes, (chain_size _ _ Hinv).
    destruct (pairLoop messages 0 []); [done|simpl; lia]. }
  cbn [selectedNodeId activeView]. split; [by rewrite <- Hroot|].
  split; [done|].
  destruct (layout_of_well_formed _ _ _ 220 140 40 80 Hwf)
    as (pos & Hrun & _ & Hplaced & _).
  exists pos. split.
  - unfold treeViewLayout. cbn [tree]. apply Hrun.
    rewrite chainRose_height. lia.
  - intros i Hi.
    destruct (Placed_depth _ _ _ _ _ _ _ _ Hplaced (nodeIdOfIndex i) i)
      as (p & Hp & Hy).
    { apply (chainRose_depths _ 0 0 i). lia. }
    destruct (Placed_columns 220 140 40 80 pos) with
      (t := chainRose (size (nodes t) - 1) 0) (d := 0) (c := 0)
      (k := nodeIdOfIndex i) as (q & yk & Hq & Hlo & Hhi); [done|done| |].
    { rewrite chainRose_ids. apply list_elem_of_fmap. exists i.
      split; [done|]. apply elem_of_seq. lia. }
    rewrite chainRose_leaves in Hhi. cbn [Nat.add Nat.sub] in Hhi.
    change (ofNat 0) with 0%Q in Hlo, Hhi. rewrite Qmult_0_l in Hlo, Hhi.
    rewrite Hq in Hp. injection Hp as <-. cbn [y] in Hy. subst yk.
    exists q. split; [done|]. by apply Qle_antisym.
Qed.

Lemma X21_imported_conversation_is_one_column_witness :
  selectedNodeId state0 = Some "node-0" ∧
  activeView state0 = TreeView ∧
  ∃ pos,
    treeViewLayout 1 state0 = Some pos ∧
    ∀ i, i < size (nodes tree0) →
      ∃ q, pos !! nodeIdOfIndex i
           = Some {| x := Num q; y := Num (ofNat i * (140 + 80)) |} ∧
           (q == 0)%Q.
Proof.
  apply (X21_imported_conversation_is_one_column world0 initialState json0
           tree0 state0 world0 1 eq_refl eq_refl).
  vm_compute. lia.
Defined.

(** ** What the reducer never does *)

(** X22.  No action but an import removes or renames anything: after any
    other action that succeeds on a state with a tree, the tree has the
    same root id and metadata, every key of the old mapping is still a key,
    and at most one key was added. *)
Theorem X22_nodes_are_never_removed w state action state' w' t :
  reducer w state action = Ok (Typed state', w') →
  tree state = Some t →
  (∀ imported, action ≠ IMPORT_TREE imported) →
  ∃ t',
    tree state' = Some t' ∧
    rootId t' = rootId t ∧
    metadata t' = metadata t ∧
    (∀ k, is_Some (nodes t !! k) → is_Some (nodes t' !! k)) ∧
    size (nodes t) ≤ size (nodes t') ≤ S (size (nodes t)).
Proof.
  intros Hred Ht Himp.
  assert (Hsame : ∀ state1 : AppState, tree state1 = tree state →
            ∃ t', tree state1 = Some t' ∧ rootId t' = rootId t ∧
              metadata t' = metadata t ∧
              (∀ k, is_Some (nodes t !! k) → is_Some (nodes t' !! k)) ∧
              size (nodes t) ≤ size (nodes t') ≤ S (size (nodes t))).
  { intros state1 E. exists t. rewrite E. repeat (split; [done|]). lia. }
  assert (Hadd : ∀ nodeId n,
            (∀ k, is_Some (nodes t !! k) →
                  is_Some (<[ nodeId := n ]> (nodes t) !! k)) ∧
            size (nodes t) ≤ size (<[ nodeId := n ]> (nodes t))
              ≤ S (size (nodes t))).
  { intros nodeId n. split.
    - intros k Hk. rewrite lookup_insert_is_Some'. auto.
    - destruct (nodes t !! nodeId) eqn:Hk.
      + rewrite map_size_insert_Some by eauto. lia.
      + rewrite map_size_insert_None by done. lia. }
  destruct action as [t0|sel|view|patch|nodeId|nodeId patch|];
    cbn [reducer] in Hred.
  - by destruct (Himp t0).
  - injection Hred as <- <-. by apply Hsame.
  - injection Hred as <- <-. by apply Hsame.
  - destruct (hasWindow w); [destruct (setItemThrows w); [done|]|];
      injection Hred as <- <-; by apply Hsame.
  - rewrite Ht in Hred. unfold createBranchNode in Hred.
    destruct (<[ _ := _ ]> (nodes t) !! nodeId) as [p|] eqn:Hp; [|done].
    cbn [mbind result_bind] in Hred. injection Hred as <- <-.
    eexists. split; [done|]. cbn [rootId metadata nodes withNodes].
    split; [done|]. split; [done|]. split.
    + intros k Hk. rewrite !lookup_insert_is_Some'. auto.
    + rewrite map_size_insert_Some by eauto.
      destruct (nodes t !! newNodeId (dateNow w) (random36 w)) eqn:Hnew.
      * rewrite map_size_insert_Some by eauto. lia.
      * rewrite map_size_insert_None by done. lia.
  - rewrite Ht in Hred. destruct (nodes t !! nodeId) as [node|] eqn:Hnode.
    + injection Hred as <- <-. eexists. split; [done|].
      cbn [rootId metadata nodes withNodes].
      split; [done|]. split; [done|]. apply Hadd.
    + destruct (inheritedName nodeId).
      * destruct (completeNode patch) as [n|]; [|done].
        injection Hred as <- <-. eexists. split; [done|].
        cbn [rootId metadata nodes withNodes].
        split; [done|]. split; [done|]. apply Hadd.
      * injection Hred as <- <-. by apply Hsame.
  - injection Hred as <- <-. by apply Hsame.
Qed.

Lemma X22_nodes_are_never_removed_witness :
  ∃ t',
    tree state1 = Some t' ∧
    rootId t' = rootId tree0 ∧
    metadata t' = metadata tree0 ∧
    (∀ k, is_Some (nodes tree0 !! k) → is_Some (nodes t' !! k)) ∧
    size (nodes tree0) ≤ size (nodes t') ≤ S (size (nodes tree0)).
Proof.
  apply (X22_nodes_are_never_removed world0 state0 (BRANCH_FROM_NODE "node-0")
           state1 world0 tree0 eq_refl eq_refl).
  intros imported E. discriminate E.
Defined.

(** ** The keys of the rendered messages *)

Lemma string_length_app a b :
  String.length (a +:+ b) = String.length a + String.length b.
Proof. induction a as [|c a IH]; [done|]. simpl. by rewrite IH. Qed.

Lemma string_app_split a b s s' :
  a +:+ s = b +:+ s' → String.length b ≤ String.length a →
  ∃ c, a = b +:+ c ∧ c +:+ s = s'.
Proof.
  revert a. induction b as [|x b IH]; intros a E Hlen; [by exists a|].
  destruct a as [|y a]; [simpl in Hlen; lia|].
  cbn [String.app] in E. injection E as -> E.
  destruct (IH a E) as (c & -> & Hc); [simpl in Hlen; lia|]. by exists c.
Qed.

Lemma message_id_inj a b :
  (a +:+ "-prompt" = b +:+ "-prompt" → a = b) ∧
  (a +:+ "-response" = b +:+ "-response" → a = b) ∧
  a +:+ "-prompt" ≠ b +:+ "-response".
Proof.
  assert (∀ a b s, a +:+ s = b +:+ s → a = b) as Hcancel.
  { intros a' b' s E.
    assert (String.length a' = String.length b') as Hlen.
    { apply (f_equal String.length) in E. rewrite !string_length_app in E. lia. }
    destruct (string_app_split _ _ _ _ E) as (c & -> & Hc); [lia|].
    rewrite string_length_app in Hlen.
    destruct c; [|simpl in Hlen; lia]. clear.
    induction b' as [|x b' IH]; [done|].
    change (String x b' +:+ "") with (String x (b' +:+ "")). by rewrite IH. }
  split; [apply Hcancel|]. split; [apply Hcancel|]. intros E.
  assert (String.length a = String.length b + 2) as Hlen.
  { apply (f_equal String.length) in E. rewrite !string_length_app in E.
    simpl in E. lia. }
  destruct (string_app_split _ _ _ _ E) as (c & -> & Hc); [lia|].
  rewrite string_length_app in Hlen.
  destruct c as [|x [|y [|z c]]]; simpl in Hlen; try lia.
  cbn [String.app] in Hc. discriminate Hc.
Qed.

Lemma pathMessagesLoop_app nodes path :
  ∀ msgs, pathMessagesLoop nodes path msgs
          = msgs ++ pathMessagesLoop nodes path [].
Proof.
  induction path as [|k path IH]; intros msgs; cbn [pathMessagesLoop].
  - by rewrite app_nil_r.
  - destruct (nodes !! k) as [n|]; [|done].
    rewrite IH. rewrite (IH (if nonEmpty (response n) then _ else _)).
    destruct (nonEmpty (prompt n)), (nonEmpty (response n));
      by rewrite ?app_nil_l, <- ?app_assoc.
Qed.

Lemma pathMessagesLoop_ids nodes path m :
  m ∈ pathMessagesLoop nodes path [] →
  pm_nodeId m ∈ path ∧
  (pm_id m = pm_nodeId m +:+ "-prompt" ∨
   pm_id m = pm_nodeId m +:+ "-response").
Proof.
  induction path as [|k path IH]; cbn [pathMessagesLoop].
  - by intros ?%elem_of_nil.
  - destruct (nodes !! k) as [n|].
    + rewrite pathMessagesLoop_app. intros [Hm|Hm]%elem_of_app.
      * destruct (nonEmpty (prompt n)), (nonEmpty (response n));
          cbn [app] in Hm;
          repeat (apply elem_of_cons in Hm as [->|Hm];
                  [split; [by left|auto]|]);
          by apply elem_of_nil in Hm.
      * destruct (IH Hm). split; [by right|done].
    + intros Hm. destruct (IH Hm). split; [by right|done].
Qed.

Lemma pathMessagesLoop_NoDup nodes path :
  NoDup path → NoDup (pm_id <$> pathMessagesLoop nodes path []).
Proof.
  induction path as [|k path IH]; cbn [pathMessagesLoop]; [constructor|].
  intros [Hk Hnd]%NoDup_cons. destruct (nodes !! k) as [n|]; [|by apply IH].
  rewrite pathMessagesLoop_app, fmap_app. apply NoDup_app.
  destruct (message_id_inj k k) as (_ & _ & Hdiff).
  split; [|split; [|by apply IH]].
  - destruct (nonEmpty (prompt n)), (nonEmpty (response n)); cbn;
      repeat first
        [ apply NoDup_nil_2 | apply NoDup_singleton
        | apply NoDup_cons; split;
          [intros E%list_elem_of_singleton; by apply Hdiff in E|] ].
  - intros i Hi (m & -> & Hm)%list_elem_of_fmap.
    destruct (pathMessagesLoop_ids _ _ _ Hm) as [Hin Hid].
    assert (pm_nodeId m ≠ k) as Hne by (intros E; by rewrite E in Hin).
    destruct (message_id_inj k (pm_nodeId m)) as (Hp & Hr & Hpr).
    destruct (message_id_inj (pm_nodeId m) k) as (_ & _ & Hrp).
    assert (pm_id m ≠ k +:+ "-prompt" ∧ pm_id m ≠ k +:+ "-response")
      as [Hn1 Hn2].
    { destruct Hid as [Hid|Hid]; rewrite Hid; split; intros E.
      - apply Hne. symmetry. by apply Hp.
      - by apply Hrp in E.
      - by apply Hpr.
      - apply Hne. symmetry. by apply Hr. }
    destruct (nonEmpty (prompt n)), (nonEmpty (response n)); cbn in Hi;
      repeat (apply elem_of_cons in Hi as [Hi|Hi]; [congruence|]);
      by apply elem_of_nil in Hi.
Qed.

(** X23.  The messages the path view renders have pairwise different
    [id]s, the keys React is given: the path returned by [getPathToRoot]
    holds no id twice, and [<id>-prompt] and [<id>-response] differ for
    one node and between different nodes. *)
Theorem X23_rendered_message_keys_are_unique state fuel path :
  pathNodeIds fuel state = Some path →
  NoDup path ∧ NoDup (pm_id <$> pathMessages state path).
Proof.
  intros Hpath.
  assert (NoDup path) as Hnd.
  { unfold pathNodeIds in Hpath. destruct (tree state) as [t|].
    - destruct (truthy (selectedNodeId state)).
      + destruct (selectedNodeId state) as [sel|].
        * unfold getPathToRoot in Hpath.
          apply walkUp_ChainUp in Hpath as (pre & -> & Hch & _).
          rewrite app_nil_r. by eapply ChainUp_NoDup.
        * injection Hpath as <-. constructor.
      + injection Hpath as <-. constructor.
    - injection Hpath as <-. constructor. }
  split; [done|]. unfold pathMessages.
  destruct (tree state) as [t|]; [by apply pathMessagesLoop_NoDup|constructor].
Qed.

Lemma X23_rendered_message_keys_are_unique_witness :
  NoDup ["node-0"; "node-1"] ∧
  NoDup (pm_id <$> pathMessages state2 ["node-0"; "node-1"]).
Proof.
  exact (X23_rendered_message_keys_are_unique state2 2 ["node-0"; "node-1"]
           eq_refl).
Defined.

(** ** From an export to the history of its last node *)

Lemma chain_ChainUp ps st :
  ChainInv ps st →
  ∀ i, i < length ps →
    ChainUp (cs_nodes st) (Some (nodeIdOfIndex i))
            (nodeIdOfIndex <$> seq 0 (S i)).
Proof.
  intros Hinv. induction i as [|i IH]; intros Hi.
  - destruct (lookup_lt_is_Some_2 ps 0 Hi) as [p Hp].
    apply (ChainUp_step _ _ []); [done|].
    rewrite (chain_lookup _ _ Hinv _ _ Hp). by constructor.
  - destruct (lookup_lt_is_Some_2 ps (S i) Hi) as [p Hp].
    rewrite seq_S, fmap_app. apply ChainUp_step; [done|].
    rewrite (chain_lookup _ _ Hinv _ _ Hp). apply IH. lia.
Qed.

Lemma chain_history ps st :
  ChainInv ps st →
  ∀ n, n ≤ length ps →
    historyLoop (cs_nodes st) (nodeIdOfIndex <$> seq 0 n) []
    = Ok (concat (pairExchange <$> take n ps)).
Proof.
  intros Hinv. induction n as [|n IH]; intros Hn; [done|].
  destruct (lookup_lt_is_Some_2 ps n) as [p Hp]; [lia|].
  rewrite seq_S, fmap_app, historyLoop_app, IH by lia.
  cbn [mbind result_bind Nat.add fmap list_fmap].
  rewrite (historyLoop_one _ _ _ _ (chain_lookup _ _ Hinv _ _ Hp)).
  rewrite (take_S_r _ _ _ Hp), fmap_app, concat_app. cbn [fmap list_fmap concat].
  by rewrite app_nil_r.
Qed.

Lemma promptPairs_turns prs :
  promptPairs (turns prs)
  = (λ pr, {| pair_prompt := pr.1; pair_response := pr.2 |}) <$> prs.
Proof.
  induction prs as [|pr prs IH]; [done|].
  unfold turns. rewrite !fmap_cons. cbn [concat app]. fold (turns prs).
  rewrite !promptPairs_cons, IH. cbn [role say head roleIs fmap option_fmap
    option_map default].
  rewrite !bool_decide_true by done. by rewrite bool_decide_false by done.
Qed.

(** X24.  Import, then history, gives the conversation back: for an export
    in which every prompt is followed by its response, none of them empty,
    [parseImportedJson] builds one node per turn, the path of the last node
    runs through all nodes in order, and [buildChatHistory] of the last node
    is the export's conversation, prompts as [user] and responses as
    [assistant]. *)
Theorem X24_import_then_history_round_trip json meta prs fuel :
  json_metadata json = Some meta →
  json_messages json = Some (turns prs) →
  prs ≠ [] →
  Forall (λ pr, nonEmpty pr.1 = true ∧ nonEmpty pr.2 = true) prs →
  length prs ≤ fuel →
  ∃ t,
    parseImportedJson json = Ok t ∧
    size (nodes t) = length prs ∧
    getPathToRoot fuel (nodeIdOfIndex (length prs - 1)) (nodes t)
      = Some (nodeIdOfIndex <$> seq 0 (length prs)) ∧
    buildChatHistory fuel (nodeIdOfIndex (length prs - 1)) (nodes t)
      = Some (Ok (turnsAsChat prs)).
Proof.
  intros Hmeta Hmsgs Hne Hfull Hfuel.
  assert (pairLoop (turns prs) 0 []
          = (λ pr, {| pair_prompt := pr.1; pair_response := pr.2 |}) <$> prs)
    as Hpairs
    by (by rewrite pairLoop_pairScan, pairScan_promptPairs, promptPairs_turns).
  assert (0 < length prs) as Hlen by (destruct prs; [done|simpl; lia]).
  destruct (parseImportedJson_chain json meta (turns prs) Hmeta Hmsgs)
    as (t & st & Hparse & Hnodes & _ & Hinv).
  { rewrite Hpairs. by destruct prs. }
  rewrite Hpairs in Hinv.
  set (ps := (λ pr, {| pair_prompt := pr.1; pair_response := pr.2 |}) <$> prs)
    in *.
  assert (length ps = length prs) as Hps by apply length_fmap.
  exists t. split; [done|]. rewrite Hnodes.
  split; [by rewrite (chain_size _ _ Hinv)|].
  assert (getPathToRoot fuel (nodeIdOfIndex (length prs - 1)) (cs_nodes st)
          = Some (nodeIdOfIndex <$> seq 0 (length prs))) as Hpath.
  { unfold getPathToRoot.
    pose proof (chain_ChainUp _ _ Hinv (length prs - 1)) as Hch.
    replace (S (length prs - 1)) with (length prs) in Hch by lia.
    rewrite (ChainUp_walkUp _ _ _ (Hch ltac:(lia)))
      by (by rewrite length_fmap, length_seq).
    by rewrite app_nil_r. }
  split; [done|]. unfold buildChatHistory. rewrite Hpath.
  cbn [mbind option_bind].
  rewrite (chain_history _ _ Hinv) by lia.
  rewrite <- Hps, firstn_all. do 2 f_equal. unfold ps, turnsAsChat.
  rewrite <- list_fmap_compose. f_equal. apply Forall_fmap_ext_1.
  eapply Forall_impl; [exact Hfull|]. intros [p r] [Hp Hr]. cbn in *.
  unfold pairExchange. cbn. by rewrite Hp, Hr.
Qed.

Lemma X24_import_then_history_round_trip_witness :
  ∃ t,
    parseImportedJson json0 = Ok t ∧
    size (nodes t) = 1 ∧
    getPathToRoot 1 "node-0" (nodes t) = Some ["node-0"] ∧
    buildChatHistory 1 "node-0" (nodes t)
      = Some (Ok [ {| msg_role := role_user; content := "hi" |};
                   {| msg_role := role_assistant; content := "hello" |} ]).
Proof.
  apply (X24_import_then_history_round_trip json0 _ [("hi", "hello")] 1
           eq_refl eq_refl).
  - done.
  - by repeat constructor.
  - simpl. lia.
Defined.

(** ** Cards of one row do not overlap *)

Lemma ofNat_S_mul n (s : Q) : (ofNat (S n) * s == ofNat n * s + s)%Q.
Proof.
  unfold ofNat. rewrite Nat2Z.inj_succ, <- Z.add_1_r, inject_Z_plus. ring.
Qed.

Lemma depthsOf_ids t : ∀ d k dk, (k, dk) ∈ depthsOf t d → k ∈ idsOf t ∧ d ≤ dk.
Proof.
  induction t as [i kids IH] using rose_ind'. intros d k dk.
  cbn [depthsOf idsOf].
  intros [[= -> ->]|(c & Hc & Hk)%elem_of_concat_fmap]%elem_of_cons.
  - split; [by left|lia].
  - rewrite Forall_forall in IH. destruct (IH c Hc _ _ _ Hk) as [Hin Hle].
    split; [|lia]. right. apply elem_of_concat_fmap. eauto.
Qed.

Section Rows.
Variables nodeWidth nodeHeight hGap vGap : Q.
Variable pos : gmap string LayoutPosition.
Hypothesis step_nonneg : (0 <= nodeWidth + hGap)%Q.

Local Abbreviation Placed' := (Placed nodeWidth nodeHeight hGap vGap pos).
Local Abbreviation PlacedAll' := (PlacedAll nodeWidth nodeHeight hGap vGap pos).
Local Abbreviation InColumns' := (InColumns nodeWidth hGap pos).
Local Abbreviation Apart' := (Apart nodeWidth hGap pos).

Lemma PlacedAll_columns ks d c :
  PlacedAll' ks d c →
  ∀ k, k ∈ concat (idsOf <$> ks) →
    InColumns' k c (length (concat (leavesOf <$> ks))).
Proof.
  induction 1 as [|t ks d c Ht Hks IH]; intros k Hk.
  - by apply elem_of_nil in Hk.
  - rewrite !fmap_cons in *. cbn [concat] in *. rewrite length_app.
    apply elem_of_app in Hk as [Hk|Hk].
    + eapply InColumns_weaken;
        [done|by eapply Placed_columns|lia..].
    + eapply InColumns_weaken; [done|by apply IH|lia..].
Qed.

Lemma InColumns_apart k1 k2 c n m :
  0 < n → InColumns' k1 c n → InColumns' k2 (c + n) m → Apart' k1 k2.
Proof.
  intros Hn (q1 & y1 & Hk1 & _ & Hhi) (q2 & y2 & Hk2 & Hlo & _).
  exists q1, q2, y1, y2. split; [done|]. split; [done|]. left.
  replace (c + n) with (S (c + n - 1)) in Hlo by lia.
  rewrite ofNat_S_mul in Hlo.
  eapply Qle_trans; [|exact Hlo]. by apply Qplus_le_l.
Qed.

Lemma Apart_sym k1 k2 : Apart' k1 k2 → Apart' k2 k1.
Proof.
  intros (q1 & q2 & y1 & y2 & H1 & H2 & Hor).
  exists q2, q1, y2, y1. split; [done|]. split; [done|]. tauto.
Qed.

Lemma Placed_rows t d c :
  Placed' t d c →
  ∀ k1 k2 dk, (k1, dk) ∈ depthsOf t d → (k2, dk) ∈ depthsOf t d →
    k1 ≠ k2 → Apart' k1 k2.
Proof.
  revert t d c.
  apply (Placed_mut nodeWidth nodeHeight hGap vGap pos
           (λ t d c, ∀ k1 k2 dk,
              (k1, dk) ∈ depthsOf t d → (k2, dk) ∈ depthsOf t d →
              k1 ≠ k2 → Apart' k1 k2)
           (λ ks d c, ∀ k1 k2 dk,
              (k1, dk) ∈ concat ((λ t, depthsOf t d) <$> ks) →
              (k2, dk) ∈ concat ((λ t, depthsOf t d) <$> ks) →
              k1 ≠ k2 → Apart' k1 k2)).
  - intros i d c _ k1 k2 dk H1 H2 Hne. cbn in H1, H2.
    apply list_elem_of_singleton in H1 as [= -> _].
    by apply list_elem_of_singleton in H2 as [= -> _].
  - intros i kids d c qs lo hi _ _ IH _ _ _ _ k1 k2 dk H1 H2 Hne.
    cbn [depthsOf] in H1, H2.
    assert (∀ k, (k, dk) ∈ concat ((λ t, depthsOf t (S d)) <$> kids) → S d ≤ dk)
      as Hdeep.
    { intros k (t & _ & Hk)%elem_of_concat_fmap.
      by apply depthsOf_ids in Hk as [_ ?]. }
    apply elem_of_cons in H1 as [E1|H1];
      apply elem_of_cons in H2 as [E2|H2].
    + exfalso. apply Hne. congruence.
    + injection E1 as -> ->. apply Hdeep in H2. lia.
    + injection E2 as -> ->. apply Hdeep in H1. lia.
    + by eapply IH.
  - intros d c k1 k2 dk H1. by apply elem_of_nil in H1.
  - intros t ks d c Ht IHt Hks IHks k1 k2 dk H1 H2 Hne.
    rewrite fmap_cons in H1, H2. cbn [concat] in H1, H2.
    assert (∀ k, (k, dk) ∈ depthsOf t d →
                 InColumns' k c (length (leavesOf t))) as Hleft.
    { intros k [Hk _]%depthsOf_ids. by eapply Placed_columns. }
    assert (∀ k, (k, dk) ∈ concat ((λ t, depthsOf t d) <$> ks) →
                 InColumns' k (c + length (leavesOf t))
                            (length (concat (leavesOf <$> ks)))) as Hright.
    { intros k (t' & Ht' & [Hk _]%depthsOf_ids)%elem_of_concat_fmap.
      eapply PlacedAll_columns; [done|]. apply elem_of_concat_fmap. eauto. }
    pose proof (leavesOf_nonempty t) as Hpos.
    apply elem_of_app in H1 as [H1|H1]; apply elem_of_app in H2 as [H2|H2].
    + by eapply IHt.
    + eapply InColumns_apart; [done|by apply Hleft|by apply Hright].
    + apply Apart_sym.
      eapply InColumns_apart; [done|by apply Hleft|by apply Hright].
    + by eapply IHks.
Qed.
End Rows.

(** X25.  Cards of one row never overlap: on a well-formed tree laid out
    with sizes that are integers, card width and gap not negative and the
    number of leaves times the column step at most 2^52 (so that the slot of
    every leaf and the sum of two slots are computed without rounding), two
    different nodes of the same depth get x-coordinates at least
    [nodeWidth + hGap] apart. *)
Theorem X25_cards_of_one_row_do_not_overlap
    ns rootId r (nodeWidth nodeHeight hGap vGap : Z) :
  WellFormedFrom ns rootId r →
  (0 ≤ nodeWidth)%Z →
  (0 ≤ hGap)%Z →
  (Z.of_nat (length (leavesOf r)) * (nodeWidth + hGap) ≤ 2 ^ 52)%Z →
  ∃ pos,
    (∀ fuel, height r ≤ fuel →
       computeTreeLayout ns (inject_Z nodeWidth) (inject_Z nodeHeight)
         (inject_Z hGap) (inject_Z vGap) fuel rootId
       = Some pos) ∧
    ∀ k1 k2 dk,
      (k1, dk) ∈ depthsOf r 0 → (k2, dk) ∈ depthsOf r 0 → k1 ≠ k2 →
      ∃ q1 q2 y1 y2,
        pos !! k1 = Some {| x := Num q1; y := y1 |} ∧
        pos !! k2 = Some {| x := Num q2; y := y2 |} ∧
        ((q1 + (inject_Z nodeWidth + inject_Z hGap) <= q2)%Q ∨
         (q2 + (inject_Z nodeWidth + inject_Z hGap) <= q1)%Q).
Proof.
  intros Hwf Hwidth Hgap _.
  assert (0 <= inject_Z nodeWidth + inject_Z hGap)%Q as Hstep.
  { rewrite <- inject_Z_plus. change 0%Q with (inject_Z 0).
    rewrite <- Zle_Qle. lia. }
  destruct (layout_of_well_formed _ _ _ (inject_Z nodeWidth)
              (inject_Z nodeHeight) (inject_Z hGap) (inject_Z vGap) Hwf)
    as (pos & Hrun & _ & Hplaced & _).
  exists pos. split; [done|]. intros k1 k2 dk H1 H2 Hne.
  by eapply (Placed_rows _ _ _ _ _ Hstep _ _ _ Hplaced).
Qed.

Lemma X25_cards_of_one_row_do_not_overlap_witness :
  ∃ pos,
    (∀ fuel, height fork ≤ fuel →
       computeTreeLayout forkNodes (inject_Z 240) (inject_Z 120)
         (inject_Z 40) (inject_Z 60) fuel "r" = Some pos) ∧
    ∀ k1 k2 dk,
      (k1, dk) ∈ depthsOf fork 0 → (k2, dk) ∈ depthsOf fork 0 → k1 ≠ k2 →
      ∃ q1 q2 y1 y2,
        pos !! k1 = Some {| x := Num q1; y := y1 |} ∧
        pos !! k2 = Some {| x := Num q2; y := y2 |} ∧
        ((q1 + (inject_Z 240 + inject_Z 40) <= q2)%Q ∨
         (q2 + (inject_Z 240 + inject_Z 40) <= q1)%Q).
Proof.
  apply (X25_cards_of_one_row_do_not_overlap forkNodes "r" fork 240 120 40 60
           WellFormedFrom_fork).
  - lia.
  - lia.
  - by vm_compute.
Defined.
